(** * libdistgen: the distance registry, the size normalizer, the
      dependency-chain builder and the benchmark executor of
      [src/distgen_internal.cpp], embedded as Rocq functions.

    Conventions of the embedding.
    - [u64] values are integers in [Z]; every operation that can leave the
      range [0, 2^64) is written with [wrap64].
    - [int] loop counters are integers in [Z]; at the one place where an
      [int] can overflow (the traversal counter [k] of [runBench]) the run
      has no defined result.
    - The static arrays [distSize], [distBlocks], [distIter] are memory
      cells addressed by their index, [Z -> Z]; an index outside the array
      addresses whatever lies next to it.
    - A per-thread buffer is a finite map from entry index to entry; an
      index without a binding lies outside the allocation.
    - [double] is an abstract payload type with its addition; the
      instance [double_payload] is IEEE 754 binary64.
    - A run that aborts on a failed [assert], or that leaves defined
      behaviour (access outside a buffer, null dereference, division by
      zero, signed overflow), is [None]. *)

From Stdlib Require Import ZArith Lia Znumtheory List.
From Stdlib Require PrimFloat PrimInt63.
From stdpp Require Import base numbers option list gmap.
From Equations Require Import Equations.
Import ListNotations.
Local Open Scope Z_scope.

(* ================================================================== *)
(** * Machine integers and constants *)

Definition wrap64 (x : Z) : Z := x mod 2 ^ 64.

Definition INT_MAX : Z := 2 ^ 31 - 1.

(** Modelled from the spec: the macro [BLOCKLEN] is declared in
    [distgen/distgen_internal.h], which is not part of the sources at
    hand; the spec fixes the access block to one cache line of 64 bytes. *)
Definition BLOCKLEN : Z := 64.

(** [sizeof(struct entry)], asserted to be 16 by [initBufs]. *)
Definition sizeof_entry : Z := 16.

(** Array cell update, [a[i] = x]. *)
Definition upd (a : Z -> Z) (i x : Z) : Z -> Z :=
  fun j => if j =? i then x else a j.

(* ================================================================== *)
(** * Payload arithmetic

    The payload of an entry is a [double].  The development is parametric
    in the type and in the four operations the code uses on it. *)

Class Payload (F : Type) := {
  fadd : F -> F -> F;      (* [+] on double *)
  of_u64 : Z -> F;         (* [static_cast<double>(idx)] *)
  f_one : F;               (* [1.0] *)
  f_const : F              (* [v = 1.23] in [runBench] *)
}.

(** Modelled from the spec: [struct entry] is declared in the header,
    which is not part of the sources at hand; it is the 16-byte record of a
    [double] payload [v] and a link [next], the two fields the code uses.
    The link is either null ([None]) or points to an entry of the same
    buffer, [buf + i]. *)
Record entry (F : Type) := Entry { v : F; next : option Z }.
Arguments Entry {F} _ _.
Arguments v {F} _.
Arguments next {F} _.

(* ================================================================== *)
(** * Static variables of the translation unit *)

Record globals := Globals {
  distSize : Z -> Z;
  distBlocks : Z -> Z;
  distIter : Z -> Z;
  distsUsed : Z;
  pseudoRandom : bool;
  blocks : Z;
  blockDiff : Z;
  tcount : Z
}.

Definition set_dists (g : globals) (a : Z -> Z) (n : Z) : globals :=
  Globals a (distBlocks g) (distIter g) n (pseudoRandom g) (blocks g) (blockDiff g)
    (tcount g).

Definition set_metrics (g : globals) (b i : Z -> Z) : globals :=
  Globals (distSize g) b i (distsUsed g) (pseudoRandom g) (blocks g) (blockDiff g)
    (tcount g).

Definition set_sizes (g : globals) (b d : Z) : globals :=
  Globals (distSize g) (distBlocks g) (distIter g) (distsUsed g) (pseudoRandom g) b d
    (tcount g).

(** The static storage as the program starts: the arrays and counters
    zero-initialised, [size_t tcount = 1]. *)
Definition globals0 (pr : bool) : globals :=
  Globals (fun _ => 0) (fun _ => 0) (fun _ => 0) 0 pr 0 0 1.

(* ================================================================== *)
(** * Distance registry: [addDist] *)

Module Registry.

(** One access to the array [distSize]. *)
Inductive access := Rd (i : Z) | Wr (i : Z).

Definition index_of (a : access) : Z :=
  match a with Rd i => i | Wr i => i end.

(** Outcome of the search loop: the value is present, or the loop left
    with insertion position [d]. *)
Inductive found := Present | At (d : Z).

(** [for (d = 0; d < distsUsed; d++) {
       if (distSize[d] == size) return;
       if (distSize[d] < size) break; }]
    with [n] iterations left before [d] reaches [distsUsed]. *)
Fixpoint search (n : nat) (d size : Z) (a : Z -> Z) : found * list access :=
  match n with
  | O => (At d, [])
  | S n' =>
      if a d =? size then (Present, [Rd d])
      else if a d <? size then (At d, [Rd d; Rd d])
      else let (r, tr) := search n' (d + 1) size a in (r, Rd d :: Rd d :: tr)
  end.

(** [for (dd = distsUsed; dd >= d; dd--) distSize[dd] = distSize[dd - 1];]
    with [n] iterations left. *)
Fixpoint shift (n : nat) (dd : Z) (a : Z -> Z) : (Z -> Z) * list access :=
  match n with
  | O => (a, [])
  | S n' =>
      let (a', tr) := shift n' (dd - 1) (upd a dd (a (dd - 1))) in
      (a', Rd (dd - 1) :: Wr dd :: tr)
  end.

(** [addDist(size)]; [None] when [assert(distsUsed < MAXDISTCOUNT)] fails.
    The capacity [MAXDISTCOUNT] is a macro of the header, which is not part
    of the sources at hand: it is a parameter here.  The second component
    lists the accesses to [distSize] in program order. *)
Definition addDist (MAXDISTCOUNT : Z) (size : Z) (g : globals)
  : option (globals * list access) :=
  let (r, tr1) := search (Z.to_nat (distsUsed g)) 0 size (distSize g) in
  match r with
  | Present => Some (g, tr1)
  | At d =>
      if distsUsed g <? MAXDISTCOUNT then
        let (a, tr2) :=
          shift (Z.to_nat (distsUsed g - d + 1)) (distsUsed g) (distSize g) in
        Some (set_dists g (upd a d size) (distsUsed g + 1),
              tr1 ++ tr2 ++ [Wr d])
      else None
  end.

(** A sequence of registrations, each on the state the previous one left. *)
Fixpoint addDists (MAXDISTCOUNT : Z) (sizes : list Z) (g : globals)
  : option globals :=
  match sizes with
  | [] => Some g
  | s :: rest =>
      match addDist MAXDISTCOUNT s g with
      | Some (g', _) => addDists MAXDISTCOUNT rest g'
      | None => None
      end
  end.

(** The registered distances, [distSize[0 .. distsUsed)]. *)
Definition registered (g : globals) : list Z :=
  map (distSize g) (seqZ 0 (distsUsed g)).

Definition strictly_descending (g : globals) : Prop :=
  forall i j, 0 <= i -> i < j -> j < distsUsed g -> distSize g j < distSize g i.

Definition registry_ok (g : globals) : Prop :=
  0 <= distsUsed g /\ strictly_descending g.

End Registry.

(* ================================================================== *)
(** * Size normalizer: [gcd], [adjustSize], the sizing part of [initBufs] *)

(** [static u64 gcd(u64 a, u64 b) { if (b == 0) return a; return gcd(b, a % b); }] *)
Equations? gcd (a b : Z) : Z by wf (Z.abs_nat b) lt :=
  gcd a b with Z.eq_dec b 0 := {
    | left _ := a;
    | right _ := gcd b (a mod b) }.
Proof.
  destruct (Z_lt_le_dec b 0).
  - pose proof (Z.mod_neg_bound a b). lia.
  - pose proof (Z.mod_pos_bound a b). lia.
Qed.

(** [while (gcd(size, diff) > 1) size++; return size;]
    [fuel] bounds the number of loop tests; [None] when it runs out. *)
Fixpoint adjustSize (fuel : nat) (size diff : Z) : option Z :=
  match fuel with
  | O => None
  | S fuel' =>
      if 1 <? gcd size diff
      then adjustSize fuel' (wrap64 (size + 1)) diff
      else Some size
  end.

(** The same loop with the library's [Z.gcd] for the recursive [gcd]; it
    agrees with [adjustSize] on unsigned arguments and evaluates on large
    ones. *)
Fixpoint adjustSize_Zgcd (fuel : nat) (size diff : Z) : option Z :=
  match fuel with
  | O => None
  | S fuel' =>
      if 1 <? Z.gcd size diff
      then adjustSize_Zgcd fuel' (wrap64 (size + 1)) diff
      else Some size
  end.

(** [blocks = (distSize[0] + BLOCKLEN - 1) / BLOCKLEN;] *)
Definition raw_blocks (size0 : Z) : Z :=
  wrap64 (size0 + BLOCKLEN - 1) / BLOCKLEN.

(** [blockDiff = pseudoRandom ? (blocks * 7 / 17) : 1;] *)
Definition stride_policy (pr : bool) (blocks0 : Z) : Z :=
  if pr then wrap64 (blocks0 * 7) / 17 else 1.

(** The loop of [initBufs] that fills [distBlocks] and [distIter], with
    [n] distances left; [None] on a division by zero. *)
Fixpoint fill_metrics (n : nat) (d : Z) (g : globals) : option globals :=
  match n with
  | O => Some g
  | S n' =>
      if distSize g d =? 0 then None
      else
        fill_metrics n' (d + 1)
          (set_metrics g
             (upd (distBlocks g) d (wrap64 (distSize g d + BLOCKLEN - 1) / BLOCKLEN))
             (upd (distIter g) d (distSize g 0 / distSize g d)))
  end.

(** [initBufs] up to the point where the threads are started:
    [assert(tcount < DISTGEN_MAXTHREADS); assert(sizeof(struct entry) == 16);]
    then the metrics loop and the sizing.  [T] is the macro
    [DISTGEN_MAXTHREADS] of the header, which is not part of the sources
    at hand. *)
Definition initBufs (T : Z) (fuel : nat) (g : globals) : option globals :=
  if negb (tcount g <? T) then None
  else if negb (sizeof_entry =? 16) then None
  else
    match fill_metrics (Z.to_nat (distsUsed g)) 0 g with
    | None => None
    | Some g1 =>
        let b0 := raw_blocks (distSize g1 0) in
        let diff := stride_policy (pseudoRandom g1) b0 in
        match adjustSize fuel b0 diff with
        | None => None
        | Some b => Some (set_sizes g1 b diff)
        end
    end.

(* ================================================================== *)
(** * Dependency-chain builder: [init_memory_per_thread] *)

(** [u64 idxMax = blocks * BLOCKLEN / sizeof(entry);] *)
Definition idxMax (g : globals) : Z := wrap64 (blocks g * BLOCKLEN) / sizeof_entry.

(** [u64 idxIncr = blockDiff * BLOCKLEN / sizeof(entry);] *)
Definition idxIncr (g : globals) : Z := wrap64 (blockDiff g * BLOCKLEN) / sizeof_entry.

(** [nextIdx = idx + idxIncr; if (nextIdx >= idxMax) nextIdx -= idxMax;]
    The sequential modes of [runBench] advance [idx] by the same two
    statements. *)
Definition next_idx (g : globals) (idx : Z) : Z :=
  let nextIdx := wrap64 (idx + idxIncr g) in
  if idxMax g <=? nextIdx then wrap64 (nextIdx - idxMax g) else nextIdx.

(** Entry index of the first unit of block [k]. *)
Definition block_start (k : Z) : Z := k * (BLOCKLEN / sizeof_entry).

(** Offsets indexed by [n] steps of the sequential traversal
    [for (j = 0; j < max; j++) { ... buffer[idx] ...; idx += idxIncr;
     if (idx >= idxMax) idx -= idxMax; }]. *)
Fixpoint seq_offsets (g : globals) (n : nat) (idx : Z) : list Z :=
  match n with
  | O => []
  | S n' => idx :: seq_offsets g n' (next_idx g idx)
  end.

(** Value of [idx] after [j] sequential steps from 0. *)
Fixpoint seq_idx (g : globals) (j : nat) : Z :=
  match j with
  | O => 0
  | S j' => next_idx g (seq_idx g j')
  end.

(** A pair [(blocks, blockDiff)] as the size normalizer hands it to the
    builder when at least one block is requested: coprime, the stride not
    above the block count, and the buffer size [blocks * BLOCKLEN]
    representable. *)
Definition normalized (g : globals) : Prop :=
  0 < blocks g /\ 0 <= blockDiff g <= blocks g /\
  blocks g * BLOCKLEN < 2 ^ 64 /\ gcd (blocks g) (blockDiff g) = 1.

(** Every offset the sequential traversal reaches holds an entry, and the
    link of that entry is the offset the traversal reaches next. *)
Definition linked {F : Type} (g : globals) (b : gmap Z (entry F)) : Prop :=
  forall j : nat,
    exists x, b !! seq_idx g j = Some (Entry x (Some (seq_idx g (S j)))).

Section Builder.
Context {F : Type} `{Payload F}.

(** [for (idx = 0; idx < idxMax; idx++) { buf[idx].v = idx; buf[idx].next = 0; }]
    over the freshly allocated buffer, with [n] entries left. *)
Fixpoint init_entries (n : nat) (idx : Z) (buf : gmap Z (entry F))
  : gmap Z (entry F) :=
  match n with
  | O => buf
  | S n' => init_entries n' (idx + 1) (<[idx := Entry (of_u64 idx) None]> buf)
  end.

(** The link-assignment loop, with [n] blocks left:
    [nextIdx = ...; assert(buf[idx].next == 0); buf[idx].next = buf + nextIdx;
     idx = nextIdx;] *)
Fixpoint link_blocks (g : globals) (n : nat) (idx : Z) (buf : gmap Z (entry F))
  : option (gmap Z (entry F)) :=
  match n with
  | O => Some buf
  | S n' =>
      let nextIdx := next_idx g idx in
      match buf !! idx with
      | None => None
      | Some e =>
          match next e with
          | Some _ => None
          | None => link_blocks g n' nextIdx (<[idx := Entry (v e) (Some nextIdx)]> buf)
          end
      end
  end.

(** The buffer as the initialisation loop leaves it. *)
Definition fresh_buffer (g : globals) : gmap Z (entry F) :=
  init_entries (Z.to_nat (idxMax g)) 0 ∅.

Definition init_memory_per_thread (g : globals) : option (gmap Z (entry F)) :=
  link_blocks g (Z.to_nat (blocks g)) 0 (fresh_buffer g).

(** State of the buffer when the link loop has handled [j0] blocks. *)
Definition linked_upto (g : globals) (j0 : nat) (b : gmap Z (entry F)) : Prop :=
  (forall j, (j < j0)%nat ->
     b !! seq_idx g j =
       Some (Entry (of_u64 (seq_idx g j)) (Some (seq_idx g (S j))))) /\
  (forall i, (forall j, (j < j0)%nat -> i <> seq_idx g j) ->
     b !! i = fresh_buffer g !! i).

(** Pointer reached from [buf + p] after [n] times [p = p->next];
    [None] when a link on the way is null or leaves the buffer. *)
Fixpoint chain_walk (buf : gmap Z (entry F)) (n : nat) (p : Z) : option Z :=
  match n with
  | O => Some p
  | S n' =>
      match buf !! p with
      | None => None
      | Some e =>
          match next e with
          | None => None
          | Some q => chain_walk buf n' q
          end
      end
  end.

(** Offsets dereferenced by [n] steps of the chain traversal
    [for (j = 0; j < max; j++) { ... p->v ...; p = p->next; }]. *)
Fixpoint chain_offsets (buf : gmap Z (entry F)) (n : nat) (p : option Z)
  : option (list Z) :=
  match n with
  | O => Some []
  | S n' =>
      match p with
      | None => None
      | Some i =>
          match buf !! i with
          | None => None
          | Some e =>
              match chain_offsets buf n' (next e) with
              | None => None
              | Some l => Some (i :: l)
              end
          end
      end
  end.

End Builder.

(* ================================================================== *)
(** * Benchmark executor: [runBench] *)

Section Bench.
Context {F : Type} `{Payload F}.

(** The part of the machine state [runBench] works on: the buffer, the
    local accumulator [lsum], the counter [*aCount], and, as a ghost
    component, the list of accumulations [lsum += buffer[i].v] made so
    far, each with the offset [i] and the value added. *)
Record bench := Bench {
  buf : gmap Z (entry F);
  lsum : F;
  aCount : Z;
  reads : list (Z * F)
}.

(** [lsum += x], where [x] was read at offset [i]. *)
Definition accum (i : Z) (x : F) (st : bench) : bench :=
  Bench (buf st) (fadd (lsum st) x) (aCount st) (reads st ++ [(i, x)]).

Definition store (i : Z) (e : entry F) (st : bench) : bench :=
  Bench (<[i := e]> (buf st)) (lsum st) (aCount st) (reads st).

Definition count (n : Z) (st : bench) : bench :=
  Bench (buf st) (lsum st) (wrap64 (aCount st + n)) (reads st).

(** case 0: [lsum += buffer[idx].v; idx += idxIncr; if (idx >= idxMax) idx -= idxMax;] *)
Fixpoint seq_read (g : globals) (n : nat) (idx : Z) (st : bench) : option bench :=
  match n with
  | O => Some st
  | S n' =>
      match buf st !! idx with
      | None => None
      | Some e => seq_read g n' (next_idx g idx) (accum idx (v e) st)
      end
  end.

(** case 1: [lsum += p->v; p = p->next;] *)
Fixpoint chain_read (n : nat) (p : option Z) (st : bench) : option bench :=
  match n with
  | O => Some st
  | S n' =>
      match p with
      | None => None
      | Some i =>
          match buf st !! i with
          | None => None
          | Some e => chain_read n' (next e) (accum i (v e) st)
          end
      end
  end.

(** case 2: [buffer[idx].v += 1.0; lsum += buffer[idx].v; idx += idxIncr; ...] *)
Fixpoint seq_write (g : globals) (n : nat) (idx : Z) (st : bench) : option bench :=
  match n with
  | O => Some st
  | S n' =>
      match buf st !! idx with
      | None => None
      | Some e =>
          let e1 := Entry (fadd (v e) f_one) (next e) in
          seq_write g n' (next_idx g idx) (accum idx (v e1) (store idx e1 st))
      end
  end.

(** case 3: [p->v += 1.0; lsum += p->v; p->v = v; p = p->next;] *)
Fixpoint chain_write (n : nat) (p : option Z) (st : bench) : option bench :=
  match n with
  | O => Some st
  | S n' =>
      match p with
      | None => None
      | Some i =>
          match buf st !! i with
          | None => None
          | Some e =>
              let e1 := Entry (fadd (v e) f_one) (next e) in
              let e2 := Entry f_const (next e) in
              chain_write n' (next e)
                (store i e2 (accum i (v e1) (store i e1 st)))
          end
      end
  end.

(** [switch (benchType)] with [max] steps; [default: assert(0)]. *)
Definition traverse (g : globals) (benchType max : Z) (st : bench) : option bench :=
  match benchType with
  | 0 => seq_read g (Z.to_nat max) 0 st
  | 1 => chain_read (Z.to_nat max) (Some 0) st
  | 2 => seq_write g (Z.to_nat max) 0 st
  | 3 => chain_write (Z.to_nat max) (Some 0) st
  | _ => None
  end.

(** [for (k = 0; k < distIter[d]; k++) { *aCount += distBlocks[d];
     max = distBlocks[d]; switch ... }] with [n] traversals left. *)
Fixpoint sweeps (g : globals) (benchType : Z) (n : nat) (d : Z) (st : bench)
  : option bench :=
  match n with
  | O => Some st
  | S n' =>
      match traverse g benchType (distBlocks g d) (count (distBlocks g d) st) with
      | None => None
      | Some st' => sweeps g benchType n' d st'
      end
  end.

(** [for (d = 0; d < distsUsed; d++) { lsum += buffer[0].v; for (k ...) ... }]
    with [n] distances left.  The counter [k] is an [int] compared with
    the [u64] [distIter[d]]: it overflows when [distIter[d] > INT_MAX]. *)
Fixpoint distances (g : globals) (benchType : Z) (n : nat) (d : Z) (st : bench)
  : option bench :=
  match n with
  | O => Some st
  | S n' =>
      match buf st !! 0 with
      | None => None
      | Some e =>
          if INT_MAX <? distIter g d then None
          else
            match sweeps g benchType (Z.to_nat (distIter g d)) d (accum 0 (v e) st) with
            | None => None
            | Some st' => distances g benchType n' (d + 1) st'
            end
      end
  end.

(** [for (size_t i = 0; i < iter; i++) { lsum += buffer[0].v; for (d ...) ... }]
    with [n] iterations left. *)
Fixpoint iterations (g : globals) (benchType : Z) (n : nat) (st : bench)
  : option bench :=
  match n with
  | O => Some st
  | S n' =>
      match buf st !! 0 with
      | None => None
      | Some e =>
          match distances g benchType (Z.to_nat (distsUsed g)) 0 (accum 0 (v e) st) with
          | None => None
          | Some st' => iterations g benchType n' st'
          end
      end
  end.

(** [runBench(buffer, iter, depChain, doWrite, sum, aCount)]: the result
    holds the buffer, [*sum] and [*aCount] as the call leaves them. *)
Definition runBench (g : globals) (buffer : gmap Z (entry F)) (iter : Z)
    (depChain doWrite : Z) (sum : F) (count0 : Z) : option bench :=
  let benchType := depChain + 2 * doWrite in
  iterations g benchType (Z.to_nat iter) (Bench buffer sum count0 []).

(** [calls] successive calls on the same buffer, each continuing with the
    sum and the counter of the previous one. *)
Fixpoint runBench_calls (g : globals) (calls : nat) (buffer : gmap Z (entry F))
    (iter depChain doWrite : Z) (sum : F) (count0 : Z) : option bench :=
  match calls with
  | O => Some (Bench buffer sum count0 [])
  | S c =>
      match runBench g buffer iter depChain doWrite sum count0 with
      | None => None
      | Some st =>
          runBench_calls g c (buf st) iter depChain doWrite (lsum st) (aCount st)
      end
  end.

(** A buffer the benchmark may be run on: the builder produced it, or a
    call of [runBench] on such a buffer left it. *)
Inductive initialized (g : globals) : gmap Z (entry F) -> Prop :=
| initialized_fresh b :
    init_memory_per_thread g = Some b -> initialized g b
| initialized_run b iter depChain doWrite sum count0 st :
    initialized g b ->
    runBench g b iter depChain doWrite sum count0 = Some st ->
    initialized g (buf st).


End Bench.

Arguments bench F : clear implicits.

(** [sum over d < distsUsed of distIter[d] * distBlocks[d]], for the [n]
    distances from [d] on. *)
Fixpoint accesses_from (g : globals) (n : nat) (d : Z) : Z :=
  match n with
  | O => 0
  | S n' => distIter g d * distBlocks g d + accesses_from g n' (d + 1)
  end.

Definition accesses_per_iteration (g : globals) : Z :=
  accesses_from g (Z.to_nat (distsUsed g)) 0.

(** Payload arithmetic over the integers, to run the definitions. *)
#[global] Instance int_payload : Payload Z :=
  {| fadd := Z.add; of_u64 := fun i => i; f_one := 1; f_const := 123 |}.

(** The registry of the spec's first scenario, distances 4096 and 1024. *)
Definition example_dists : globals :=
  set_dists (globals0 false) (upd (upd (fun _ => 0) 0 4096) 1 1024) 2.

(** The registry of the spec's second scenario: pseudo-random stride and
    a largest distance of 17 blocks. *)
Definition example_random : globals :=
  set_dists (globals0 true) (upd (fun _ => 0) 0 (17 * BLOCKLEN)) 1.

(** Both scenarios after [initBufs] (one thread, a maximum of 2), and the
    buffers built for them. *)
Definition example_sized : globals :=
  default example_dists (initBufs 2 1 example_dists).

Definition example_random_sized : globals :=
  default example_random (initBufs 2 1 example_random).

Definition example_buffer : gmap Z (entry Z) :=
  default ∅ (@init_memory_per_thread Z int_payload example_sized).

Definition example_random_buffer : gmap Z (entry Z) :=
  default ∅ (@init_memory_per_thread Z int_payload example_random_sized).

(** A registry with capacity 10 after [addDist(1024); addDist(4096)]. *)
Definition example_registry : globals :=
  default (globals0 false) (Registry.addDists 10 [1024; 4096] (globals0 false)).

(* ================================================================== *)
(** * Predicates used in the further results *)

(** Pairs for which the index arithmetic of the builder and of the
    executor does not wrap: at least one block, a stride not above the
    block count, and a buffer size that fits in 64 bits.  This is
    [normalized] without the coprimality. *)
Definition sized (g : globals) : Prop :=
  0 < blocks g /\ 0 <= blockDiff g <= blocks g /\ blocks g * BLOCKLEN < 2 ^ 64.

(** Two buffers with the same entries allocated and the same [next]
    pointers in them. *)
Definition same_links {F : Type} (b1 b2 : gmap Z (entry F)) : Prop :=
  forall i, option_map next (b1 !! i) = option_map next (b2 !! i).

(** Every entry at an offset in [T] holds [v = 1.23], the constant case 3
    of [runBench] stores. *)
Definition holds_const {F : Type} `{Payload F} (T : Z -> Prop)
    (b : gmap Z (entry F)) : Prop :=
  forall i, T i -> exists e, b !! i = Some e /\ v e = f_const.

(** The number of executions of [lsum += ...] a state has recorded. *)
Definition nreads {F : Type} (st : bench F) : Z := Z.of_nat (length (reads st)).

(* ================================================================== *)
(** * Binary64 payloads *)

(** An unsigned integer below 2^63 as a machine integer. *)
Module Int63.
Import PrimInt63.



End Int63.



(* ================================================================== *)
(** * The accesses of a run, as the spec lists them

    The definitions of this part follow the words of the spec (the
    algorithm of the benchmark executor), not the code; the results on
    the sum compare [runBench] with them. *)








Section Values.
Context {F : Type} `{Payload F}.




End Values.

(** A registry whose distances are [2^31] apart in ratio: 128 GiB and one
    block. *)
Definition example_wide : globals :=
  set_dists (globals0 false) (upd (upd (fun _ => 0) 0 (2 ^ 37)) 1 64) 2.

Definition example_wide_sized : globals :=
  default example_wide (initBufs 2 1 example_wide).



(* ================================================================== *)
(** * Facts about the size normalizer *)

Lemma gcd_rec_eq (a b : Z) :
  gcd a b = if b =? 0 then a else gcd b (a mod b).
Proof.
  rewrite gcd_equation_1.
  destruct (Z.eq_dec b 0) as [->|Hb]; simpl.
  - reflexivity.
  - destruct (Z.eqb_spec b 0); [contradiction | reflexivity].
Qed.

(** On unsigned arguments the recursive function computes the greatest
    common divisor. *)
Lemma gcd_Zgcd (a b : Z) : 0 <= a -> 0 <= b -> gcd a b = Z.gcd a b.
Proof.
  intros Ha Hb. revert a Ha.
  assert (Hind : forall n : nat, forall b a, 0 <= b -> Z.to_nat b = n -> 0 <= a -> gcd a b = Z.gcd a b).
  { induction n as [n IH] using lt_wf_ind. intros b0 a Hb0 Hn Ha.
    rewrite gcd_rec_eq.
    destruct (Z.eqb_spec b0 0) as [->|Hne].
    - rewrite Z.gcd_0_r. lia.
    - pose proof (Z.mod_pos_bound a b0 ltac:(lia)) as Hm.
      rewrite (IH (Z.to_nat (a mod b0)) ltac:(lia) (a mod b0) b0) by lia.
      rewrite Z.gcd_comm, Z.gcd_mod by lia. apply Z.gcd_comm. }
  intros a Ha. eapply Hind; eauto.
Qed.

Lemma gcd_one_l (d : Z) : 0 <= d -> gcd 1 d = 1.
Proof. intros. rewrite gcd_Zgcd by lia. apply Z.gcd_1_l. Qed.

Lemma gcd_nonneg (a b : Z) : 0 <= a -> 0 <= b -> 0 <= gcd a b.
Proof. intros. rewrite gcd_Zgcd by lia. apply Z.gcd_nonneg. Qed.

Lemma wrap64_small (x : Z) : 0 <= x < 2 ^ 64 -> wrap64 x = x.
Proof. intros. unfold wrap64. apply Z.mod_small. lia. Qed.

Lemma wrap64_range (x : Z) : 0 <= wrap64 x < 2 ^ 64.
Proof. unfold wrap64. apply Z.mod_pos_bound. lia. Qed.

(** More fuel does not change a result. *)
Lemma adjustSize_more_fuel (fuel extra : nat) (size diff r : Z) :
  adjustSize fuel size diff = Some r ->
  adjustSize (fuel + extra) size diff = Some r.
Proof.
  revert size. induction fuel as [|fuel IH]; intros size; simpl.
  - discriminate.
  - destruct (1 <? gcd size diff); auto.
Qed.

Lemma adjustSize_deterministic (f1 f2 : nat) (size diff r1 r2 : Z) :
  adjustSize f1 size diff = Some r1 ->
  adjustSize f2 size diff = Some r2 ->
  r1 = r2.
Proof.
  intros H1 H2.
  apply (adjustSize_more_fuel _ f2) in H1.
  apply (adjustSize_more_fuel _ f1) in H2.
  rewrite Nat.add_comm in H2. congruence.
Qed.

(** The loop stops at the first size from [size] on that is coprime with
    [diff], provided there is one, [c], below [2^64]. *)
Lemma adjustSize_reaches (diff : Z) (n : nat) :
  0 < diff ->
  forall size c,
    0 <= size -> size <= c -> c < 2 ^ 64 ->
    Z.to_nat (c - size) = n ->
    Z.gcd c diff = 1 ->
    exists r, adjustSize (S n) size diff = Some r /\
              size <= r <= c /\ Z.gcd r diff = 1.
Proof.
  intros Hd. induction n as [|n IH]; intros size c Hs Hc Hlt Hn Hg.
  - assert (c = size) by lia. subst c.
    exists size. simpl. rewrite gcd_Zgcd, Hg by lia. simpl. repeat split; lia.
  - cbn [adjustSize]. 
    destruct (Z.ltb_spec 1 (gcd size diff)) as [Hgt|Hle].
    + rewrite wrap64_small by lia.
      destruct (IH (size + 1) c) as (r & Hr & Hb & Hg'); try lia.
      exists r. split; [exact Hr|]. split; [lia | exact Hg'].
    + exists size. split; [reflexivity|]. split; [lia|].
      rewrite gcd_Zgcd in Hle by lia.
      pose proof (Z.gcd_nonneg size diff).
      assert (Z.gcd size diff <> 0).
      { intros E. apply Z.gcd_eq_0_r in E. lia. }
      lia.
Qed.

(** Some size in [size, size + diff) is coprime with [diff]. *)
Lemma coprime_candidate (size diff : Z) :
  0 < diff ->
  let c := size + (1 - size) mod diff in
  size <= c < size + diff /\ Z.gcd c diff = 1.
Proof.
  intros Hd c. subst c.
  pose proof (Z.mod_pos_bound (1 - size) diff Hd).
  split; [lia|].
  rewrite Z.gcd_comm, <- Z.gcd_mod by lia.
  rewrite Zplus_mod_idemp_r.
  replace (size + (1 - size)) with 1 by lia.
  rewrite Z.gcd_mod by lia. apply Z.gcd_1_r.
Qed.

Lemma adjustSize_positive_stride (size diff : Z) :
  0 <= size -> 1 <= diff -> size + diff <= 2 ^ 64 ->
  exists fuel r, adjustSize fuel size diff = Some r /\
                 size <= r < size + diff /\ gcd r diff = 1.
Proof.
  intros Hs Hd Hsum.
  destruct (coprime_candidate size diff) as [Hc Hg]; [lia|].
  set (c := size + (1 - size) mod diff) in *.
  destruct (adjustSize_reaches diff (Z.to_nat (c - size)) ltac:(lia) size c)
    as (r & Hr & Hb & Hg'); try lia.
  exists (S (Z.to_nat (c - size))), r.
  split; [exact Hr|]. split; [lia|].
  rewrite gcd_Zgcd by lia. exact Hg'.
Qed.

(** The loop is left after at most [2^64] tests, whatever the arguments:
    [size] reaches 1, at the latest after wrapping around. *)
Lemma adjustSize_terminates (size diff : Z) :
  0 <= size < 2 ^ 64 -> 0 <= diff ->
  exists fuel r, adjustSize fuel size diff = Some r.
Proof.
  intros Hs Hd.
  remember (Z.to_nat ((1 - size) mod 2 ^ 64)) as n eqn:Hn.
  revert size Hs Hn. induction n as [|n IH]; intros size Hs Hn.
  - exists 1%nat, size. simpl.
    assert (size = 1).
    { pose proof (Z.mod_pos_bound (1 - size) (2 ^ 64) ltac:(lia)).
      assert (E : (1 - size) mod 2 ^ 64 = 0) by lia.
      apply Z.mod_divide in E; [|lia]. destruct E as [k Hk]. lia. }
    subst. rewrite gcd_one_l by lia. reflexivity.
  - destruct (Z.ltb_spec 1 (gcd size diff)) as [Hgt|Hle].
    + destruct (IH (wrap64 (size + 1))) as (fuel & r & Hr).
      * apply wrap64_range.
      * unfold wrap64.
        assert (E : (1 - (size + 1) mod 2 ^ 64) mod 2 ^ 64 = (1 - size) mod 2 ^ 64 - 1).
        { rewrite Zminus_mod_idemp_r.
          replace (1 - (size + 1)) with ((1 - size) - 1) by lia.
          pose proof (Z.mod_pos_bound (1 - size) (2 ^ 64) ltac:(lia)).
          rewrite <- (Zminus_mod_idemp_l (1 - size)).
          apply Z.mod_small. lia. }
        lia.
      * exists (S fuel), r. simpl.
        destruct (Z.ltb_spec 1 (gcd size diff)); [exact Hr | lia].
    + exists 1%nat, size. simpl.
      destruct (Z.ltb_spec 1 (gcd size diff)); [lia | reflexivity].
Qed.

(* ================================================================== *)
(** * Facts about the distance registry *)

Import Registry.

Lemma upd_same (a : Z -> Z) (i x : Z) : upd a i x i = x.
Proof. unfold upd. rewrite Z.eqb_refl. reflexivity. Qed.

Lemma upd_other (a : Z -> Z) (i j x : Z) : j <> i -> upd a i x j = a j.
Proof. unfold upd. intros. destruct (Z.eqb_spec j i); [contradiction | reflexivity]. Qed.

(** What the search loop establishes. *)
Lemma search_spec (size : Z) (a : Z -> Z) (n : nat) :
  forall d r tr,
    search n d size a = (r, tr) ->
    match r with
    | Present =>
        exists i, d <= i < d + Z.of_nat n /\ a i = size
    | At p =>
        d <= p <= d + Z.of_nat n /\
        (forall j, d <= j < p -> size < a j) /\
        (p < d + Z.of_nat n -> a p < size)
    end.
Proof.
  induction n as [|n IH]; intros d r tr Hs; cbn [search] in Hs.
  - inversion Hs; subst. repeat split; lia.
  - destruct (Z.eqb_spec (a d) size) as [He|Hne].
    + inversion Hs; subst. exists d. lia.
    + destruct (Z.ltb_spec (a d) size) as [Hlt|Hge].
      * inversion Hs; subst. repeat split; try lia.
      * destruct (search n (d + 1) size a) as [r' tr'] eqn:Hrec.
        inversion Hs; subst. specialize (IH _ _ _ Hrec).
        destruct r as [|p].
        -- destruct IH as (i & Hi & Hai). exists i. lia.
        -- destruct IH as (Hp & Hall & Hnext).
           split; [lia|]. split.
           ++ intros j Hj. destruct (Z.eq_dec j d) as [->|]; [lia|]. apply Hall. lia.
           ++ intros. apply Hnext. lia.
Qed.

(** The search loop reads only registered cells. *)
Lemma search_trace (size : Z) (a : Z -> Z) (n : nat) :
  forall d r tr,
    search n d size a = (r, tr) ->
    Forall (fun e => d <= index_of e < d + Z.of_nat n) tr.
Proof.
  induction n as [|n IH]; intros d r tr Hs; cbn [search] in Hs.
  - inversion Hs; subst. constructor.
  - destruct (a d =? size).
    + inversion Hs; subst. repeat constructor; simpl; lia.
    + destruct (a d <? size).
      * inversion Hs; subst. repeat constructor; simpl; lia.
      * destruct (search n (d + 1) size a) as [r' tr'] eqn:Hrec.
        inversion Hs; subst. specialize (IH _ _ _ Hrec).
        constructor; [simpl; lia|]. constructor; [simpl; lia|].
        eapply Forall_impl; [exact IH|]. simpl. intros; lia.
Qed.

(** The shifting loop moves the cells [dd - n .. dd - 1] one place up. *)
Lemma shift_spec (n : nat) :
  forall dd a a' tr,
    shift n dd a = (a', tr) ->
    forall i, a' i = if (dd - Z.of_nat n <? i) && (i <=? dd) then a (i - 1) else a i.
Proof.
  induction n as [|n IH]; intros dd a a' tr Hs i; cbn [shift] in Hs.
  - inversion Hs; subst.
    destruct (Z.ltb_spec (dd - Z.of_nat 0) i), (Z.leb_spec i dd); simpl; try reflexivity; lia.
  - destruct (shift n (dd - 1) (upd a dd (a (dd - 1)))) as [a1 tr1] eqn:Hrec.
    inversion Hs; subst. rewrite (IH _ _ _ _ Hrec i).
    destruct (Z.ltb_spec (dd - 1 - Z.of_nat n) i), (Z.leb_spec i (dd - 1)),
             (Z.ltb_spec (dd - Z.of_nat (S n)) i), (Z.leb_spec i dd);
      simpl; try lia.
    + apply upd_other. lia.
    + assert (i = dd) by lia. subst. apply upd_same.
    + apply upd_other. lia.
    + apply upd_other. lia.
Qed.

(** It reads the cells [dd - n .. dd - 1] and writes [dd - n + 1 .. dd]. *)
Lemma shift_trace (n : nat) :
  forall dd a a' tr,
    shift n dd a = (a', tr) ->
    Forall (fun e => match e with
                     | Rd i => dd - Z.of_nat n <= i < dd
                     | Wr i => dd - Z.of_nat n < i <= dd
                     end) tr.
Proof.
  induction n as [|n IH]; intros dd a a' tr Hs; cbn [shift] in Hs.
  - inversion Hs; subst. constructor.
  - destruct (shift n (dd - 1) (upd a dd (a (dd - 1)))) as [a1 tr1] eqn:Hrec.
    inversion Hs; subst. specialize (IH _ _ _ _ Hrec).
    constructor; [lia|]. constructor; [lia|].
    eapply Forall_impl; [exact IH|]. intros [i|i]; lia.
Qed.


(** The two outcomes of a registration. *)
Lemma addDist_cases (M size : Z) (g g' : globals) (tr : list access) :
  0 <= distsUsed g ->
  addDist M size g = Some (g', tr) ->
  (g' = g /\ exists i, 0 <= i < distsUsed g /\ distSize g i = size) \/
  (distsUsed g < M /\ distsUsed g' = distsUsed g + 1 /\
   exists d, 0 <= d <= distsUsed g /\
     (forall j, 0 <= j < d -> size < distSize g j) /\
     (d < distsUsed g -> distSize g d < size) /\
     forall i, distSize g' i =
               if i =? d then size
               else if (d <? i) && (i <=? distsUsed g) then distSize g (i - 1)
               else distSize g i).
Proof.
  intros Hn Ha. unfold addDist in Ha.
  destruct (search (Z.to_nat (distsUsed g)) 0 size (distSize g)) as [r tr1] eqn:Hs.
  pose proof (search_spec _ _ _ _ _ _ Hs) as Hspec.
  rewrite Z2Nat.id in Hspec by lia.
  destruct r as [|d].
  - inversion Ha; subst. left. split; [reflexivity|].
    destruct Hspec as (i & Hi & Hai). exists i. split; [lia | exact Hai].
  - destruct (Z.ltb_spec (distsUsed g) M) as [Hcap|]; [|discriminate].
    destruct (shift (Z.to_nat (distsUsed g - d + 1)) (distsUsed g) (distSize g))
      as [a tr2] eqn:Hsh.
    inversion Ha; subst. right.
    destruct Hspec as (Hd & Hall & Hnext).
    split; [exact Hcap|]. split; [reflexivity|].
    exists d. split; [lia|]. split; [intros; apply Hall; lia|].
    split; [intros; apply Hnext; lia|].
    intros i. cbn [set_dists distSize]. unfold upd at 1.
    destruct (Z.eqb_spec i d); [reflexivity|].
    rewrite (shift_spec _ _ _ _ _ Hsh i).
    rewrite Z2Nat.id by lia.
    replace (distsUsed g - (distsUsed g - d + 1)) with (d - 1) by lia.
    destruct (Z.ltb_spec (d - 1) i), (Z.ltb_spec d i); try lia; reflexivity.
Qed.

Lemma addDist_keeps_order (M size : Z) (g g' : globals) (tr : list access) :
  registry_ok g ->
  addDist M size g = Some (g', tr) ->
  registry_ok g'.
Proof.
  intros [Hn Hsorted] Ha.
  destruct (addDist_cases _ _ _ _ _ Hn Ha)
    as [[-> _] | (Hcap & Hused & d & Hd & Hbefore & Hat & Hnew)].
  - split; assumption.
  - split; [lia|].
    assert (Hafter : forall j, d <= j < distsUsed g -> distSize g j < size).
    { intros j Hj. destruct (Z.eq_dec j d) as [->|]; [apply Hat; lia|].
      specialize (Hsorted d j ltac:(lia) ltac:(lia) ltac:(lia)).
      specialize (Hat ltac:(lia)). lia. }
    intros i j Hi Hij Hj. rewrite Hused in Hj. rewrite !Hnew.
    destruct (Z.eqb_spec j d), (Z.eqb_spec i d); subst; try lia.
    + destruct (Z.ltb_spec d i); simpl; [lia|]. apply Hbefore. lia.
    + destruct (Z.ltb_spec d j), (Z.leb_spec j (distsUsed g)); simpl; try lia.
      apply Hafter. lia.
    + destruct (Z.ltb_spec d j), (Z.leb_spec j (distsUsed g)),
               (Z.ltb_spec d i), (Z.leb_spec i (distsUsed g)); simpl; try lia;
        apply Hsorted; lia.
Qed.

Lemma addDists_keeps_order (M : Z) (sizes : list Z) :
  forall g g', registry_ok g -> addDists M sizes g = Some g' -> registry_ok g'.
Proof.
  induction sizes as [|s rest IH]; intros g g' Hok Hrun; cbn [addDists] in Hrun.
  - inversion Hrun; subst. exact Hok.
  - destruct (addDist M s g) as [[g1 tr]|] eqn:Ha; [|discriminate].
    eapply IH; [|exact Hrun]. eapply addDist_keeps_order; eassumption.
Qed.

Lemma empty_registry_ok (g : globals) : distsUsed g = 0 -> registry_ok g.
Proof. intros E. split; [lia|]. intros i j. rewrite E. lia. Qed.

(** In an ordered registry the search loop finds a registered value. *)
Lemma addDist_registered (M size : Z) (g : globals) :
  registry_ok g ->
  (exists i, 0 <= i < distsUsed g /\ distSize g i = size) ->
  exists tr, addDist M size g = Some (g, tr).
Proof.
  intros [Hn Hsorted] (i & Hi & Hai). unfold addDist.
  destruct (search (Z.to_nat (distsUsed g)) 0 size (distSize g)) as [r tr1] eqn:Hs.
  pose proof (search_spec _ _ _ _ _ _ Hs) as Hspec.
  rewrite Z2Nat.id in Hspec by lia.
  destruct r as [|d].
  - exists tr1. reflexivity.
  - exfalso. destruct Hspec as (Hd & Hall & Hnext).
    destruct (Z_lt_le_dec i d) as [Hlt|Hge].
    + specialize (Hall i ltac:(lia)). lia.
    + specialize (Hnext ltac:(lia)).
      destruct (Z.eq_dec i d) as [->|]; [lia|].
      specialize (Hsorted d i ltac:(lia) ltac:(lia) ltac:(lia)). lia.
Qed.

(** On an empty registry the shifting loop runs once, with [dd = 0]. *)
Lemma addDist_empty (M size : Z) (g : globals) :
  0 < M -> distsUsed g = 0 ->
  addDist M size g =
    Some (set_dists g (upd (upd (distSize g) 0 (distSize g (-1))) 0 size) 1,
          [Rd (-1); Wr 0; Wr 0]).
Proof.
  intros HM E. unfold addDist. rewrite E. cbn.
  destruct (Z.ltb_spec 0 M); [reflexivity | lia].
Qed.

(** Every access of a registration lies in [-1, MAXDISTCOUNT); the writes
    lie in [0, MAXDISTCOUNT). *)
Lemma addDist_trace (M size : Z) (g g' : globals) (tr : list access) :
  0 <= distsUsed g <= M ->
  addDist M size g = Some (g', tr) ->
  Forall (fun e => match e with
                   | Rd i => -1 <= i < M
                   | Wr i => 0 <= i < M
                   end) tr.
Proof.
  intros Hn Ha. unfold addDist in Ha.
  destruct (search (Z.to_nat (distsUsed g)) 0 size (distSize g)) as [r tr1] eqn:Hs.
  pose proof (search_spec _ _ _ _ _ _ Hs) as Hspec.
  pose proof (search_trace _ _ _ _ _ _ Hs) as Htr1.
  rewrite Z2Nat.id in Hspec, Htr1 by lia.
  assert (Hsearch : Forall (fun e => match e with
                   | Rd i => -1 <= i < M
                   | Wr i => 0 <= i < M
                   end) tr1).
  { eapply Forall_impl; [exact Htr1|]. intros [i|i]; simpl; lia. }
  destruct r as [|d].
  - inversion Ha; subst. exact Hsearch.
  - destruct (Z.ltb_spec (distsUsed g) M) as [Hcap|]; [|discriminate].
    destruct (shift (Z.to_nat (distsUsed g - d + 1)) (distsUsed g) (distSize g))
      as [a tr2] eqn:Hsh.
    pose proof (shift_trace _ _ _ _ _ Hsh) as Htr2.
    rewrite Z2Nat.id in Htr2 by lia.
    inversion Ha; subst.
    apply Forall_app. split; [exact Hsearch|].
    apply Forall_app. split.
    + eapply Forall_impl; [exact Htr2|]. intros [i|i]; lia.
    + repeat constructor; lia.
Qed.

(** The last iteration of the shifting loop reads the cell below the
    lowest one it writes. *)
Lemma shift_last_read (n : nat) :
  forall dd a a' tr,
    shift (S n) dd a = (a', tr) -> In (Rd (dd - Z.of_nat (S n))) tr.
Proof.
  induction n as [|n IH]; intros dd a a' tr Hs.
  - cbn in Hs. inversion Hs; subst. left; f_equal; lia.
  - change (shift (S (S n)) dd a)
      with (let (a1, tr1) := shift (S n) (dd - 1) (upd a dd (a (dd - 1))) in
            (a1, Rd (dd - 1) :: Wr dd :: tr1)) in Hs.
    destruct (shift (S n) (dd - 1) (upd a dd (a (dd - 1)))) as [a1 tr1] eqn:Hrec.
    inversion Hs; subst. right. right.
    replace (dd - Z.of_nat (S (S n))) with (dd - 1 - Z.of_nat (S n)) by lia.
    eapply IH. exact Hrec.
Qed.

(* ================================================================== *)
(** * Index arithmetic of a normalized pair *)

Section Indices.
Variable g : globals.
Hypothesis Hnorm : normalized g.

Lemma norm_coprime : Z.gcd (blocks g) (blockDiff g) = 1.
Proof. destruct Hnorm as (? & ? & ? & Hg). rewrite gcd_Zgcd in Hg by lia. exact Hg. Qed.

Lemma idxMax_eq : idxMax g = 4 * blocks g.
Proof.
  destruct Hnorm as (? & ? & Hov & _). unfold idxMax, sizeof_entry.
  unfold BLOCKLEN in *. rewrite wrap64_small by lia.
  replace (blocks g * 64) with (4 * blocks g * 16) by lia.
  apply Z.div_mul. lia.
Qed.

Lemma idxIncr_eq : idxIncr g = 4 * blockDiff g.
Proof.
  destruct Hnorm as (? & ? & Hov & _). unfold idxIncr, sizeof_entry.
  unfold BLOCKLEN in *. rewrite wrap64_small by lia.
  replace (blockDiff g * 64) with (4 * blockDiff g * 16) by lia.
  apply Z.div_mul. lia.
Qed.

Lemma next_idx_eq (idx : Z) :
  0 <= idx < idxMax g ->
  next_idx g idx = (idx + idxIncr g) mod idxMax g.
Proof.
  intros Hi. unfold next_idx.
  pose proof idxMax_eq as HM. pose proof idxIncr_eq as HI.
  destruct Hnorm as (? & ? & Hov & _). unfold BLOCKLEN in Hov.
  rewrite (wrap64_small (idx + idxIncr g)) by lia.
  destruct (Z.leb_spec (idxMax g) (idx + idxIncr g)).
  - rewrite wrap64_small by lia.
    apply Z.mod_unique_pos with (q := 1); lia.
  - symmetry. apply Z.mod_small. lia.
Qed.

Lemma seq_idx_eq (j : nat) :
  seq_idx g j = (idxIncr g * Z.of_nat j) mod idxMax g.
Proof.
  pose proof idxMax_eq as HM. destruct Hnorm as (? & _).
  induction j as [|j IH].
  - simpl. rewrite Z.mul_0_r. symmetry. apply Z.mod_0_l. lia.
  - cbn [seq_idx]. rewrite next_idx_eq.
    + rewrite IH, Zplus_mod_idemp_l. f_equal. lia.
    + rewrite IH. apply Z.mod_pos_bound. lia.
Qed.

Lemma seq_idx_range (j : nat) : 0 <= seq_idx g j < idxMax g.
Proof.
  pose proof idxMax_eq. destruct Hnorm as (? & _).
  rewrite seq_idx_eq. apply Z.mod_pos_bound. lia.
Qed.

Lemma seq_idx_block (j : nat) :
  seq_idx g j = block_start ((blockDiff g * Z.of_nat j) mod blocks g).
Proof.
  destruct Hnorm as (? & _).
  rewrite seq_idx_eq, idxMax_eq, idxIncr_eq. unfold block_start.
  change (BLOCKLEN / sizeof_entry) with 4.
  rewrite <- Z.mul_assoc, Z.mul_mod_distr_l by lia. lia.
Qed.

Lemma seq_idx_inj (i j : nat) :
  Z.of_nat i < blocks g -> Z.of_nat j < blocks g ->
  seq_idx g i = seq_idx g j -> i = j.
Proof.
  intros Hi Hj E. rewrite !seq_idx_block in E. unfold block_start in E.
  change (BLOCKLEN / sizeof_entry) with 4 in E.
  destruct Hnorm as (HB & _).
  assert (Em : (blockDiff g * Z.of_nat i) mod blocks g
               = (blockDiff g * Z.of_nat j) mod blocks g) by lia.
  assert (Hdiv : (blocks g | blockDiff g * (Z.of_nat i - Z.of_nat j))).
  { apply Z.mod_divide; [lia|].
    rewrite Z.mul_sub_distr_l, Zminus_mod, Em, Z.sub_diag. apply Z.mod_0_l. lia. }
  apply Z.gauss in Hdiv; [|exact norm_coprime].
  destruct Hdiv as [k Hk].
  assert (k = 0) by nia. subst k. lia.
Qed.

Lemma seq_idx_period (j : nat) :
  seq_idx g (j + Z.to_nat (blocks g)) = seq_idx g j.
Proof.
  destruct Hnorm as (HB & _).
  rewrite !seq_idx_eq, idxMax_eq, idxIncr_eq.
  rewrite Nat2Z.inj_add, Z2Nat.id by lia.
  replace (4 * blockDiff g * (Z.of_nat j + blocks g))
    with (4 * blockDiff g * Z.of_nat j + blockDiff g * (4 * blocks g)) by lia.
  apply Z.mod_add. lia.
Qed.

Lemma seq_idx_mod (j : nat) :
  seq_idx g j = seq_idx g (j mod Z.to_nat (blocks g)).
Proof.
  destruct Hnorm as (HB & _).
  set (n := Z.to_nat (blocks g)).
  assert (Hn : n <> 0%nat) by lia.
  rewrite (Nat.div_mod_eq j n) at 1.
  generalize (j / n)%nat as q. generalize (j mod n)%nat as r.
  intros r q. induction q as [|q IH].
  - f_equal. lia.
  - rewrite <- IH.
    replace (n * Datatypes.S q + r)%nat with ((n * q + r) + n)%nat by lia.
    apply seq_idx_period.
Qed.

Lemma seq_idx_onto (k : Z) :
  0 <= k < blocks g ->
  exists j : nat, Z.of_nat j < blocks g /\ seq_idx g j = block_start k.
Proof.
  intros Hk. destruct Hnorm as (HB & _).
  destruct (Z.gcd_bezout (blocks g) (blockDiff g) 1 norm_coprime) as (u & w & Hb).
  pose proof (Z.mod_pos_bound (w * k) (blocks g) HB) as Hr.
  exists (Z.to_nat ((w * k) mod blocks g)). split; [lia|].
  rewrite seq_idx_block, Z2Nat.id by lia. f_equal.
  rewrite Zmult_mod_idemp_r.
  replace (blockDiff g * (w * k)) with (k + (- u * k) * blocks g) by nia.
  rewrite Z.mod_add by lia. apply Z.mod_small. lia.
Qed.

End Indices.

(* ================================================================== *)
(** * The dependency-chain builder *)

Section BuilderFacts.
Context {F : Type} `{Payload F}.

Lemma init_entries_lookup (n : nat) :
  forall idx (b : gmap Z (entry F)) i,
    init_entries n idx b !! i =
      if (idx <=? i) && (i <? idx + Z.of_nat n)
      then Some (Entry (of_u64 i) None) else b !! i.
Proof.
  induction n as [|n IH]; intros idx b i; cbn [init_entries].
  - destruct (Z.leb_spec idx i), (Z.ltb_spec i (idx + Z.of_nat 0));
      cbn [andb]; auto; lia.
  - rewrite IH, Nat2Z.inj_succ, lookup_insert.
    destruct (decide (idx = i)) as [E|Hne],
             (Z.leb_spec (idx + 1) i), (Z.ltb_spec i (idx + 1 + Z.of_nat n)),
             (Z.leb_spec idx i), (Z.ltb_spec i (idx + Z.succ (Z.of_nat n)));
      cbn [andb]; try lia; congruence.
Qed.

Variable g : globals.
Hypothesis Hnorm : normalized g.

Lemma fresh_buffer_lookup (i : Z) :
  0 <= i < idxMax g -> fresh_buffer g !! i = Some (Entry (of_u64 i) None).
Proof.
  intros Hi. unfold fresh_buffer. rewrite init_entries_lookup.
  rewrite Z2Nat.id by lia.
  destruct (Z.leb_spec 0 i), (Z.ltb_spec i (0 + idxMax g)); cbn [andb]; auto; lia.
Qed.

Lemma link_blocks_inv (n : nat) :
  forall j0 b,
    (j0 + n <= Z.to_nat (blocks g))%nat ->
    linked_upto g j0 b ->
    exists b', link_blocks g n (seq_idx g j0) b = Some b' /\
               linked_upto g (j0 + n) b'.
Proof.
  induction n as [|n IH]; intros j0 b Hle [Hdone Hrest].
  - exists b. rewrite Nat.add_0_r. split; [reflexivity | split; assumption].
  - cbn [link_blocks].
    assert (Hfresh : b !! seq_idx g j0
                     = Some (Entry (of_u64 (seq_idx g j0)) None)).
    { rewrite Hrest.
      - apply fresh_buffer_lookup, seq_idx_range, Hnorm.
      - intros j Hj E. apply (seq_idx_inj g Hnorm) in E; lia. }
    rewrite Hfresh. cbn [next v].
    destruct (IH (S j0)
                (<[seq_idx g j0 :=
                     Entry (of_u64 (seq_idx g j0)) (Some (next_idx g (seq_idx g j0)))]> b))
      as (b' & Hrun & Hinv).
    + lia.
    + split.
      * intros j Hj. destruct (Nat.eq_dec j j0) as [->|Hne].
        -- apply lookup_insert_eq.
        -- rewrite lookup_insert_ne.
           ++ apply Hdone. lia.
           ++ intros E. apply (seq_idx_inj g Hnorm) in E; lia.
      * intros i Hi. rewrite lookup_insert_ne.
        -- apply Hrest. intros j Hj. apply Hi. lia.
        -- intros E. apply (Hi j0); [lia | congruence].
    + exists b'. split; [exact Hrun|].
      replace (j0 + S n)%nat with (S j0 + n)%nat by lia. exact Hinv.
Qed.

Lemma init_memory_succeeds :
  exists b : gmap Z (entry F),
    init_memory_per_thread g = Some b /\
    linked_upto g (Z.to_nat (blocks g)) b.
Proof.
  unfold init_memory_per_thread.
  destruct (link_blocks_inv (Z.to_nat (blocks g)) 0 (fresh_buffer g)) as (b & Hb & Hinv).
  - lia.
  - split; [intros j Hj; lia | reflexivity].
  - exists b. split; [exact Hb | exact Hinv].
Qed.

Variable b : gmap Z (entry F).
Hypothesis Hbuilt : init_memory_per_thread g = Some b.

Lemma built_upto : linked_upto g (Z.to_nat (blocks g)) b.
Proof.
  destruct init_memory_succeeds as (b' & Hb' & Hinv).
  rewrite Hbuilt in Hb'. inversion Hb'; subst. exact Hinv.
Qed.

Lemma built_linked : linked g b.
Proof.
  destruct built_upto as [Hdone _].
  destruct Hnorm as (HB & _).
  intros j.
  exists (of_u64 (seq_idx g j)).
  cbn [seq_idx]. rewrite (seq_idx_mod g Hnorm j).
  apply (Hdone (j mod Z.to_nat (blocks g))%nat).
  apply Nat.mod_upper_bound. lia.
Qed.

(** Every block start carries one link, to a block start. *)
Lemma built_block_links (k : Z) :
  0 <= k < blocks g ->
  exists k', 0 <= k' < blocks g /\
    b !! block_start k =
      Some (Entry (of_u64 (block_start k)) (Some (block_start k'))).
Proof.
  intros Hk. destruct built_upto as [Hdone _].
  destruct Hnorm as (HB & _).
  destruct (seq_idx_onto g Hnorm k Hk) as (j & Hj & Ej).
  exists ((blockDiff g * Z.of_nat (S j)) mod blocks g). split.
  - apply Z.mod_pos_bound. lia.
  - rewrite <- (seq_idx_block g Hnorm (S j)), <- Ej. apply Hdone. lia.
Qed.

Lemma seq_idx_among (i : Z) (n : nat) :
  (exists j, (j < n)%nat /\ i = seq_idx g j) \/
  (forall j, (j < n)%nat -> i <> seq_idx g j).
Proof.
  induction n as [|n [(j & Hj & E) | Hno]].
  - right. intros j Hj. lia.
  - left. exists j. split; [lia | exact E].
  - destruct (Z.eq_dec i (seq_idx g n)) as [E|Hne].
    + left. exists n. split; [lia | exact E].
    + right. intros j Hj. destruct (Nat.eq_dec j n) as [->|]; [exact Hne|].
      apply Hno. lia.
Qed.

(** No other entry carries a link. *)
Lemma built_only_block_links (i : Z) (e : entry F) :
  b !! i = Some e -> next e <> None ->
  exists k, 0 <= k < blocks g /\ i = block_start k.
Proof.
  intros Hi Hlink. destruct built_upto as [_ Hrest].
  destruct Hnorm as (HB & _).
  destruct (seq_idx_among i (Z.to_nat (blocks g))) as [(j & Hj & E) | Hno].
  - exists ((blockDiff g * Z.of_nat j) mod blocks g). split.
    + apply Z.mod_pos_bound. lia.
    + rewrite E. apply (seq_idx_block g Hnorm).
  - exfalso. rewrite (Hrest i Hno) in Hi. unfold fresh_buffer in Hi.
    rewrite init_entries_lookup in Hi.
    destruct ((0 <=? i) && (i <? 0 + Z.of_nat (Z.to_nat (idxMax g)))).
    + inversion Hi; subst. apply Hlink. reflexivity.
    + rewrite lookup_empty in Hi. discriminate.
Qed.

End BuilderFacts.

(* ================================================================== *)
(** * Traversals of a linked buffer *)

Section Walks.
Context {F : Type}.
Variable g : globals.
Variable b : gmap Z (entry F).
Hypothesis Hlinked : linked g b.

Lemma seq_offsets_length (n : nat) :
  forall idx, length (seq_offsets g n idx) = n.
Proof.
  induction n as [|n IH]; intros idx; cbn [seq_offsets length]; [reflexivity|].
  rewrite IH. reflexivity.
Qed.

Lemma seq_offsets_map (n : nat) :
  forall j, seq_offsets g n (seq_idx g j) = map (seq_idx g) (seq j n).
Proof.
  induction n as [|n IH]; intros j; [reflexivity|].
  cbn [seq_offsets seq map]. f_equal. apply (IH (S j)).
Qed.

Lemma chain_offsets_linked (n : nat) :
  forall j, chain_offsets b n (Some (seq_idx g j))
            = Some (seq_offsets g n (seq_idx g j)).
Proof.
  induction n as [|n IH]; intros j; [reflexivity|].
  cbn [chain_offsets seq_offsets].
  destruct (Hlinked j) as [x Hx]. rewrite Hx. cbn [next].
  rewrite (IH (S j)). reflexivity.
Qed.

Lemma chain_walk_linked (n : nat) :
  forall j, chain_walk b n (seq_idx g j) = Some (seq_idx g (j + n)).
Proof.
  induction n as [|n IH]; intros j.
  - rewrite Nat.add_0_r. reflexivity.
  - cbn [chain_walk]. destruct (Hlinked j) as [x Hx]. rewrite Hx. cbn [next].
    rewrite (IH (S j)). f_equal. f_equal. lia.
Qed.

End Walks.

(* ================================================================== *)
(** * The benchmark executor *)

Section BenchFacts.
Context {F : Type} `{Payload F}.
Variable g : globals.

(** Only the four bench types get past the [switch]. *)
Lemma traverse_defined (benchType max : Z) (st st' : bench F) :
  traverse g benchType max st = Some st' ->
  benchType = 0 \/ benchType = 1 \/ benchType = 2 \/ benchType = 3.
Proof.
  unfold traverse. intros Hrun.
  destruct benchType as [|p|p]; [lia | | discriminate].
  destruct p as [[p|p|]|[p|p|]|]; try discriminate; lia.
Qed.

(** ** Properties kept by every step *)

Section Preservation.
Variable P : bench F -> Prop.
Hypothesis P_accum : forall i x st, P st -> P (accum i x st).
Hypothesis P_count : forall n st, P st -> P (count n st).

Lemma seq_read_keeps (n : nat) :
  forall idx st st', seq_read g n idx st = Some st' -> P st -> P st'.
Proof.
  induction n as [|n IH]; intros idx st st' Hrun HP; cbn [seq_read] in Hrun.
  - inversion Hrun; subst. exact HP.
  - destruct (buf st !! idx) as [e|]; [|discriminate].
    eapply IH; [exact Hrun|]. apply P_accum, HP.
Qed.

Lemma chain_read_keeps (n : nat) :
  forall p st st', chain_read n p st = Some st' -> P st -> P st'.
Proof.
  induction n as [|n IH]; intros p st st' Hrun HP; cbn [chain_read] in Hrun.
  - inversion Hrun; subst. exact HP.
  - destruct p as [i|]; [|discriminate].
    destruct (buf st !! i) as [e|]; [|discriminate].
    eapply IH; [exact Hrun|]. apply P_accum, HP.
Qed.

Section Stores.
Hypothesis P_store : forall i e st, P st -> P (store i e st).

Lemma seq_write_keeps (n : nat) :
  forall idx st st', seq_write g n idx st = Some st' -> P st -> P st'.
Proof.
  induction n as [|n IH]; intros idx st st' Hrun HP; cbn [seq_write] in Hrun.
  - inversion Hrun; subst. exact HP.
  - destruct (buf st !! idx) as [e|]; [|discriminate].
    eapply IH; [exact Hrun|]. apply P_accum, P_store, HP.
Qed.

Lemma chain_write_keeps (n : nat) :
  forall p st st', chain_write n p st = Some st' -> P st -> P st'.
Proof.
  induction n as [|n IH]; intros p st st' Hrun HP; cbn [chain_write] in Hrun.
  - inversion Hrun; subst. exact HP.
  - destruct p as [i|]; [|discriminate].
    destruct (buf st !! i) as [e|]; [|discriminate].
    eapply IH; [exact Hrun|]. apply P_store, P_accum, P_store, HP.
Qed.

Lemma traverse_keeps (benchType max : Z) (st st' : bench F) :
  traverse g benchType max st = Some st' -> P st -> P st'.
Proof.
  intros Hrun.
  destruct (traverse_defined _ _ _ _ Hrun) as [-> | [-> | [-> | ->]]];
    cbn [traverse] in Hrun; revert Hrun.
  - apply seq_read_keeps.
  - apply chain_read_keeps.
  - apply seq_write_keeps.
  - apply chain_write_keeps.
Qed.
End Stores.

Lemma traverse_read_keeps (benchType max : Z) (st st' : bench F) :
  benchType = 0 \/ benchType = 1 ->
  traverse g benchType max st = Some st' -> P st -> P st'.
Proof.
  intros [-> | ->]; cbn [traverse].
  - apply seq_read_keeps.
  - apply chain_read_keeps.
Qed.

Variable benchType : Z.
Hypothesis P_traverse :
  forall max st st', traverse g benchType max st = Some st' -> P st -> P st'.

Lemma sweeps_keeps (n : nat) :
  forall d st st', sweeps g benchType n d st = Some st' -> P st -> P st'.
Proof.
  induction n as [|n IH]; intros d st st' Hrun HP; cbn [sweeps] in Hrun.
  - inversion Hrun; subst. exact HP.
  - destruct (traverse g benchType (distBlocks g d) (count (distBlocks g d) st))
      as [st1|] eqn:Ht; [|discriminate].
    eapply IH; [exact Hrun|]. eapply P_traverse; [exact Ht|]. apply P_count, HP.
Qed.

Lemma distances_keeps (n : nat) :
  forall d st st', distances g benchType n d st = Some st' -> P st -> P st'.
Proof.
  induction n as [|n IH]; intros d st st' Hrun HP; cbn [distances] in Hrun.
  - inversion Hrun; subst. exact HP.
  - destruct (buf st !! 0) as [e|]; [|discriminate].
    destruct (INT_MAX <? distIter g d); [discriminate|].
    destruct (sweeps g benchType (Z.to_nat (distIter g d)) d (accum 0 (v e) st))
      as [st1|] eqn:Hs; [|discriminate].
    eapply IH; [exact Hrun|]. eapply sweeps_keeps; [exact Hs|]. apply P_accum, HP.
Qed.

Lemma iterations_keeps (n : nat) :
  forall st st', iterations g benchType n st = Some st' -> P st -> P st'.
Proof.
  induction n as [|n IH]; intros st st' Hrun HP; cbn [iterations] in Hrun.
  - inversion Hrun; subst. exact HP.
  - destruct (buf st !! 0) as [e|]; [|discriminate].
    destruct (distances g benchType (Z.to_nat (distsUsed g)) 0 (accum 0 (v e) st))
      as [st1|] eqn:Hd; [|discriminate].
    eapply IH; [exact Hrun|]. eapply distances_keeps; [exact Hd|]. apply P_accum, HP.
Qed.
End Preservation.

(** ** Read-only runs leave the buffer alone *)

Lemma runBench_read_only_frame (buffer : gmap Z (entry F))
    (iter depChain : Z) (sum : F) (count0 : Z) (st : bench F) :
  depChain = 0 \/ depChain = 1 ->
  runBench g buffer iter depChain 0 sum count0 = Some st ->
  buf st = buffer.
Proof.
  intros Hdep Hrun. unfold runBench in Hrun.
  eapply (iterations_keeps (fun s => buf s = buffer)); [| | | exact Hrun |].
  - intros i x s Hs. exact Hs.
  - intros n s Hs. exact Hs.
  - intros max s s'. apply (traverse_read_keeps (fun s => buf s = buffer)).
    + intros i x s0 Hs. exact Hs.
    + lia.
  - reflexivity.
Qed.

(** ** The sum is the accumulation of the values read *)



(** ** Runs on a linked buffer complete *)

Lemma linked_store (b : gmap Z (entry F)) (i : Z) (e : entry F) (x : F) :
  linked g b -> b !! i = Some e -> linked g (<[i := Entry x (next e)]> b).
Proof.
  intros Hl Hi j. destruct (Hl j) as [y Hy].
  rewrite lookup_insert. destruct (decide (i = seq_idx g j)) as [E|Hne].
  - subst i. rewrite Hy in Hi. inversion Hi; subst e. cbn [next].
    exists x. reflexivity.
  - exists y. exact Hy.
Qed.

Lemma seq_read_total (n : nat) :
  forall j st, linked g (buf st) ->
    exists st', seq_read g n (seq_idx g j) st = Some st'.
Proof.
  induction n as [|n IH]; intros j st Hl; cbn [seq_read].
  - exists st. reflexivity.
  - destruct (Hl j) as [x Hx]. rewrite Hx.
    apply (IH (S j)). exact Hl.
Qed.

Lemma chain_read_seq_read (n : nat) :
  forall j st, linked g (buf st) ->
    chain_read n (Some (seq_idx g j)) st = seq_read g n (seq_idx g j) st.
Proof.
  induction n as [|n IH]; intros j st Hl; cbn [chain_read seq_read].
  - reflexivity.
  - destruct (Hl j) as [x Hx]. rewrite Hx. cbn [next v].
    apply (IH (S j)). exact Hl.
Qed.

Lemma seq_write_total (n : nat) :
  forall j st, linked g (buf st) ->
    exists st', seq_write g n (seq_idx g j) st = Some st' /\ linked g (buf st').
Proof.
  induction n as [|n IH]; intros j st Hl; cbn [seq_write].
  - exists st. split; [reflexivity | exact Hl].
  - destruct (Hl j) as [x Hx]. rewrite Hx.
    apply (IH (S j)). cbn [accum store buf next].
    apply (linked_store _ _ (Entry x (Some (seq_idx g (S j))))); assumption.
Qed.

Lemma chain_write_total (n : nat) :
  forall j st, linked g (buf st) ->
    exists st', chain_write n (Some (seq_idx g j)) st = Some st' /\
                linked g (buf st').
Proof.
  induction n as [|n IH]; intros j st Hl; cbn [chain_write].
  - exists st. split; [reflexivity | exact Hl].
  - destruct (Hl j) as [x Hx]. rewrite Hx. cbn [next].
    apply (IH (S j)). cbn [accum store buf].
    apply (linked_store _ _ (Entry (fadd x f_one) (Some (seq_idx g (S j))))).
    + apply (linked_store _ _ (Entry x (Some (seq_idx g (S j))))); assumption.
    + apply lookup_insert_eq.
Qed.

Lemma traverse_total (benchType max : Z) (st : bench F) :
  linked g (buf st) -> 0 <= benchType <= 3 ->
  exists st', traverse g benchType max st = Some st' /\
              linked g (buf st') /\ aCount st' = aCount st.
Proof.
  intros Hl Hbt.
  assert (Hrun : exists st', traverse g benchType max st = Some st' /\
                             linked g (buf st')).
  { assert (Hc : benchType = 0 \/ benchType = 1 \/ benchType = 2 \/ benchType = 3)
      by lia.
    destruct Hc as [-> | [-> | [-> | ->]]]; cbn [traverse].
    - destruct (seq_read_total (Z.to_nat max) 0 st Hl) as [st' Hst'].
      exists st'. split; [exact Hst'|].
      rewrite (seq_read_keeps (fun s => buf s = buf st) (fun _ _ _ E => E)
                 _ _ _ _ Hst' eq_refl).
      exact Hl.
    - rewrite (chain_read_seq_read _ 0 st Hl).
      destruct (seq_read_total (Z.to_nat max) 0 st Hl) as [st' Hst'].
      exists st'. split; [exact Hst'|].
      rewrite (seq_read_keeps (fun s => buf s = buf st) (fun _ _ _ E => E)
                 _ _ _ _ Hst' eq_refl).
      exact Hl.
    - apply (seq_write_total _ 0 st Hl).
    - apply (chain_write_total _ 0 st Hl). }
  destruct Hrun as (st' & Hst' & Hl'). exists st'.
  split; [exact Hst'|]. split; [exact Hl'|].
  apply (traverse_keeps (fun s => aCount s = aCount st)
           (fun _ _ _ E => E) (fun _ _ _ E => E) _ _ _ _ Hst' eq_refl).
Qed.

Lemma wrap64_add_l (a b : Z) : wrap64 (wrap64 a + b) = wrap64 (a + b).
Proof. unfold wrap64. apply Zplus_mod_idemp_l. Qed.

Lemma sweeps_total (benchType : Z) (n : nat) (d : Z) :
  0 <= benchType <= 3 ->
  forall st, linked g (buf st) ->
    exists st', sweeps g benchType n d st = Some st' /\
                linked g (buf st') /\
                wrap64 (aCount st') = wrap64 (aCount st + Z.of_nat n * distBlocks g d).
Proof.
  intros Hbt. induction n as [|n IH]; intros st Hl; cbn [sweeps].
  - exists st. split; [reflexivity|]. split; [exact Hl|]. f_equal. lia.
  - destruct (traverse_total benchType (distBlocks g d) (count (distBlocks g d) st))
      as (st1 & Hst1 & Hl1 & Hc1); [exact Hl | exact Hbt |].
    rewrite Hst1.
    destruct (IH st1 Hl1) as (st' & Hst' & Hl' & Hc').
    exists st'. split; [exact Hst'|]. split; [exact Hl'|].
    rewrite Hc', Hc1. cbn [count aCount]. rewrite wrap64_add_l. f_equal. lia.
Qed.

Lemma distances_total (benchType : Z) (n : nat) :
  0 <= benchType <= 3 ->
  forall d st,
    (forall d', d <= d' < d + Z.of_nat n -> 0 <= distIter g d' <= INT_MAX) ->
    linked g (buf st) ->
    exists st', distances g benchType n d st = Some st' /\
                linked g (buf st') /\
                wrap64 (aCount st') = wrap64 (aCount st + accesses_from g n d).
Proof.
  intros Hbt. induction n as [|n IH]; intros d st Hit Hl;
    cbn [distances accesses_from].
  - exists st. split; [reflexivity|]. split; [exact Hl|]. f_equal. lia.
  - destruct (Hl 0%nat) as [x Hx]. cbn [seq_idx] in Hx. rewrite Hx.
    pose proof (Hit d ltac:(lia)) as Hd.
    destruct (Z.ltb_spec INT_MAX (distIter g d)); [lia|].
    destruct (sweeps_total benchType (Z.to_nat (distIter g d)) d Hbt
                (accum 0 (v (Entry x (Some (next_idx g 0)))) st) Hl)
      as (st1 & Hst1 & Hl1 & Hc1).
    rewrite Hst1.
    destruct (IH (d + 1) st1) as (st' & Hst' & Hl' & Hc'); [|exact Hl1|].
    { intros d' Hd'. apply Hit. lia. }
    exists st'. split; [exact Hst'|]. split; [exact Hl'|].
    rewrite Hc', <- wrap64_add_l, Hc1, wrap64_add_l.
    cbn [accum aCount]. rewrite Z2Nat.id by lia. f_equal. lia.
Qed.

Lemma iterations_total (benchType : Z) (n : nat) :
  0 <= benchType <= 3 ->
  (forall d, 0 <= d < distsUsed g -> 0 <= distIter g d <= INT_MAX) ->
  forall st, linked g (buf st) ->
    exists st', iterations g benchType n st = Some st' /\
                linked g (buf st') /\
                wrap64 (aCount st')
                = wrap64 (aCount st + Z.of_nat n * accesses_per_iteration g).
Proof.
  intros Hbt Hit. induction n as [|n IH]; intros st Hl; cbn [iterations].
  - exists st. split; [reflexivity|]. split; [exact Hl|]. f_equal. lia.
  - destruct (Hl 0%nat) as [x Hx]. cbn [seq_idx] in Hx. rewrite Hx.
    destruct (distances_total benchType (Z.to_nat (distsUsed g)) Hbt 0
                (accum 0 (v (Entry x (Some (next_idx g 0)))) st))
      as (st1 & Hst1 & Hl1 & Hc1); [|exact Hl|].
    { intros d Hd. apply Hit. lia. }
    rewrite Hst1.
    destruct (IH st1 Hl1) as (st' & Hst' & Hl' & Hc').
    exists st'. split; [exact Hst'|]. split; [exact Hl'|].
    rewrite Hc', <- wrap64_add_l, Hc1, wrap64_add_l.
    cbn [accum aCount]. unfold accesses_per_iteration. f_equal. lia.
Qed.

Lemma aCount_range_keeps (benchType : Z) (n : nat) (st st' : bench F) :
  iterations g benchType n st = Some st' ->
  0 <= aCount st < 2 ^ 64 -> 0 <= aCount st' < 2 ^ 64.
Proof.
  intros Hrun.
  assert (Hacc : forall i x s, 0 <= aCount s < 2 ^ 64 ->
                               0 <= aCount (accum i x s) < 2 ^ 64).
  { intros i x s Hs. exact Hs. }
  assert (Hcnt : forall m (s : bench F), 0 <= aCount s < 2 ^ 64 ->
                             0 <= aCount (count m s) < 2 ^ 64).
  { intros m s _. cbn [count aCount]. apply wrap64_range. }
  assert (Htrav : forall max s s', traverse g benchType max s = Some s' ->
                    0 <= aCount s < 2 ^ 64 -> 0 <= aCount s' < 2 ^ 64).
  { intros max s s'.
    apply (traverse_keeps (fun s => 0 <= aCount s < 2 ^ 64) Hacc).
    intros i e s0 Hs. exact Hs. }
  exact (iterations_keeps (fun s => 0 <= aCount s < 2 ^ 64) Hacc Hcnt
           benchType Htrav n st st' Hrun).
Qed.

(** ** The counter of a completed run *)

Lemma traverse_count (benchType max : Z) (st st' : bench F) :
  traverse g benchType max st = Some st' -> aCount st' = aCount st.
Proof.
  intros Hrun.
  apply (traverse_keeps (fun s => aCount s = aCount st)
           (fun _ _ _ E => E) (fun _ _ _ E => E) _ _ _ _ Hrun eq_refl).
Qed.

Lemma sweeps_count (benchType : Z) (n : nat) (d : Z) :
  forall st st',
    sweeps g benchType n d st = Some st' ->
    wrap64 (aCount st') = wrap64 (aCount st + Z.of_nat n * distBlocks g d).
Proof.
  induction n as [|n IH]; intros st st' Hrun; cbn [sweeps] in Hrun.
  - inversion Hrun; subst. f_equal. lia.
  - destruct (traverse g benchType (distBlocks g d) (count (distBlocks g d) st))
      as [st1|] eqn:Ht; [|discriminate].
    rewrite (IH _ _ Hrun), (traverse_count _ _ _ _ Ht).
    cbn [count aCount]. rewrite wrap64_add_l. f_equal. lia.
Qed.

Lemma distances_count (benchType : Z) (n : nat) :
  forall d st st',
    (forall d', d <= d' < d + Z.of_nat n -> 0 <= distIter g d') ->
    distances g benchType n d st = Some st' ->
    wrap64 (aCount st') = wrap64 (aCount st + accesses_from g n d).
Proof.
  induction n as [|n IH]; intros d st st' Hit Hrun;
    cbn [distances accesses_from] in *.
  - inversion Hrun; subst. f_equal. lia.
  - destruct (buf st !! 0) as [e|]; [|discriminate].
    destruct (INT_MAX <? distIter g d); [discriminate|].
    destruct (sweeps g benchType (Z.to_nat (distIter g d)) d (accum 0 (v e) st))
      as [st1|] eqn:Hs; [|discriminate].
    rewrite (IH (d + 1) st1 st'); [|intros d' Hd'; apply Hit; lia | exact Hrun].
    rewrite <- wrap64_add_l, (sweeps_count _ _ _ _ _ Hs), wrap64_add_l.
    cbn [accum aCount]. rewrite Z2Nat.id by (apply Hit; lia). f_equal. lia.
Qed.

Lemma iterations_count (benchType : Z) (n : nat) :
  (forall d, 0 <= d < distsUsed g -> 0 <= distIter g d) ->
  forall st st',
    iterations g benchType n st = Some st' ->
    wrap64 (aCount st')
    = wrap64 (aCount st + Z.of_nat n * accesses_per_iteration g).
Proof.
  intros Hit. induction n as [|n IH]; intros st st' Hrun; cbn [iterations] in Hrun.
  - inversion Hrun; subst. f_equal. lia.
  - destruct (buf st !! 0) as [e|]; [|discriminate].
    destruct (distances g benchType (Z.to_nat (distsUsed g)) 0 (accum 0 (v e) st))
      as [st1|] eqn:Hd; [|discriminate].
    assert (Hit' : forall d', 0 <= d' < 0 + Z.of_nat (Z.to_nat (distsUsed g)) ->
                               0 <= distIter g d').
    { intros d' Hd'. apply Hit. lia. }
    rewrite (IH _ _ Hrun).
    rewrite <- wrap64_add_l, (distances_count _ _ _ _ _ Hit' Hd), wrap64_add_l.
    cbn [accum aCount]. unfold accesses_per_iteration. f_equal. lia.
Qed.

Lemma runBench_count (buffer : gmap Z (entry F))
    (iter depChain doWrite : Z) (sum : F) (count0 : Z) (st : bench F) :
  (forall d, 0 <= d < distsUsed g -> 0 <= distIter g d) ->
  0 <= iter -> 0 <= count0 < 2 ^ 64 ->
  runBench g buffer iter depChain doWrite sum count0 = Some st ->
  aCount st = wrap64 (count0 + iter * accesses_per_iteration g).
Proof.
  intros Hit Hiter Hc Hrun. unfold runBench in Hrun.
  pose proof (iterations_count _ _ Hit _ _ Hrun) as Hcount.
  pose proof (aCount_range_keeps _ _ _ _ Hrun Hc) as Hr.
  rewrite (wrap64_small (aCount st)) in Hcount by exact Hr.
  rewrite Hcount. cbn [aCount]. rewrite Z2Nat.id by lia. reflexivity.
Qed.

Lemma runBench_total (buffer : gmap Z (entry F))
    (iter depChain doWrite : Z) (sum : F) (count0 : Z) :
  linked g buffer ->
  (depChain = 0 \/ depChain = 1) -> (doWrite = 0 \/ doWrite = 1) ->
  (forall d, 0 <= d < distsUsed g -> 0 <= distIter g d <= INT_MAX) ->
  0 <= iter -> 0 <= count0 < 2 ^ 64 ->
  exists st, runBench g buffer iter depChain doWrite sum count0 = Some st /\
             linked g (buf st) /\
             aCount st = wrap64 (count0 + iter * accesses_per_iteration g).
Proof.
  intros Hl Hdep Hwr Hit Hiter Hc. unfold runBench.
  destruct (iterations_total (depChain + 2 * doWrite) (Z.to_nat iter)
              ltac:(lia) Hit (Bench buffer sum count0 []) Hl)
    as (st & Hst & Hl' & Hcount).
  exists st. split; [exact Hst|]. split; [exact Hl'|].
  pose proof (aCount_range_keeps _ _ _ _ Hst Hc) as Hr.
  rewrite (wrap64_small (aCount st)) in Hcount by exact Hr.
  rewrite Hcount. cbn [aCount]. rewrite Z2Nat.id by lia. reflexivity.
Qed.

(** ** Chain traversal and sequential traversal read the same entries *)

Lemma traverse_modes_agree (max : Z) (st : bench F) :
  linked g (buf st) -> traverse g 1 max st = traverse g 0 max st.
Proof. intros Hl. cbn [traverse]. apply (chain_read_seq_read _ 0 st Hl). Qed.

Lemma traverse_read_buf (max : Z) (st st' : bench F) :
  traverse g 0 max st = Some st' -> buf st' = buf st.
Proof.
  intros Hrun.
  apply (traverse_read_keeps (fun s => buf s = buf st) (fun _ _ _ E => E)
           0 max st st' ltac:(lia) Hrun eq_refl).
Qed.

Lemma sweeps_modes_agree (n : nat) (d : Z) :
  forall st, linked g (buf st) -> sweeps g 1 n d st = sweeps g 0 n d st.
Proof.
  induction n as [|n IH]; intros st Hl; cbn [sweeps]; [reflexivity|].
  rewrite traverse_modes_agree by exact Hl.
  destruct (traverse g 0 (distBlocks g d) (count (distBlocks g d) st))
    as [st1|] eqn:Ht; [|reflexivity].
  apply IH. rewrite (traverse_read_buf _ _ _ Ht). exact Hl.
Qed.

Lemma sweeps_read_buf (n : nat) (d : Z) (st st' : bench F) :
  sweeps g 0 n d st = Some st' -> buf st' = buf st.
Proof.
  intros Hrun.
  apply (sweeps_keeps (fun s => buf s = buf st) (fun _ _ E => E) 0
           (fun max s s' Ht E => eq_trans (traverse_read_buf max s s' Ht) E)
           n d st st' Hrun eq_refl).
Qed.

Lemma distances_modes_agree (n : nat) :
  forall d st, linked g (buf st) -> distances g 1 n d st = distances g 0 n d st.
Proof.
  induction n as [|n IH]; intros d st Hl; cbn [distances]; [reflexivity|].
  destruct (buf st !! 0) as [e|]; [|reflexivity].
  destruct (INT_MAX <? distIter g d); [reflexivity|].
  rewrite sweeps_modes_agree by exact Hl.
  destruct (sweeps g 0 (Z.to_nat (distIter g d)) d (accum 0 (v e) st))
    as [st1|] eqn:Hs; [|reflexivity].
  apply IH. rewrite (sweeps_read_buf _ _ _ _ Hs). exact Hl.
Qed.

Lemma distances_read_buf (n : nat) (d : Z) (st st' : bench F) :
  distances g 0 n d st = Some st' -> buf st' = buf st.
Proof.
  intros Hrun.
  apply (distances_keeps (fun s => buf s = buf st) (fun _ _ _ E => E)
           (fun _ _ E => E) 0
           (fun max s s' Ht E => eq_trans (traverse_read_buf max s s' Ht) E)
           n d st st' Hrun eq_refl).
Qed.

Lemma iterations_modes_agree (n : nat) :
  forall st, linked g (buf st) -> iterations g 1 n st = iterations g 0 n st.
Proof.
  induction n as [|n IH]; intros st Hl; cbn [iterations]; [reflexivity|].
  destruct (buf st !! 0) as [e|]; [|reflexivity].
  rewrite distances_modes_agree by exact Hl.
  destruct (distances g 0 (Z.to_nat (distsUsed g)) 0 (accum 0 (v e) st))
    as [st1|] eqn:Hd; [|reflexivity].
  apply IH. rewrite (distances_read_buf _ _ _ _ Hd). exact Hl.
Qed.

End BenchFacts.

(* ================================================================== *)
(** * The sizing part of [initBufs] *)

Lemma fill_metrics_frame (n : nat) :
  forall d g g',
    fill_metrics n d g = Some g' ->
    distSize g' = distSize g /\ distsUsed g' = distsUsed g /\
    pseudoRandom g' = pseudoRandom g.
Proof.
  induction n as [|n IH]; intros d g g' Hrun; cbn [fill_metrics] in Hrun.
  - inversion Hrun; subst. auto.
  - destruct (distSize g d =? 0); [discriminate|].
    apply IH in Hrun. exact Hrun.
Qed.

Lemma fill_metrics_tcount (n : nat) :
  forall d g g', fill_metrics n d g = Some g' -> tcount g' = tcount g.
Proof.
  induction n as [|n IH]; intros d g g' Hrun; cbn [fill_metrics] in Hrun.
  - inversion Hrun; subst. reflexivity.
  - destruct (distSize g d =? 0); [discriminate|].
    apply IH in Hrun. exact Hrun.
Qed.

(** The metrics loop completes only if no distance it meets is 0. *)
Lemma fill_metrics_defined (n : nat) :
  forall d g g',
    fill_metrics n d g = Some g' ->
    forall i, d <= i < d + Z.of_nat n -> distSize g i <> 0.
Proof.
  induction n as [|n IH]; intros d g g' Hrun i Hi; cbn [fill_metrics] in Hrun;
    [lia|].
  destruct (Z.eqb_spec (distSize g d) 0) as [|Hne]; [discriminate|].
  destruct (Z.eq_dec i d) as [->|Hid]; [exact Hne|].
  apply (IH _ _ _ Hrun i). lia.
Qed.

Lemma raw_blocks_range (size0 : Z) : 0 <= raw_blocks size0 < 2 ^ 58.
Proof.
  unfold raw_blocks, BLOCKLEN.
  pose proof (wrap64_range (size0 + 64 - 1)) as Hr.
  split.
  - apply Z.div_pos; lia.
  - apply Z.div_lt_upper_bound; lia.
Qed.

Lemma stride_policy_range (pr : bool) (b0 : Z) :
  0 <= b0 < 2 ^ 58 ->
  0 <= stride_policy pr b0 /\ (pr = true -> stride_policy pr b0 <= b0).
Proof.
  intros Hb. unfold stride_policy. destruct pr.
  - rewrite wrap64_small by lia. split.
    + apply Z.div_pos; lia.
    + intros _. apply Z.lt_succ_r. apply Z.div_lt_upper_bound; lia.
  - split; [lia | discriminate].
Qed.

(** The two asserts at the head of [initBufs]: the entry size is the
    constant 16, so the call goes on exactly when the thread count is
    below the maximum. *)
Lemma initBufs_past_asserts (T : Z) (fuel : nat) (g : globals) :
  tcount g < T ->
  initBufs T fuel g =
    match fill_metrics (Z.to_nat (distsUsed g)) 0 g with
    | None => None
    | Some g1 =>
        let b0 := raw_blocks (distSize g1 0) in
        let diff := stride_policy (pseudoRandom g1) b0 in
        match adjustSize fuel b0 diff with
        | None => None
        | Some b => Some (set_sizes g1 b diff)
        end
    end.
Proof.
  intros Hcount. unfold initBufs.
  destruct (Z.ltb_spec (tcount g) T); [reflexivity | lia].
Qed.

Lemma initBufs_thread_count (T : Z) (fuel : nat) (g g' : globals) :
  initBufs T fuel g = Some g' -> tcount g < T.
Proof.
  unfold initBufs. destruct (Z.ltb_spec (tcount g) T); [auto | discriminate].
Qed.

Lemma initBufs_too_many_threads (T : Z) (fuel : nat) (g : globals) :
  T <= tcount g -> initBufs T fuel g = None.
Proof.
  intros Hcount. unfold initBufs.
  destruct (Z.ltb_spec (tcount g) T); [lia | reflexivity].
Qed.

Lemma initBufs_sizes (T : Z) (fuel : nat) (g g' : globals) :
  initBufs T fuel g = Some g' ->
  blockDiff g' = stride_policy (pseudoRandom g) (raw_blocks (distSize g 0)) /\
  adjustSize fuel (raw_blocks (distSize g 0)) (blockDiff g') = Some (blocks g').
Proof.
  intros Hrun.
  pose proof (initBufs_thread_count _ _ _ _ Hrun) as Hcount.
  rewrite (initBufs_past_asserts T fuel g Hcount) in Hrun.
  destruct (fill_metrics (Z.to_nat (distsUsed g)) 0 g) as [g1|] eqn:Hfill;
    [|discriminate].
  destruct (fill_metrics_frame _ _ _ _ Hfill) as (Hsize & _ & Hpr).
  cbv zeta in Hrun. rewrite Hsize, Hpr in Hrun.
  destruct (adjustSize fuel (raw_blocks (distSize g 0))
              (stride_policy (pseudoRandom g) (raw_blocks (distSize g 0))))
    as [b|] eqn:Hadj; [|discriminate].
  inversion Hrun; subst. cbn [set_sizes blockDiff blocks].
  split; [reflexivity | exact Hadj].
Qed.

Lemma adjustSize_nonneg (fuel : nat) :
  forall size diff r, 0 <= size -> adjustSize fuel size diff = Some r -> 0 <= r.
Proof.
  induction fuel as [|fuel IH]; intros size diff r Hs Hrun; cbn [adjustSize] in Hrun.
  - discriminate.
  - destruct (1 <? gcd size diff).
    + eapply IH; [|exact Hrun]. apply wrap64_range.
    + inversion Hrun; subst. exact Hs.
Qed.

(** What [initBufs] hands to the builder is a normalized pair, as soon as
    it is coprime, not empty, and of representable size. *)
Lemma initBufs_normalized (T : Z) (fuel : nat) (g g' : globals) :
  initBufs T fuel g = Some g' ->
  gcd (blocks g') (blockDiff g') = 1 ->
  0 < blocks g' ->
  blocks g' * BLOCKLEN < 2 ^ 64 ->
  normalized g'.
Proof.
  intros Hrun Hco Hpos Hov.
  destruct (initBufs_sizes _ _ _ _ Hrun) as [Hdiff Hadj].
  pose proof (raw_blocks_range (distSize g 0)) as Hb0.
  destruct (stride_policy_range (pseudoRandom g) _ Hb0) as [Hs0 Hsle].
  rewrite <- Hdiff in Hs0, Hsle.
  split; [exact Hpos|]. split; [|split; [exact Hov | exact Hco]].
  split; [exact Hs0|].
  destruct (pseudoRandom g) eqn:Hpr.
  - specialize (Hsle eq_refl).
    destruct (Z.eq_dec (blockDiff g') 0) as [E|Hne]; [lia|].
    destruct (adjustSize_positive_stride (raw_blocks (distSize g 0)) (blockDiff g'))
      as (fuel' & r & Hr & Hbound & _); try lia.
    rewrite (adjustSize_deterministic _ _ _ _ _ _ Hadj Hr). lia.
  - unfold stride_policy in Hdiff. lia.
Qed.

Lemma adjustSize_Zgcd_eq (fuel : nat) :
  forall size diff, 0 <= size -> 0 <= diff ->
    adjustSize fuel size diff = adjustSize_Zgcd fuel size diff.
Proof.
  induction fuel as [|fuel IH]; intros size diff Hs Hd;
    cbn [adjustSize adjustSize_Zgcd].
  - reflexivity.
  - rewrite gcd_Zgcd by lia.
    rewrite IH; [reflexivity | apply wrap64_range | exact Hd].
Qed.

(** With stride 0 and a size of 2 or more the loop runs until [size]
    wraps around to 0. *)
Lemma adjustSize_zero_stride (size : Z) :
  2 <= size < 2 ^ 64 ->
  adjustSize (S (Z.to_nat (2 ^ 64 - size))) size 0 = Some 0.
Proof.
  intros Hs.
  remember (Z.to_nat (2 ^ 64 - size)) as n eqn:Hn.
  revert size Hs Hn. induction n as [|n IH]; intros size Hs Hn; [lia|].
  cbn [adjustSize].
  assert (Hg : gcd size 0 = size) by (rewrite gcd_Zgcd, Z.gcd_0_r by lia; lia).
  rewrite Hg. destruct (Z.ltb_spec 1 size); [|lia].
  destruct (Z.eq_dec (size + 1) (2 ^ 64)) as [E|Hne].
  - assert (n = 0%nat) by lia. subst n.
    rewrite E. reflexivity.
  - rewrite wrap64_small by lia. apply IH; lia.
Qed.

(* ================================================================== *)
(** * Dependency-chain builder: results *)

Lemma seq_idx_NoDup (g : globals) (n : nat) :
  normalized g ->
  forall j0, (j0 + n <= Z.to_nat (blocks g))%nat ->
             List.NoDup (map (seq_idx g) (seq j0 n)).
Proof.
  intros Hnorm. induction n as [|n IH]; intros j0 Hle; cbn [seq map].
  - constructor.
  - constructor.
    + intros Hin. apply in_map_iff in Hin. destruct Hin as (j & E & Hj).
      apply in_seq in Hj. apply (seq_idx_inj g Hnorm) in E; lia.
    + apply IH. lia.
Qed.

Section Cycle.
Context {F : Type} `{Payload F}.
Variable g : globals.
Hypothesis Hnorm : normalized g.
Variable b : gmap Z (entry F).
Hypothesis Hbuilt : init_memory_per_thread g = Some b.

Lemma built_cycle_offsets :
  chain_offsets b (Z.to_nat (blocks g)) (Some 0)
  = Some (seq_offsets g (Z.to_nat (blocks g)) 0).
Proof. apply (chain_offsets_linked g b (built_linked g Hnorm b Hbuilt) _ 0%nat). Qed.

Lemma sweep_NoDup : List.NoDup (seq_offsets g (Z.to_nat (blocks g)) 0).
Proof.
  rewrite (seq_offsets_map g _ 0%nat). apply seq_idx_NoDup; [exact Hnorm | lia].
Qed.

Lemma sweep_covers (k : Z) :
  0 <= k < blocks g -> In (block_start k) (seq_offsets g (Z.to_nat (blocks g)) 0).
Proof.
  intros Hk. rewrite (seq_offsets_map g _ 0%nat).
  destruct (seq_idx_onto g Hnorm k Hk) as (j & Hj & E).
  rewrite <- E. apply in_map. apply in_seq. lia.
Qed.

Lemma built_returns :
  chain_walk b (Z.to_nat (blocks g)) 0 = Some 0.
Proof.
  rewrite (chain_walk_linked g b (built_linked g Hnorm b Hbuilt) _ 0%nat).
  rewrite (seq_idx_period g Hnorm 0%nat). reflexivity.
Qed.

Lemma built_not_earlier (j : nat) :
  (0 < j < Z.to_nat (blocks g))%nat -> chain_walk b j 0 <> Some 0.
Proof.
  intros Hj. rewrite (chain_walk_linked g b (built_linked g Hnorm b Hbuilt) _ 0%nat).
  intros E. inversion E as [E'].
  change (seq_idx g (0 + j) = seq_idx g 0) in E'.
  apply (seq_idx_inj g Hnorm) in E'; lia.
Qed.
End Cycle.


(* ================================================================== *)
(** * Benchmark executor: results *)

Section Runs.
Context {F : Type} `{Payload F}.
Variable g : globals.

Lemma traverse_linked (benchType max : Z) (st st' : bench F) :
  traverse g benchType max st = Some st' ->
  linked g (buf st) -> linked g (buf st').
Proof.
  intros Hrun Hl.
  pose proof (traverse_defined g _ _ _ _ Hrun) as Hbt.
  destruct (traverse_total g benchType max st Hl ltac:(lia))
    as (st1 & Hst1 & Hl1 & _).
  rewrite Hrun in Hst1. inversion Hst1; subst. exact Hl1.
Qed.

Lemma runBench_linked (buffer : gmap Z (entry F))
    (iter depChain doWrite : Z) (sum : F) (count0 : Z) (st : bench F) :
  runBench g buffer iter depChain doWrite sum count0 = Some st ->
  linked g buffer -> linked g (buf st).
Proof.
  intros Hrun Hl. unfold runBench in Hrun.
  exact (iterations_keeps g (fun s => linked g (buf s))
           (fun _ _ _ P => P) (fun _ _ P => P) _
           (fun max s s' => traverse_linked _ max s s')
           _ _ _ Hrun Hl).
Qed.

Hypothesis Hnorm : normalized g.

Lemma initialized_linked (b : gmap Z (entry F)) :
  initialized g b -> linked g b.
Proof.
  induction 1 as [b Hb | b iter depChain doWrite sum count0 st _ IH Hrun].
  - apply (built_linked g Hnorm b Hb).
  - apply (runBench_linked _ _ _ _ _ _ _ Hrun IH).
Qed.

Lemma runBench_calls_read_only (calls : nat) (b : gmap Z (entry F))
    (iter depChain : Z) :
  linked g b ->
  depChain = 0 \/ depChain = 1 ->
  (forall d, 0 <= d < distsUsed g -> 0 <= distIter g d <= INT_MAX) ->
  0 <= iter ->
  forall sum count0, 0 <= count0 < 2 ^ 64 ->
    exists st, runBench_calls g calls b iter depChain 0 sum count0 = Some st /\
               buf st = b.
Proof.
  intros Hl Hdep Hit Hiter.
  induction calls as [|calls IH]; intros sum count0 Hc; cbn [runBench_calls].
  - eexists. split; reflexivity.
  - destruct (runBench_total g b iter depChain 0 sum count0 Hl Hdep
                ltac:(lia) Hit Hiter Hc) as (st1 & Hst1 & _ & Hcount).
    rewrite Hst1.
    rewrite (runBench_read_only_frame g _ _ _ _ _ _ Hdep Hst1).
    apply IH. rewrite Hcount. apply wrap64_range.
Qed.
End Runs.

(* ================================================================== *)
(** * The two scenarios of the spec, evaluated *)

Ltac by_computation := vm_compute; first [reflexivity | discriminate].

Example example_sizes :
  initBufs 2 1 example_dists = Some example_sized /\
  blocks example_sized = 64 /\ blockDiff example_sized = 1.
Proof. repeat split; by_computation. Qed.

Example example_random_sizes :
  initBufs 2 1 example_random = Some example_random_sized /\
  blocks example_random_sized = 17 /\ blockDiff example_random_sized = 7.
Proof. repeat split; by_computation. Qed.

Lemma example_random_normalized : normalized example_random_sized.
Proof. repeat split; by_computation. Qed.

Lemma example_random_initialized :
  initialized example_random_sized example_random_buffer.
Proof. apply initialized_fresh. by_computation. Qed.

Lemma example_normalized : normalized example_sized.
Proof. repeat split; by_computation. Qed.

Lemma example_initialized : initialized example_sized example_buffer.
Proof. apply initialized_fresh. by_computation. Qed.

Lemma example_random_traversals (d : Z) :
  0 <= d < distsUsed example_random_sized ->
  0 <= distIter example_random_sized d <= INT_MAX.
Proof.
  change (distsUsed example_random_sized) with 1. intros Hd.
  assert (d = 0) by lia. subst d. split; by_computation.
Qed.

Lemma example_traversals (d : Z) :
  0 <= d < distsUsed example_sized ->
  0 <= distIter example_sized d <= INT_MAX.
Proof.
  change (distsUsed example_sized) with 2. intros Hd.
  assert (Hc : d = 0 \/ d = 1) by lia.
  destruct Hc as [-> | ->]; split; by_computation.
Qed.

(** A common divisor of block count and stride makes the builder come
    back to a linked entry: the [assert] stops it. *)
Example builder_asserts_on_common_divisor :
  @init_memory_per_thread Z int_payload (set_sizes (globals0 false) 4 2) = None.
Proof. by_computation. Qed.

(** A stride above the block count, which [initBufs] never produces, is
    not wrapped by the single subtraction: the last link leaves the
    buffer. *)
Example builder_large_stride_leaves_buffer :
  exists b, @init_memory_per_thread Z int_payload (set_sizes (globals0 false) 2 3)
            = Some b /\
            idxMax (set_sizes (globals0 false) 2 3) = 8 /\
            chain_walk b 2 0 = Some 8.
Proof. eexists. repeat split; by_computation. Qed.

(** Why the results on the builder ask for a representable buffer size:
    for a raw block count of [2^58 - 2] under the pseudo-random policy the
    normalizer returns [2^58 + 3] blocks, and [blocks * BLOCKLEN] wraps
    around to 192 bytes. *)
Example sizes_near_the_limit :
  let b0 := 2 ^ 58 - 2 in
  adjustSize 6 b0 (stride_policy true b0) = Some (2 ^ 58 + 3) /\
  wrap64 ((2 ^ 58 + 3) * BLOCKLEN) = 192.
Proof.
  split; [|by_computation].
  rewrite adjustSize_Zgcd_eq; by_computation.
Qed.

(** The first registration, traced. *)
Example first_registration_trace :
  option_map snd (Registry.addDist 10 4096 (globals0 false))
  = Some [Registry.Rd (-1); Registry.Wr 0; Registry.Wr 0].
Proof. by_computation. Qed.

(* ================================================================== *)
(** * Size normalizer: results *)

(** C3: for every positive requested block count and either stride policy
    of [initBufs], the loop of [adjustSize] is left after finitely many
    tests. *)
Theorem adjustSize_terminates_on_policy (B0 : Z) (pr : bool) :
  0 < B0 < 2 ^ 64 ->
  exists fuel B, adjustSize fuel B0 (stride_policy pr B0) = Some B.
Proof.
  intros HB. apply adjustSize_terminates; [lia|].
  unfold stride_policy. destruct pr; [|lia].
  apply Z.div_pos; [apply wrap64_range | lia].
Qed.

Lemma adjustSize_terminates_on_policy_witness :
  exists fuel B, adjustSize fuel 34 (stride_policy true 34) = Some B.
Proof. apply (adjustSize_terminates_on_policy 34 true); lia. Defined.

(* ================================================================== *)
(** * Distance registry: results *)

(** C5: the shifting loop of [addDist] reads [distSize[-1]] whenever the
    new value goes to position 0, that is when the registry is empty or
    the value is larger than every registered distance; every write, and
    every other read, of the call lies in [0, MAXDISTCOUNT). *)
Theorem addDist_reads_below_array (M size : Z) (g : globals) :
  registry_ok g -> distsUsed g < M ->
  (forall i, 0 <= i < distsUsed g -> distSize g i < size) ->
  exists g' tr,
    addDist M size g = Some (g', tr) /\
    In (Rd (-1)) tr /\
    Forall (fun e => match e with
                     | Rd i => -1 <= i < M
                     | Wr i => 0 <= i < M
                     end) tr.
Proof.
  intros [Hn Hsorted] Hcap Hmax.
  enough (Hrun : exists g' tr, addDist M size g = Some (g', tr) /\ In (Rd (-1)) tr).
  { destruct Hrun as (g' & tr & Hrun & Hin). exists g', tr.
    split; [exact Hrun|]. split; [exact Hin|].
    apply (addDist_trace M size g g' tr); [lia | exact Hrun]. }
  unfold addDist.
  destruct (search (Z.to_nat (distsUsed g)) 0 size (distSize g)) as [r tr1] eqn:Hs.
  pose proof (search_spec _ _ _ _ _ _ Hs) as Hspec.
  rewrite Z2Nat.id in Hspec by lia.
  destruct r as [|d].
  - destruct Hspec as (i & Hi & Hai). specialize (Hmax i ltac:(lia)). lia.
  - destruct Hspec as (Hd & Hall & _).
    assert (d = 0).
    { destruct (Z.eq_dec d 0) as [|Hne]; [assumption|].
      specialize (Hall 0 ltac:(lia)). specialize (Hmax 0 ltac:(lia)). lia. }
    subst d.
    destruct (Z.ltb_spec (distsUsed g) M); [|lia].
    destruct (shift (Z.to_nat (distsUsed g - 0 + 1)) (distsUsed g) (distSize g))
      as [a tr2] eqn:Hsh.
    eexists _, _. split; [reflexivity|].
    apply in_or_app. right. apply in_or_app. left.
    replace (Z.to_nat (distsUsed g - 0 + 1)) with (S (Z.to_nat (distsUsed g)))
      in Hsh by lia.
    apply shift_last_read in Hsh.
    replace (distsUsed g - Z.of_nat (S (Z.to_nat (distsUsed g)))) with (-1) in Hsh
      by lia.
    exact Hsh.
Qed.

Lemma addDist_reads_below_array_witness :
  exists g' tr,
    addDist 10 4096 (globals0 false) = Some (g', tr) /\
    In (Rd (-1)) tr /\
    Forall (fun e => match e with
                     | Rd i => -1 <= i < 10
                     | Wr i => 0 <= i < 10
                     end) tr.
Proof.
  apply (addDist_reads_below_array 10 4096 (globals0 false)).
  - apply empty_registry_ok. reflexivity.
  - reflexivity.
  - simpl. intros i Hi. lia.
Defined.

(** C6: after any sequence of registrations that all pass the capacity
    check, the registered distances are strictly descending, hence without
    duplicates. *)
Theorem registry_strictly_descending (M : Z) (sizes : list Z) (g0 g : globals) :
  distsUsed g0 = 0 ->
  addDists M sizes g0 = Some g ->
  strictly_descending g /\
  (forall i j, 0 <= i < distsUsed g -> 0 <= j < distsUsed g ->
               distSize g i = distSize g j -> i = j).
Proof.
  intros Hempty Hrun.
  destruct (addDists_keeps_order M sizes g0 g (empty_registry_ok g0 Hempty) Hrun)
    as [_ Hsorted].
  split; [exact Hsorted|].
  intros i j Hi Hj E.
  destruct (Z.lt_trichotomy i j) as [Hlt | [Heq | Hgt]]; [|exact Heq|].
  - specialize (Hsorted i j ltac:(lia) Hlt ltac:(lia)). lia.
  - specialize (Hsorted j i ltac:(lia) Hgt ltac:(lia)). lia.
Qed.

Lemma registry_strictly_descending_witness :
  exists g, addDists 10 [1024; 4096; 1024; 2048] (globals0 false) = Some g /\
    registered g = [4096; 2048; 1024] /\
    strictly_descending g /\
    (forall i j, 0 <= i < distsUsed g -> 0 <= j < distsUsed g ->
                 distSize g i = distSize g j -> i = j).
Proof.
  eexists. split; [vm_compute; reflexivity|]. split; [vm_compute; reflexivity|].
  apply (registry_strictly_descending 10 [1024; 4096; 1024; 2048] (globals0 false));
    vm_compute; reflexivity.
Defined.

(** C7: in a registry built by registrations, registering a value that is
    already there changes nothing: the call returns the state it was given. *)
Theorem addDist_registered_unchanged (M : Z) (sizes : list Z) (g0 g : globals)
    (size : Z) :
  distsUsed g0 = 0 ->
  addDists M sizes g0 = Some g ->
  (exists i, 0 <= i < distsUsed g /\ distSize g i = size) ->
  exists tr, addDist M size g = Some (g, tr).
Proof.
  intros Hempty Hrun Hreg.
  apply addDist_registered; [|exact Hreg].
  exact (addDists_keeps_order M sizes g0 g (empty_registry_ok g0 Hempty) Hrun).
Qed.

Lemma addDist_registered_unchanged_witness :
  registered example_registry = [4096; 1024] /\
  exists tr, addDist 10 4096 example_registry = Some (example_registry, tr).
Proof.
  split; [vm_compute; reflexivity|].
  apply (addDist_registered_unchanged 10 [1024; 4096] (globals0 false)).
  - reflexivity.
  - vm_compute. reflexivity.
  - exists 0. vm_compute. repeat split; discriminate.
Defined.

(** X25 ([init_memory_per_thread]): for every pair [(blocks, blockDiff)]
    that [initBufs] hands to the builder, if the pair is coprime and the
    buffer size [blocks * BLOCKLEN] is below 2^64, the builder (allocation
    taken to succeed) passes every [assert]; in its buffer every block
    start carries one link, to a block start, and no other entry carries
    one; the [blocks] offsets met by following the links from offset 0 are
    pairwise different and comprise every block start; the walk is back at
    offset 0 after exactly [blocks] steps and not earlier. *)
Theorem chain_builder_single_cycle {F : Type} `{Payload F}
    (T : Z) (fuel : nat) (g g' : globals) :
  initBufs T fuel g = Some g' ->
  gcd (blocks g') (blockDiff g') = 1 ->
  blocks g' * BLOCKLEN < 2 ^ 64 ->
  exists b : gmap Z (entry F),
    init_memory_per_thread g' = Some b /\
    (forall k, 0 <= k < blocks g' ->
       exists k', 0 <= k' < blocks g' /\
         b !! block_start k =
           Some (Entry (of_u64 (block_start k)) (Some (block_start k')))) /\
    (forall i e, b !! i = Some e -> next e <> None ->
       exists k, 0 <= k < blocks g' /\ i = block_start k) /\
    (exists l, chain_offsets b (Z.to_nat (blocks g')) (Some 0) = Some l /\
               length l = Z.to_nat (blocks g') /\
               List.NoDup l /\
               forall k, 0 <= k < blocks g' -> In (block_start k) l) /\
    chain_walk b (Z.to_nat (blocks g')) 0 = Some 0 /\
    (forall j, (0 < j < Z.to_nat (blocks g'))%nat -> chain_walk b j 0 <> Some 0).
Proof.
  intros Hrun Hco Hov.
  destruct (initBufs_sizes _ _ _ _ Hrun) as [_ Hadj].
  pose proof (adjustSize_nonneg _ _ _ _
                (proj1 (raw_blocks_range (distSize g 0))) Hadj) as Hnn.
  destruct (Z.eq_dec (blocks g') 0) as [E0|Hne].
  - exists ∅.
    assert (Hinit : @init_memory_per_thread F _ g' = Some ∅).
    { unfold init_memory_per_thread, fresh_buffer, idxMax. rewrite E0. reflexivity. }
    split; [exact Hinit|]. rewrite E0.
    split; [intros k Hk; lia|].
    split; [intros i e Hi; rewrite lookup_empty in Hi; discriminate|].
    split.
    { exists []. split; [reflexivity|]. split; [reflexivity|].
      split; [constructor | intros k Hk; lia]. }
    split; [reflexivity | intros j Hj; lia].
  - assert (Hnorm : normalized g').
    { apply (initBufs_normalized T fuel g g'); try assumption. lia. }
    destruct (init_memory_succeeds g' Hnorm) as (b & Hb & _).
    exists b. split; [exact Hb|].
    split; [apply (built_block_links g' Hnorm b Hb)|].
    split; [apply (built_only_block_links g' Hnorm b Hb)|].
    split.
    + exists (seq_offsets g' (Z.to_nat (blocks g')) 0).
      split; [apply (built_cycle_offsets g' Hnorm b Hb)|].
      split; [apply seq_offsets_length|].
      split; [apply (sweep_NoDup g' Hnorm) | apply (sweep_covers g' Hnorm)].
    + split; [apply (built_returns g' Hnorm b Hb) | apply (built_not_earlier g' Hnorm b Hb)].
Qed.

Lemma chain_builder_single_cycle_witness :
  initBufs 2 1 example_random = Some example_random_sized /\
  blocks example_random_sized = 17 /\ blockDiff example_random_sized = 7 /\
  exists b : gmap Z (entry Z),
    @init_memory_per_thread Z int_payload example_random_sized = Some b /\
    chain_offsets b 17 (Some 0)
    = Some [0; 28; 56; 16; 44; 4; 32; 60; 20; 48; 8; 36; 64; 24; 52; 12; 40] /\
    chain_walk b 17 0 = Some 0.
Proof.
  split; [by_computation|]. split; [by_computation|]. split; [by_computation|].
  destruct (@chain_builder_single_cycle Z int_payload 2 1 example_random
              example_random_sized)
    as (b & Hb & _ & _ & _ & Hback & _); [by_computation ..|].
  exists b. split; [exact Hb|]. split; [|exact Hback].
  assert (E : b = example_random_buffer).
  { unfold example_random_buffer. rewrite Hb. reflexivity. }
  rewrite E. by_computation.
Defined.

(** C4: on an initialized buffer of a normalized pair, the chain traversal
    from offset 0 dereferences, step by step, exactly the offsets the
    sequential traversal indexes; one sweep of [blocks] steps meets every
    block start once; and a read-only run in chain mode yields the very
    result (reads, sum, counter, buffer) of the run in sequential mode. *)
Theorem chain_and_sequential_visit_same_offsets {F : Type} `{Payload F}
    (g : globals) (b : gmap Z (entry F)) :
  normalized g ->
  initialized g b ->
  (forall m, chain_offsets b m (Some 0) = Some (seq_offsets g m 0)) /\
  List.NoDup (seq_offsets g (Z.to_nat (blocks g)) 0) /\
  (forall k, 0 <= k < blocks g ->
     In (block_start k) (seq_offsets g (Z.to_nat (blocks g)) 0)) /\
  (forall iter sum count0,
     runBench g b iter 1 0 sum count0 = runBench g b iter 0 0 sum count0).
Proof.
  intros Hnorm Hinit.
  pose proof (initialized_linked g Hnorm b Hinit) as Hl.
  split; [intros m; apply (chain_offsets_linked g b Hl m 0%nat)|].
  split; [apply (sweep_NoDup g Hnorm)|].
  split; [apply (sweep_covers g Hnorm)|].
  intros iter sum count0. unfold runBench.
  apply (iterations_modes_agree g). exact Hl.
Qed.

Lemma chain_and_sequential_visit_same_offsets_witness :
  chain_offsets example_random_buffer 17 (Some 0)
  = Some (seq_offsets example_random_sized 17 0) /\
  @runBench Z int_payload example_random_sized example_random_buffer 2 1 0 0 0
  = @runBench Z int_payload example_random_sized example_random_buffer 2 0 0 0 0.
Proof.
  destruct (@chain_and_sequential_visit_same_offsets Z int_payload
              example_random_sized example_random_buffer
              example_random_normalized example_random_initialized)
    as (Hoff & _ & _ & Hrun).
  split; [apply Hoff | apply Hrun].
Defined.

(** C8: a run with [doWrite = 0] that completes returns the buffer it was
    given, entry for entry; and on an initialized buffer any number of
    such runs completes and leaves the buffer as it was. *)
Theorem read_only_runs_keep_buffer {F : Type} `{Payload F} (g : globals) :
  (forall (buffer : gmap Z (entry F)) iter depChain sum count0 st,
     depChain = 0 \/ depChain = 1 ->
     runBench g buffer iter depChain 0 sum count0 = Some st ->
     buf st = buffer) /\
  (forall (b : gmap Z (entry F)) calls iter depChain sum count0,
     normalized g -> initialized g b ->
     depChain = 0 \/ depChain = 1 ->
     (forall d, 0 <= d < distsUsed g -> 0 <= distIter g d <= INT_MAX) ->
     0 <= iter -> 0 <= count0 < 2 ^ 64 ->
     exists st, runBench_calls g calls b iter depChain 0 sum count0 = Some st /\
                buf st = b).
Proof.
  split.
  - intros buffer iter depChain sum count0 st Hdep Hrun.
    apply (runBench_read_only_frame g _ _ _ _ _ _ Hdep Hrun).
  - intros b calls iter depChain sum count0 Hnorm Hinit Hdep Hit Hiter Hc.
    apply runBench_calls_read_only; try assumption.
    apply (initialized_linked g Hnorm b Hinit).
Qed.

Lemma read_only_runs_keep_buffer_witness :
  exists st,
    @runBench_calls Z int_payload example_random_sized 3 example_random_buffer
      2 1 0 0 0 = Some st /\
    buf st = example_random_buffer.
Proof.
  apply (proj2 (@read_only_runs_keep_buffer Z int_payload example_random_sized)).
  - exact example_random_normalized.
  - exact example_random_initialized.
  - right. reflexivity.
  - exact example_random_traversals.
  - lia.
  - lia.
Defined.

(** X26 ([runBench]): a call with [iter] iterations that completes leaves
    in [*aCount] its former value plus [iter] times the sum of
    [distIter[d] * distBlocks[d]] over the registered distances, in [u64]
    arithmetic, whatever the mode and the buffer; on an initialized buffer
    the call completes when no [distIter[d]] is above [INT_MAX]; for the
    distances 4096 and 1024 of the spec's scenario the sum is 128. *)
Theorem runBench_access_count {F : Type} `{Payload F} (g : globals) :
  (forall (buffer : gmap Z (entry F)) iter depChain doWrite sum count0 st,
     (forall d, 0 <= d < distsUsed g -> 0 <= distIter g d) ->
     0 <= iter -> 0 <= count0 < 2 ^ 64 ->
     runBench g buffer iter depChain doWrite sum count0 = Some st ->
     aCount st = wrap64 (count0 + iter * accesses_per_iteration g) /\
     (0 <= accesses_per_iteration g ->
      count0 + iter * accesses_per_iteration g < 2 ^ 64 ->
      aCount st = count0 + iter * accesses_per_iteration g)) /\
  (forall (b : gmap Z (entry F)) iter depChain doWrite sum count0,
     normalized g -> initialized g b ->
     depChain = 0 \/ depChain = 1 -> doWrite = 0 \/ doWrite = 1 ->
     (forall d, 0 <= d < distsUsed g -> 0 <= distIter g d <= INT_MAX) ->
     0 <= iter -> 0 <= count0 < 2 ^ 64 ->
     exists st, runBench g b iter depChain doWrite sum count0 = Some st) /\
  (exists g', initBufs 2 1 example_dists = Some g' /\
              blocks g' = 64 /\ blockDiff g' = 1 /\
              accesses_per_iteration g' = 128).
Proof.
  split; [|split].
  - intros buffer iter depChain doWrite sum count0 st Hit Hiter Hc Hrun.
    pose proof (runBench_count g _ _ _ _ _ _ _ Hit Hiter Hc Hrun) as Hcount.
    split; [exact Hcount|].
    intros Hacc Hsmall. rewrite Hcount. apply wrap64_small. nia.
  - intros b iter depChain doWrite sum count0 Hnorm Hinit Hdep Hwr Hit Hiter Hc.
    destruct (runBench_total g b iter depChain doWrite sum count0
                (initialized_linked g Hnorm b Hinit) Hdep Hwr Hit Hiter Hc)
      as (st & Hst & _).
    exists st. exact Hst.
  - eexists. split; [vm_compute; reflexivity|].
    repeat split; vm_compute; reflexivity.
Qed.

Lemma runBench_access_count_witness :
  exists st,
    @runBench Z int_payload example_sized example_buffer 3 0 1 0 1000 = Some st /\
    aCount st = 1000 + 3 * 128.
Proof.
  destruct (@runBench_access_count Z int_payload example_sized)
    as (Hcount & Htotal & _).
  destruct (Htotal example_buffer 3 0 1 0 1000
              example_normalized example_initialized
              (or_introl eq_refl) (or_intror eq_refl) example_traversals)
    as (st & Hst); [lia | lia |].
  exists st. split; [exact Hst|].
  destruct (Hcount example_buffer 3 0 1 0 1000 st) as [Hc _];
    [intros d Hd; apply example_traversals, Hd | lia | lia | exact Hst |].
  rewrite Hc. reflexivity.
Defined.

(* ================================================================== *)
(** * Further results on the size normalizer *)

(** X1 ([gcd]): on unsigned arguments the recursive [gcd] returns the
    greatest common divisor: the result is not negative, divides both
    arguments, is divided by every common divisor, and is 0 only for
    [gcd(0, 0)]. *)
Theorem gcd_greatest_common_divisor (a b : Z) :
  0 <= a -> 0 <= b ->
  0 <= gcd a b /\
  Z.divide (gcd a b) a /\ Z.divide (gcd a b) b /\
  (forall c, Z.divide c a -> Z.divide c b -> Z.divide c (gcd a b)) /\
  (gcd a b = 0 <-> a = 0 /\ b = 0).
Proof.
  intros Ha Hb. rewrite gcd_Zgcd by lia.
  split; [apply Z.gcd_nonneg|].
  split; [apply Z.gcd_divide_l|].
  split; [apply Z.gcd_divide_r|].
  split; [intros c; apply Z.gcd_greatest|].
  split.
  - intros E. split; [eapply Z.gcd_eq_0_l | eapply Z.gcd_eq_0_r]; exact E.
  - intros [-> ->]. reflexivity.
Qed.

Lemma gcd_greatest_common_divisor_witness :
  gcd 34 14 = 2 /\ Z.divide (gcd 34 14) 34 /\ Z.divide (gcd 34 14) 14.
Proof.
  split; [reflexivity|].
  destruct (gcd_greatest_common_divisor 34 14) as (_ & Hl & Hr & _); [lia | lia |].
  split; assumption.
Defined.

Ltac leb_cases :=
  repeat match goal with
         | |- context [?a <=? ?b] => destruct (Z.leb_spec a b)
         end;
  try reflexivity; try lia.

(** The loop from [size] on, when a coprime size [c] lies ahead below
    [2^64]: the result, the sizes it passes, and the tests it takes. *)
Lemma adjustSize_profile (diff : Z) (n : nat) :
  0 < diff ->
  forall size c,
    0 <= size -> size <= c -> c < 2 ^ 64 ->
    Z.to_nat (c - size) = n ->
    Z.gcd c diff = 1 ->
    exists r,
      size <= r <= c /\ Z.gcd r diff = 1 /\
      (forall x, size <= x < r -> Z.gcd x diff <> 1) /\
      (forall fuel, adjustSize fuel size diff
                    = if Z.of_nat fuel <=? r - size then None else Some r).
Proof.
  intros Hd. induction n as [|n IH]; intros size c Hs Hc Hlt Hn Hg.
  - assert (c = size) by lia. subst c. exists size.
    split; [lia|]. split; [exact Hg|]. split; [intros x Hx; lia|].
    intros [|fuel]; cbn [adjustSize]; [leb_cases|].
    rewrite gcd_Zgcd, Hg by lia. cbn [Z.ltb Z.compare]. leb_cases.
  - destruct (Z.eq_dec (Z.gcd size diff) 1) as [E1|Hne].
    + exists size. split; [lia|]. split; [exact E1|]. split; [intros x Hx; lia|].
      intros [|fuel]; cbn [adjustSize]; [leb_cases|].
      rewrite gcd_Zgcd, E1 by lia. cbn [Z.ltb Z.compare]. leb_cases.
    + assert (Hgt : 1 < Z.gcd size diff).
      { pose proof (Z.gcd_nonneg size diff).
        assert (Z.gcd size diff <> 0) by (intros E; apply Z.gcd_eq_0_r in E; lia).
        lia. }
      assert (size <> c) by (intros ->; contradiction).
      destruct (IH (size + 1) c) as (r & Hr & Hgr & Hskip & Hfuel); try lia.
      exists r. split; [lia|]. split; [exact Hgr|]. split.
      * intros x Hx. destruct (Z.eq_dec x size) as [->|]; [exact Hne|].
        apply Hskip. lia.
      * intros [|fuel]; cbn [adjustSize].
        -- leb_cases.
        -- rewrite gcd_Zgcd by lia.
           destruct (Z.ltb_spec 1 (Z.gcd size diff)); [|lia].
           rewrite wrap64_small by lia. rewrite Hfuel. leb_cases.
Qed.

(** X2 ([adjustSize]): for a stride [S >= 1] and a requested size [B0]
    with [B0 + S <= 2^64], the loop stops at the least size [B >= B0]
    coprime with [S], after exactly [B - B0] increments (run with a bound
    on its iterations, it returns [B] exactly when the bound exceeds
    [B - B0]); [B] is below [B0 + S]. *)
Theorem adjustSize_least_coprime (B0 S : Z) :
  0 <= B0 -> 1 <= S -> B0 + S <= 2 ^ 64 ->
  exists B,
    B0 <= B < B0 + S /\ gcd B S = 1 /\
    (forall x, B0 <= x < B -> gcd x S <> 1) /\
    (forall fuel, adjustSize fuel B0 S
                  = if Z.of_nat fuel <=? B - B0 then None else Some B).
Proof.
  intros HB HS Hsum.
  destruct (coprime_candidate B0 S) as [Hc Hg]; [lia|].
  set (c := B0 + (1 - B0) mod S) in *.
  destruct (adjustSize_profile S (Z.to_nat (c - B0)) ltac:(lia) B0 c)
    as (r & Hr & Hgr & Hskip & Hfuel); try lia.
  exists r. split; [lia|]. split; [rewrite gcd_Zgcd by lia; exact Hgr|].
  split; [|exact Hfuel].
  intros x Hx. rewrite gcd_Zgcd by lia. apply Hskip. exact Hx.
Qed.

Lemma adjustSize_least_coprime_witness :
  exists B,
    34 <= B < 34 + 14 /\ gcd B 14 = 1 /\
    (forall x, 34 <= x < B -> gcd x 14 <> 1) /\
    (forall fuel, adjustSize fuel 34 14
                  = if Z.of_nat fuel <=? B - 34 then None else Some B).
Proof. apply (adjustSize_least_coprime 34 14); lia. Defined.

(** X3 ([adjustSize]): a size returned by [adjustSize] is returned as it
    is, without an increment, when [adjustSize] is called on it again with
    the same stride. *)
Theorem adjustSize_idempotent (fuel : nat) (size diff B : Z) :
  adjustSize fuel size diff = Some B ->
  adjustSize 1 B diff = Some B.
Proof.
  revert size. induction fuel as [|fuel IH]; intros size Hrun; cbn [adjustSize] in Hrun.
  - discriminate.
  - destruct (1 <? gcd size diff) eqn:Hg.
    + apply (IH _ Hrun).
    + inversion Hrun; subst. cbn [adjustSize]. rewrite Hg. reflexivity.
Qed.

Lemma adjustSize_idempotent_witness :
  adjustSize 4 34 14 = Some 37 /\ adjustSize 1 37 14 = Some 37.
Proof.
  split; [reflexivity|].
  apply (adjustSize_idempotent 4 34 14 37). reflexivity.
Defined.

(** X4 ([adjustSize], stride 0): sizes 0 and 1 are returned at once; any
    other size is incremented [2^64 - size] times, until it wraps around
    to 0, and 0 is returned. *)
Theorem adjustSize_zero_stride_profile (size : Z) (fuel : nat) :
  0 <= size < 2 ^ 64 ->
  adjustSize fuel size 0 =
    if size <=? 1
    then (if Z.of_nat fuel <=? 0 then None else Some size)
    else (if Z.of_nat fuel <=? 2 ^ 64 - size then None else Some 0).
Proof.
  intros Hs.
  destruct (Z.leb_spec size 1) as [Hsmall|Hbig].
  - destruct fuel as [|fuel]; cbn [adjustSize]; [leb_cases|].
    rewrite gcd_Zgcd, Z.gcd_0_r by lia.
    destruct (Z.ltb_spec 1 (Z.abs size)); [lia|]. leb_cases.
  - remember (Z.to_nat (2 ^ 64 - size)) as n eqn:Hn.
    revert size fuel Hs Hbig Hn.
    induction n as [|n IH]; intros size fuel Hs Hbig Hn; [lia|].
    destruct fuel as [|fuel]; cbn [adjustSize].
    + leb_cases.
    + rewrite gcd_Zgcd, Z.gcd_0_r by lia.
      destruct (Z.ltb_spec 1 (Z.abs size)); [|lia].
      destruct (Z.eq_dec (size + 1) (2 ^ 64)) as [E|Hne].
      * rewrite E. change (wrap64 (2 ^ 64)) with 0.
        destruct fuel as [|fuel]; cbn [adjustSize].
        -- leb_cases.
        -- change (gcd 0 0) with 0. cbn [Z.ltb Z.compare]. leb_cases.
      * rewrite wrap64_small by lia. rewrite (IH (size + 1) fuel) by lia.
        leb_cases.
Qed.

Lemma adjustSize_zero_stride_profile_witness :
  adjustSize 1000 2 0 = None /\ adjustSize 1 1 0 = Some 1.
Proof.
  split.
  - rewrite (adjustSize_zero_stride_profile 2 1000) by lia. reflexivity.
  - rewrite (adjustSize_zero_stride_profile 1 1) by lia. reflexivity.
Defined.

(* ================================================================== *)
(** * Further results on [initBufs] *)

(** The block count of a distance that is not within [BLOCKLEN] of 2^64. *)
Lemma raw_blocks_ceiling (size0 : Z) :
  0 <= size0 <= 2 ^ 64 - BLOCKLEN ->
  size0 <= raw_blocks size0 * BLOCKLEN < size0 + BLOCKLEN.
Proof.
  intros Hs. unfold raw_blocks, BLOCKLEN in *.
  rewrite wrap64_small by lia.
  pose proof (Z.div_mod (size0 + 64 - 1) 64 ltac:(lia)).
  pose proof (Z.mod_pos_bound (size0 + 64 - 1) 64 ltac:(lia)). lia.
Qed.

(** X5 ([initBufs], block counts): [(size + BLOCKLEN - 1) / BLOCKLEN] is
    the number of blocks needed to cover [size] bytes as long as
    [size <= 2^64 - BLOCKLEN]; above that the addition wraps around and
    the count is 0. *)
Theorem raw_blocks_rounds_up (size0 : Z) :
  0 <= size0 < 2 ^ 64 ->
  (size0 <= 2 ^ 64 - BLOCKLEN ->
   size0 <= raw_blocks size0 * BLOCKLEN < size0 + BLOCKLEN) /\
  (2 ^ 64 - BLOCKLEN < size0 -> raw_blocks size0 = 0).
Proof.
  intros Hs. split; intros Hb.
  - apply raw_blocks_ceiling. lia.
  - unfold raw_blocks, BLOCKLEN, wrap64 in *.
    replace (size0 + 64 - 1) with (size0 + 63 - 2 ^ 64 + 1 * 2 ^ 64) by lia.
    rewrite Z.mod_add by lia. rewrite Z.mod_small by lia.
    apply Z.div_small. lia.
Qed.

Lemma raw_blocks_rounds_up_witness :
  4096 <= raw_blocks 4096 * BLOCKLEN < 4096 + BLOCKLEN /\
  raw_blocks (2 ^ 64 - 1) = 0.
Proof.
  split.
  - apply (proj1 (raw_blocks_rounds_up 4096 ltac:(lia))). unfold BLOCKLEN. lia.
  - apply (proj2 (raw_blocks_rounds_up (2 ^ 64 - 1) ltac:(lia))). unfold BLOCKLEN. lia.
Defined.

(** What the metrics loop of [initBufs] leaves when no distance is 0. *)
Lemma fill_metrics_cells (n : nat) :
  forall d g,
    (forall i, d <= i < d + Z.of_nat n -> distSize g i <> 0) ->
    exists g',
      fill_metrics n d g = Some g' /\
      distSize g' = distSize g /\ distsUsed g' = distsUsed g /\
      pseudoRandom g' = pseudoRandom g /\
      blocks g' = blocks g /\ blockDiff g' = blockDiff g /\
      (forall i, distBlocks g' i =
                 if (d <=? i) && (i <? d + Z.of_nat n)
                 then wrap64 (distSize g i + BLOCKLEN - 1) / BLOCKLEN
                 else distBlocks g i) /\
      (forall i, distIter g' i =
                 if (d <=? i) && (i <? d + Z.of_nat n)
                 then distSize g 0 / distSize g i
                 else distIter g i).
Proof.
  induction n as [|n IH]; intros d g Hnz; cbn [fill_metrics].
  - exists g. repeat split; try reflexivity; intros i;
      destruct (Z.leb_spec d i), (Z.ltb_spec i (d + Z.of_nat 0));
      cbn [andb]; try reflexivity; lia.
  - destruct (Z.eqb_spec (distSize g d) 0) as [E|_]; [exfalso; apply (Hnz d); [lia|exact E]|].
    destruct (IH (d + 1)
                (set_metrics g
                   (upd (distBlocks g) d (wrap64 (distSize g d + BLOCKLEN - 1) / BLOCKLEN))
                   (upd (distIter g) d (distSize g 0 / distSize g d))))
      as (g' & Hrun & Hsz & Hused & Hpr & Hb & Hdiff & Hblk & Hit).
    { intros i Hi. cbn [set_metrics distSize]. apply Hnz. lia. }
    exists g'. cbn [set_metrics distSize distsUsed pseudoRandom blocks blockDiff
                      distBlocks distIter] in *.
    split; [exact Hrun|]. repeat (split; [assumption|]).
    rewrite Nat2Z.inj_succ. split; intros i; [rewrite Hblk | rewrite Hit];
      unfold upd;
      destruct (Z.leb_spec (d + 1) i), (Z.ltb_spec i (d + 1 + Z.of_nat n)),
               (Z.leb_spec d i), (Z.ltb_spec i (d + Z.succ (Z.of_nat n))),
               (Z.eqb_spec i d);
      cbn [andb]; subst; try reflexivity; lia.
Qed.

(** X6 ([initBufs], metrics loop): when a registered distance is 0 (as
    after [addDist(0)]), [distSize[0] / distSize[d]] divides by zero:
    [initBufs] has no defined result. *)
Theorem initBufs_zero_distance (T : Z) (fuel : nat) (g : globals) (d : Z) :
  0 <= d < distsUsed g -> distSize g d = 0 ->
  initBufs T fuel g = None.
Proof.
  intros Hd Hz. unfold initBufs.
  destruct (negb (tcount g <? T)); [reflexivity|].
  destruct (negb (sizeof_entry =? 16)); [reflexivity|].
  assert (Hfill : forall n d0 g0,
             d0 <= d < d0 + Z.of_nat n -> distSize g0 d = 0 ->
             fill_metrics n d0 g0 = None).
  { induction n as [|n IH]; intros d0 g0 Hr Hz0; [lia|]. cbn [fill_metrics].
    destruct (Z.eqb_spec (distSize g0 d0) 0) as [|Hne]; [reflexivity|].
    apply IH; [|exact Hz0].
    destruct (Z.eq_dec d0 d) as [->|]; [contradiction | lia]. }
  rewrite (Hfill (Z.to_nat (distsUsed g)) 0 g); [reflexivity | lia | exact Hz].
Qed.

Lemma initBufs_zero_distance_witness :
  exists g, addDists 10 [4096; 0] (globals0 false) = Some g /\
            registered g = [4096; 0] /\ initBufs 2 1 g = None.
Proof.
  eexists. split; [vm_compute; reflexivity|]. split; [vm_compute; reflexivity|].
  apply (initBufs_zero_distance 2 1 _ 1).
  - vm_compute. split; [discriminate | reflexivity].
  - vm_compute. reflexivity.
Defined.

Lemma initBufs_unfold (T : Z) (fuel : nat) (g g1 : globals) :
  tcount g < T ->
  fill_metrics (Z.to_nat (distsUsed g)) 0 g = Some g1 ->
  initBufs T fuel g =
    match adjustSize fuel (raw_blocks (distSize g 0))
            (stride_policy (pseudoRandom g) (raw_blocks (distSize g 0))) with
    | None => None
    | Some b =>
        Some (set_sizes g1 b
                (stride_policy (pseudoRandom g) (raw_blocks (distSize g 0))))
    end.
Proof.
  intros Hcount Hfill. rewrite (initBufs_past_asserts T fuel g Hcount), Hfill.
  destruct (fill_metrics_frame _ _ _ _ Hfill) as (Hsize & _ & Hpr).
  cbv zeta. rewrite Hsize, Hpr. reflexivity.
Qed.

(** X7 ([initBufs], sequential policy): with a thread count below
    [DISTGEN_MAXTHREADS], without the pseudo-random option and with no
    registered distance equal to 0, [initBufs] passes its asserts, chooses
    stride 1, keeps the block count of the largest distance without any
    increment, and leaves the registry and the thread count as they were;
    with a thread count at or above the maximum it aborts. *)
Theorem initBufs_sequential (T : Z) (g : globals) :
  pseudoRandom g = false ->
  (forall d, 0 <= d < distsUsed g -> distSize g d <> 0) ->
  (tcount g < T ->
   exists g',
     initBufs T 1 g = Some g' /\
     blockDiff g' = 1 /\ blocks g' = raw_blocks (distSize g 0) /\
     distSize g' = distSize g /\ distsUsed g' = distsUsed g /\
     tcount g' = tcount g) /\
  (T <= tcount g -> forall fuel, initBufs T fuel g = None).
Proof.
  intros Hpr Hnz.
  split; [|intros Hmany fuel; apply initBufs_too_many_threads, Hmany].
  intros Hcount.
  destruct (fill_metrics_cells (Z.to_nat (distsUsed g)) 0 g)
    as (g1 & Hfill & Hsz & Hused & _).
  { intros i Hi. apply Hnz. lia. }
  rewrite (initBufs_unfold T 1 g g1 Hcount Hfill), Hpr.
  cbn [stride_policy adjustSize].
  pose proof (raw_blocks_range (distSize g 0)) as Hr.
  rewrite gcd_Zgcd, Z.gcd_1_r by lia. cbn [Z.ltb Z.compare].
  eexists. split; [reflexivity|].
  cbn [set_sizes blockDiff blocks distSize distsUsed tcount].
  repeat split; try assumption.
  apply (fill_metrics_tcount _ _ _ _ Hfill).
Qed.

Lemma initBufs_sequential_witness :
  (exists g',
     initBufs 2 1 example_dists = Some g' /\
     blockDiff g' = 1 /\ blocks g' = raw_blocks (distSize example_dists 0) /\
     distSize g' = distSize example_dists /\
     distsUsed g' = distsUsed example_dists /\
     tcount g' = tcount example_dists) /\
  initBufs 1 1 example_dists = None.
Proof.
  assert (Hnz : forall d, 0 <= d < distsUsed example_dists ->
                          distSize example_dists d <> 0).
  { change (distsUsed example_dists) with 2. intros d Hd.
    assert (Hc : d = 0 \/ d = 1) by lia.
    destruct Hc as [-> | ->]; vm_compute; discriminate. }
  split.
  - apply (proj1 (initBufs_sequential 2 example_dists eq_refl Hnz)).
    vm_compute. reflexivity.
  - apply (proj2 (initBufs_sequential 1 example_dists eq_refl Hnz)).
    vm_compute. discriminate.
Defined.

Lemma raw_blocks_monotone (x y : Z) :
  0 <= x <= y -> y <= 2 ^ 64 - BLOCKLEN -> raw_blocks x <= raw_blocks y.
Proof.
  intros Hxy Hy. unfold raw_blocks, BLOCKLEN in *.
  rewrite !wrap64_small by lia. apply Z.div_le_mono; lia.
Qed.

(** Block counts grow with the distance and are positive for a positive
    distance. *)
Lemma raw_blocks_bounds (x y : Z) :
  0 < x <= y -> y <= 2 ^ 64 - BLOCKLEN -> 1 <= raw_blocks x <= raw_blocks y.
Proof.
  intros Hxy Hy. split; [|apply raw_blocks_monotone; lia].
  pose proof (raw_blocks_ceiling x ltac:(lia)) as Hup.
  unfold BLOCKLEN in *. lia.
Qed.

(** The cells the metrics loop of [initBufs] has written. *)
Lemma initBufs_metrics_values (T : Z) (fuel : nat) (g g' : globals) (d : Z) :
  (forall i, 0 <= i < distsUsed g -> distSize g i <> 0) ->
  initBufs T fuel g = Some g' ->
  0 <= d < distsUsed g ->
  distIter g' d = distSize g 0 / distSize g d /\
  distBlocks g' d = raw_blocks (distSize g d).
Proof.
  intros Hpos Hrun Hd.
  destruct (fill_metrics_cells (Z.to_nat (distsUsed g)) 0 g)
    as (g1 & Hfill & _ & _ & _ & _ & _ & Hblk & Hit).
  { intros i Hi. apply Hpos. lia. }
  rewrite (initBufs_unfold T fuel g g1 (initBufs_thread_count _ _ _ _ Hrun) Hfill)
    in Hrun.
  destruct (adjustSize fuel _ _) as [b|]; [|discriminate].
  inversion Hrun; subst g'. cbn [set_sizes distIter distBlocks].
  rewrite Hblk, Hit. rewrite Z2Nat.id by lia.
  destruct (Z.leb_spec 0 d), (Z.ltb_spec d (0 + distsUsed g)); try lia.
  cbn [andb]. split; reflexivity.
Qed.

(** The distances of a registry in order are not above the first one. *)
Lemma registry_first_largest (g : globals) (d : Z) :
  registry_ok g -> 0 <= d < distsUsed g -> distSize g d <= distSize g 0.
Proof.
  intros [_ Hsorted] Hd.
  destruct (Z.eq_dec d 0) as [->|]; [lia|].
  specialize (Hsorted 0 d ltac:(lia) ltac:(lia) ltac:(lia)). lia.
Qed.

(** X8 ([initBufs], metrics loop): for a registry built by [addDist] whose
    distances are positive and at most [2^64 - BLOCKLEN], [initBufs] sets
    [distIter[d]] to the integer quotient [distSize[0] / distSize[d]],
    which is at least 1 (exactly 1 for [d = 0]) and satisfies
    [distIter[d] * distSize[d] <= distSize[0] < (distIter[d] + 1) * distSize[d]],
    and [distBlocks[d]] to the block count of [distSize[d]], between 1 and
    the block count of the largest distance. *)
Theorem initBufs_metrics (T : Z) (fuel : nat) (g g' : globals) (d : Z) :
  registry_ok g ->
  (forall i, 0 <= i < distsUsed g -> 0 < distSize g i <= 2 ^ 64 - BLOCKLEN) ->
  initBufs T fuel g = Some g' ->
  0 <= d < distsUsed g ->
  distIter g' d = distSize g 0 / distSize g d /\
  1 <= distIter g' d /\
  distIter g' d * distSize g d <= distSize g 0
    < (distIter g' d + 1) * distSize g d /\
  (d = 0 -> distIter g' d = 1) /\
  distBlocks g' d = raw_blocks (distSize g d) /\
  1 <= distBlocks g' d <= raw_blocks (distSize g 0).
Proof.
  intros Hok Hpos Hrun Hd.
  destruct (initBufs_metrics_values T fuel g g' d) as [Hit Hblk];
    [intros i Hi; specialize (Hpos i Hi); lia | exact Hrun | exact Hd |].
  rewrite Hit, Hblk.
  pose proof (Hpos d Hd) as Hdd. pose proof (Hpos 0 ltac:(lia)) as Hd0.
  pose proof (registry_first_largest g d Hok Hd) as Hle.
  pose proof (Z.div_mod (distSize g 0) (distSize g d) ltac:(lia)) as Hdm.
  pose proof (Z.mod_pos_bound (distSize g 0) (distSize g d) ltac:(lia)) as Hmb.
  assert (Hq : 1 <= distSize g 0 / distSize g d).
  { apply Z.div_le_lower_bound; lia. }
  split; [reflexivity|]. split; [exact Hq|]. split; [nia|]. split.
  - intros ->. apply Z.div_same. lia.
  - split; [reflexivity|]. apply raw_blocks_bounds; lia.
Qed.

Lemma example_dists_ok : registry_ok example_dists.
Proof.
  split; [by_computation|]. intros i j Hi Hij.
  change (distsUsed example_dists) with 2. intros Hj.
  assert (i = 0) by lia. assert (j = 1) by lia. subst. by_computation.
Qed.

Lemma example_dists_positive (i : Z) :
  0 <= i < distsUsed example_dists ->
  0 < distSize example_dists i <= 2 ^ 64 - BLOCKLEN.
Proof.
  change (distsUsed example_dists) with 2. intros Hi.
  assert (Hc : i = 0 \/ i = 1) by lia.
  destruct Hc as [-> | ->]; split; by_computation.
Qed.

Lemma initBufs_metrics_witness :
  distIter example_sized 1 = 4 /\ distBlocks example_sized 1 = 16 /\
  distIter example_sized 1 * distSize example_dists 1 <= distSize example_dists 0.
Proof.
  destruct (initBufs_metrics 2 1 example_dists example_sized 1
              example_dists_ok example_dists_positive)
    as (_ & _ & [Hvol _] & _); [by_computation | split; by_computation |].
  split; [reflexivity|]. split; [reflexivity | exact Hvol].
Defined.

(** The sizes [initBufs] computes for a registry whose largest distance
    is positive and below [2^63], the case of two raw blocks under the
    pseudo-random policy apart. *)
Lemma initBufs_result (T : Z) (fuel : nat) (g g' : globals) :
  0 < distSize g 0 < 2 ^ 63 ->
  ~ (pseudoRandom g = true /\ raw_blocks (distSize g 0) = 2) ->
  initBufs T fuel g = Some g' ->
  normalized g' /\ raw_blocks (distSize g 0) <= blocks g'.
Proof.
  intros Hd0 Hnot Hrun.
  destruct (initBufs_sizes _ _ _ _ Hrun) as [Hdiff Hadj].
  set (raw := raw_blocks (distSize g 0)) in *.
  assert (Hraw : 1 <= raw <= 2 ^ 57).
  { pose proof (raw_blocks_ceiling (distSize g 0)) as Hup.
    unfold BLOCKLEN in Hup. specialize (Hup ltac:(lia)). fold raw in Hup. lia. }
  destruct (stride_policy_range (pseudoRandom g) raw ltac:(lia)) as [Hs0 Hsle].
  rewrite <- Hdiff in Hs0, Hsle.
  assert (Hres : gcd (blocks g') (blockDiff g') = 1 /\
                 raw <= blocks g' < raw + Z.max 1 (blockDiff g')).
  { destruct (Z.eq_dec (blockDiff g') 0) as [E|Hne].
    - assert (Hp : pseudoRandom g = true).
      { destruct (pseudoRandom g); [reflexivity|].
        unfold stride_policy in Hdiff. lia. }
      assert (raw = 1).
      { rewrite Hp in Hdiff. unfold stride_policy in Hdiff.
        rewrite wrap64_small in Hdiff by lia.
        assert (raw * 7 < 17).
        { destruct (Z_lt_le_dec (raw * 7) 17) as [|Hge]; [assumption|].
          pose proof (Z.div_le_lower_bound (raw * 7) 17 1 ltac:(lia) ltac:(lia)). lia. }
        assert (raw <> 2) by (intros E2; apply Hnot; split; assumption).
        lia. }
      assert (Hone : adjustSize 1 raw (blockDiff g') = Some raw).
      { replace raw with 1 by lia. rewrite E. reflexivity. }
      rewrite (adjustSize_deterministic _ _ _ _ _ _ Hadj Hone).
      replace raw with 1 by lia. rewrite E. split; [reflexivity | lia].
    - destruct (adjustSize_positive_stride raw (blockDiff g'))
        as (fuel' & r & Hr & Hbound & Hco); try lia.
      { destruct (pseudoRandom g); [specialize (Hsle eq_refl); lia|].
        unfold stride_policy in Hdiff. lia. }
      rewrite (adjustSize_deterministic _ _ _ _ _ _ Hadj Hr).
      split; [exact Hco | lia]. }
  destruct Hres as [Hco Hb]. split; [|lia].
  apply (initBufs_normalized T fuel g g' Hrun Hco); [lia|].
  assert (blockDiff g' <= raw).
  { destruct (pseudoRandom g); [apply Hsle; reflexivity|].
    unfold stride_policy in Hdiff. lia. }
  unfold BLOCKLEN. lia.
Qed.

(** X9 ([initBufs] followed by [init_memory_per_thread]): with a thread
    count below [DISTGEN_MAXTHREADS], for a registry without a distance 0
    whose largest distance is below 2^63 bytes, leaving aside the
    pseudo-random policy on 2 blocks (stride 0), [initBufs] passes its
    asserts and returns a normalized pair with at least the block count
    of the largest distance, and the builder (allocation taken to succeed)
    passes its asserts on it and leaves a linked buffer. *)
Theorem initBufs_sets_up {F : Type} `{Payload F} (T : Z) (g : globals) :
  tcount g < T ->
  (forall i, 0 <= i < distsUsed g -> distSize g i <> 0) ->
  0 < distSize g 0 < 2 ^ 63 ->
  ~ (pseudoRandom g = true /\ raw_blocks (distSize g 0) = 2) ->
  exists fuel g' (b : gmap Z (entry F)),
    initBufs T fuel g = Some g' /\
    normalized g' /\
    raw_blocks (distSize g 0) <= blocks g' /\
    init_memory_per_thread g' = Some b /\
    linked g' b.
Proof.
  intros Hcount Hnz Hd0 Hnot.
  destruct (fill_metrics_cells (Z.to_nat (distsUsed g)) 0 g) as (g1 & Hfill & _).
  { intros i Hi. apply Hnz. lia. }
  pose proof (raw_blocks_range (distSize g 0)) as Hraw.
  destruct (adjustSize_terminates (raw_blocks (distSize g 0))
              (stride_policy (pseudoRandom g) (raw_blocks (distSize g 0))))
    as (fuel & r & Hr); [lia | apply stride_policy_range; lia |].
  assert (Hrun : initBufs T fuel g
                 = Some (set_sizes g1 r
                           (stride_policy (pseudoRandom g) (raw_blocks (distSize g 0))))).
  { rewrite (initBufs_unfold T fuel g g1 Hcount Hfill), Hr. reflexivity. }
  destruct (initBufs_result T fuel g _ Hd0 Hnot Hrun) as [Hnorm Hle].
  destruct (init_memory_succeeds _ Hnorm) as (b & Hb & _).
  eexists fuel, _, b. split; [exact Hrun|]. split; [exact Hnorm|].
  split; [exact Hle|]. split; [exact Hb|].
  apply (built_linked _ Hnorm b Hb).
Qed.

Lemma initBufs_sets_up_witness :
  exists fuel g' (b : gmap Z (entry Z)),
    initBufs 2 fuel example_random = Some g' /\
    normalized g' /\
    raw_blocks (distSize example_random 0) <= blocks g' /\
    init_memory_per_thread g' = Some b /\
    linked g' b.
Proof.
  apply (@initBufs_sets_up Z int_payload 2 example_random).
  - by_computation.
  - change (distsUsed example_random) with 1. intros i Hi.
    assert (i = 0) by lia. subst. by_computation.
  - split; by_computation.
  - intros [_ E]. revert E. by_computation.
Defined.

(** X10 ([initBufs]): for a registry built by [addDist] whose distances
    are positive and whose largest distance is below 2^63 bytes, leaving
    aside the pseudo-random policy on 2 blocks (stride 0), a completed
    [initBufs] leaves for every distance a sweep of [distBlocks[d]]
    accesses that fits the buffer, [1 <= distBlocks[d] <= blocks], and
    whose offsets are pairwise different. *)
Theorem initBufs_sweeps_within_buffer (T : Z) (fuel : nat) (g g' : globals) (d : Z) :
  registry_ok g ->
  (forall i, 0 <= i < distsUsed g -> 0 < distSize g i) ->
  distSize g 0 < 2 ^ 63 ->
  ~ (pseudoRandom g = true /\ raw_blocks (distSize g 0) = 2) ->
  initBufs T fuel g = Some g' ->
  0 <= d < distsUsed g ->
  1 <= distBlocks g' d <= blocks g' /\
  List.NoDup (seq_offsets g' (Z.to_nat (distBlocks g' d)) 0).
Proof.
  intros Hok Hpos Hd0 Hnot Hrun Hd.
  destruct (initBufs_metrics_values T fuel g g' d) as [_ Hval];
    [intros i Hi; specialize (Hpos i Hi); lia | exact Hrun | exact Hd |].
  assert (Hblk : 1 <= distBlocks g' d <= raw_blocks (distSize g 0)).
  { rewrite Hval. pose proof (registry_first_largest g d Hok Hd).
    specialize (Hpos d Hd).
    apply raw_blocks_bounds; unfold BLOCKLEN; lia. }
  destruct (initBufs_result T fuel g g' ltac:(specialize (Hpos 0 ltac:(lia)); lia)
              Hnot Hrun) as [Hnorm Hle].
  split; [lia|].
  change 0 with (seq_idx g' 0) at 1.
  rewrite (seq_offsets_map g' _ 0%nat).
  apply seq_idx_NoDup; [exact Hnorm | lia].
Qed.

Lemma initBufs_sweeps_within_buffer_witness :
  1 <= distBlocks example_sized 1 <= blocks example_sized /\
  List.NoDup (seq_offsets example_sized (Z.to_nat (distBlocks example_sized 1)) 0).
Proof.
  apply (initBufs_sweeps_within_buffer 2 1 example_dists example_sized 1).
  - exact example_dists_ok.
  - intros i Hi. apply (example_dists_positive i Hi).
  - by_computation.
  - intros [E _]. revert E. by_computation.
  - by_computation.
  - split; by_computation.
Defined.

(* ================================================================== *)
(** * Further results on the distance registry *)

Lemma In_registered (g : globals) (x : Z) :
  In x (registered g) <-> exists i, 0 <= i < distsUsed g /\ distSize g i = x.
Proof.
  unfold registered. rewrite in_map_iff. split.
  - intros (i & E & Hi). exists i. split; [|exact E].
    apply list_elem_of_In, elem_of_seqZ in Hi. lia.
  - intros (i & Hi & E). exists i. split; [exact E|].
    apply list_elem_of_In, elem_of_seqZ. lia.
Qed.

(** The distances after one completed call. *)
Lemma addDist_members (M size : Z) (g g' : globals) (tr : list access) :
  0 <= distsUsed g ->
  addDist M size g = Some (g', tr) ->
  forall x, In x (registered g') <-> x = size \/ In x (registered g).
Proof.
  intros Hn Hrun.
  destruct (addDist_cases _ _ _ _ _ Hn Hrun)
    as [[-> Hreg] | (Hcap & Hused & d & Hd & Hbefore & Hat & Hnew)].
  - apply In_registered in Hreg.
    intros x. split; [auto|]. intros [-> | Hx]; assumption.
  - intros x. rewrite !In_registered. split.
    + intros (i & Hi & E). rewrite Hnew in E.
      destruct (Z.eqb_spec i d); [left; congruence|].
      destruct (Z.ltb_spec d i), (Z.leb_spec i (distsUsed g)); cbn [andb] in E;
        try lia; right; [exists (i - 1) | exists i]; split; try exact E; lia.
    + intros [-> | (i & Hi & E)].
      * exists d. split; [lia|]. rewrite Hnew, Z.eqb_refl. reflexivity.
      * destruct (Z_lt_le_dec i d).
        -- exists i. split; [lia|]. rewrite Hnew.
           destruct (Z.eqb_spec i d); [lia|].
           destruct (Z.ltb_spec d i); [lia|]. exact E.
        -- exists (i + 1). split; [lia|]. rewrite Hnew.
           destruct (Z.eqb_spec (i + 1) d); [lia|].
           destruct (Z.ltb_spec d (i + 1)), (Z.leb_spec (i + 1) (distsUsed g));
             cbn [andb]; try lia.
           replace (i + 1 - 1) with i by lia. exact E.
Qed.

(** X11 ([addDist]): a completed [addDist(size)] on a registry built by
    [addDist] leaves exactly the old distances and [size]; if [size] was
    registered the state is unchanged, otherwise [distsUsed] grows by 1. *)
Theorem addDist_registers (M size : Z) (g g' : globals) (tr : list access) :
  registry_ok g ->
  addDist M size g = Some (g', tr) ->
  (forall x, In x (registered g') <-> x = size \/ In x (registered g)) /\
  (In size (registered g) -> g' = g) /\
  (~ In size (registered g) -> distsUsed g' = distsUsed g + 1).
Proof.
  intros [Hn Hsorted] Hrun.
  split; [exact (addDist_members M size g g' tr Hn Hrun)|].
  destruct (addDist_cases _ _ _ _ _ Hn Hrun)
    as [[-> Hreg] | (Hcap & Hused & d & Hd & Hbefore & Hat & Hnew)].
  - apply In_registered in Hreg. split; [reflexivity|].
    intros Hno. contradiction.
  - split; [|intros _; exact Hused].
    intros Hreg. exfalso. apply In_registered in Hreg.
    destruct Hreg as (i & Hi & E).
    destruct (Z_lt_le_dec i d) as [Hlt|Hge].
    + specialize (Hbefore i ltac:(lia)). lia.
    + specialize (Hat ltac:(lia)).
      destruct (Z.eq_dec i d) as [->|]; [lia|].
      specialize (Hsorted d i ltac:(lia) ltac:(lia) ltac:(lia)). lia.
Qed.

Lemma addDist_registers_witness :
  exists g' tr,
    addDist 10 2048 example_registry = Some (g', tr) /\
    registered g' = [4096; 2048; 1024] /\
    (forall x, In x (registered g') <-> x = 2048 \/ In x (registered example_registry)).
Proof.
  destruct (addDist 10 2048 example_registry) as [[g' tr]|] eqn:Hrun;
    [|revert Hrun; by_computation].
  exists g', tr. split; [reflexivity|]. split.
  - revert Hrun. vm_compute. intros Hrun. inversion Hrun. reflexivity.
  - apply (addDist_registers 10 2048 example_registry g' tr); [|exact Hrun].
    split; [by_computation|]. intros i j Hi Hij.
    change (distsUsed example_registry) with 2. intros Hj.
    assert (i = 0) by lia. assert (j = 1) by lia. subst. by_computation.
Defined.

Lemma addDists_registered (M : Z) (sizes : list Z) :
  forall g g',
    registry_ok g -> addDists M sizes g = Some g' ->
    forall x, In x (registered g') <-> In x sizes \/ In x (registered g).
Proof.
  induction sizes as [|s rest IH]; intros g g' Hok Hrun x; cbn [addDists] in Hrun.
  - inversion Hrun; subst. cbn [In]. tauto.
  - destruct (addDist M s g) as [[g1 tr]|] eqn:Ha; [|discriminate].
    rewrite (IH g1 g' (addDist_keeps_order _ _ _ _ _ Hok Ha) Hrun x).
    rewrite (addDist_members _ _ _ _ _ (proj1 Hok) Ha). cbn [In]. intuition congruence.
Qed.

Lemma empty_registered (g : globals) : distsUsed g = 0 -> registered g = [].
Proof. intros E. unfold registered. rewrite E. reflexivity. Qed.

(** Two strictly descending registries holding the same values hold them
    in the same cells. *)
Lemma descending_unique (g1 g2 : globals) :
  registry_ok g1 -> registry_ok g2 ->
  (forall x, In x (registered g1) <-> In x (registered g2)) ->
  distsUsed g1 = distsUsed g2 /\
  forall i, 0 <= i < distsUsed g1 -> distSize g1 i = distSize g2 i.
Proof.
  intros [Hn1 Hs1] [Hn2 Hs2] Hmem.
  assert (Hle : forall ga gb,
             0 <= distsUsed ga -> strictly_descending ga ->
             0 <= distsUsed gb -> strictly_descending gb ->
             (forall x, In x (registered ga) -> In x (registered gb)) ->
             forall i, 0 <= i < distsUsed ga ->
               (forall i', 0 <= i' < i -> i' < distsUsed gb /\
                                         distSize ga i' = distSize gb i') ->
               i < distsUsed gb /\ distSize ga i <= distSize gb i).
  { intros ga gb Hna Hsa Hnb Hsb Hsub i Hi Hprev.
    assert (Hin : In (distSize ga i) (registered gb)).
    { apply Hsub, In_registered. exists i. split; [lia | reflexivity]. }
    apply In_registered in Hin. destruct Hin as (j & Hj & E).
    destruct (Z_lt_le_dec j i) as [Hlt|Hge].
    - destruct (Hprev j ltac:(lia)) as [_ Ej].
      specialize (Hsa j i ltac:(lia) ltac:(lia) ltac:(lia)). lia.
    - split; [lia|].
      destruct (Z.eq_dec j i) as [->|]; [lia|].
      specialize (Hsb i j ltac:(lia) ltac:(lia) ltac:(lia)). lia. }
  assert (Hpt : forall n : nat, forall i, Z.of_nat n = i ->
             (i < distsUsed g1 \/ i < distsUsed g2) ->
             i < distsUsed g1 /\ i < distsUsed g2 /\
             distSize g1 i = distSize g2 i).
  { induction n as [n IH] using lt_wf_ind. intros i Hni Hlt.
    assert (Hprev12 : forall i', 0 <= i' < i ->
               i' < distsUsed g2 /\ distSize g1 i' = distSize g2 i').
    { intros i' Hi'.
      assert (Hor : i' < distsUsed g1 \/ i' < distsUsed g2) by (destruct Hlt; lia).
      destruct (IH (Z.to_nat i') ltac:(lia) i' ltac:(lia) Hor) as (_ & ? & ?).
      split; assumption. }
    assert (Hprev21 : forall i', 0 <= i' < i ->
               i' < distsUsed g1 /\ distSize g2 i' = distSize g1 i').
    { intros i' Hi'.
      assert (Hor : i' < distsUsed g1 \/ i' < distsUsed g2) by (destruct Hlt; lia).
      destruct (IH (Z.to_nat i') ltac:(lia) i' ltac:(lia) Hor) as (? & _ & ?).
      split; [assumption | congruence]. }
    destruct Hlt as [H1|H2].
    - destruct (Hle g1 g2 Hn1 Hs1 Hn2 Hs2 (fun x => proj1 (Hmem x)) i
                  ltac:(lia) Hprev12) as [Hb Hle12].
      destruct (Hle g2 g1 Hn2 Hs2 Hn1 Hs1 (fun x => proj2 (Hmem x)) i
                  ltac:(lia) Hprev21) as [_ Hle21].
      repeat split; lia.
    - destruct (Hle g2 g1 Hn2 Hs2 Hn1 Hs1 (fun x => proj2 (Hmem x)) i
                  ltac:(lia) Hprev21) as [Hb Hle21].
      destruct (Hle g1 g2 Hn1 Hs1 Hn2 Hs2 (fun x => proj1 (Hmem x)) i
                  ltac:(lia) Hprev12) as [_ Hle12].
      repeat split; lia. }
  split.
  - destruct (Z.lt_trichotomy (distsUsed g1) (distsUsed g2)) as [Hlt | [E | Hgt]];
      [|exact E|].
    + destruct (Hpt (Z.to_nat (distsUsed g1)) (distsUsed g1) ltac:(lia) ltac:(lia)).
      lia.
    + destruct (Hpt (Z.to_nat (distsUsed g2)) (distsUsed g2) ltac:(lia) ltac:(lia))
        as (_ & ? & _). lia.
  - intros i Hi.
    destruct (Hpt (Z.to_nat i) i ltac:(lia) ltac:(lia)) as (_ & _ & E). exact E.
Qed.

(** X12 ([addDist]): the registry reached from an empty one depends only
    on the set of sizes registered, not on their order or repetitions: it
    holds exactly the sizes passed, and two sequences of calls with the
    same elements leave the same list of distances. *)
Theorem registry_independent_of_order (M : Z) (sizes1 sizes2 : list Z)
    (a b g1 g2 : globals) :
  distsUsed a = 0 -> distsUsed b = 0 ->
  (forall x, In x sizes1 <-> In x sizes2) ->
  addDists M sizes1 a = Some g1 ->
  addDists M sizes2 b = Some g2 ->
  (forall x, In x (registered g1) <-> In x sizes1) /\
  registered g1 = registered g2.
Proof.
  intros Ha Hb Hsame H1 H2.
  pose proof (addDists_keeps_order M sizes1 a g1 (empty_registry_ok a Ha) H1) as Hok1.
  pose proof (addDists_keeps_order M sizes2 b g2 (empty_registry_ok b Hb) H2) as Hok2.
  assert (Hm1 : forall x, In x (registered g1) <-> In x sizes1).
  { intros x. rewrite (addDists_registered M sizes1 a g1 (empty_registry_ok a Ha) H1).
    rewrite (empty_registered a Ha). cbn [In]. tauto. }
  assert (Hm2 : forall x, In x (registered g2) <-> In x sizes2).
  { intros x. rewrite (addDists_registered M sizes2 b g2 (empty_registry_ok b Hb) H2).
    rewrite (empty_registered b Hb). cbn [In]. tauto. }
  split; [exact Hm1|].
  destruct (descending_unique g1 g2 Hok1 Hok2) as [Hused Hcells].
  { intros x. rewrite Hm1, Hm2. apply Hsame. }
  unfold registered. rewrite <- Hused.
  apply map_ext_in. intros i Hi.
  apply list_elem_of_In, elem_of_seqZ in Hi. apply Hcells. lia.
Qed.

Lemma registry_independent_of_order_witness :
  exists g1 g2,
    addDists 10 [1024; 4096; 2048] (globals0 false) = Some g1 /\
    addDists 10 [4096; 2048; 4096; 1024] (globals0 true) = Some g2 /\
    registered g1 = registered g2.
Proof.
  eexists _, _. split; [vm_compute; reflexivity|]. split; [vm_compute; reflexivity|].
  eapply (registry_independent_of_order 10 [1024; 4096; 2048] [4096; 2048; 4096; 1024]
            (globals0 false) (globals0 true)); try (vm_compute; reflexivity).
  intros x. cbn [In]. intuition congruence.
Defined.

(** X13 ([addDist], capacity assert): on a registry built by [addDist] a
    call fails exactly when the registry holds [MAXDISTCOUNT] distances
    (or more) and the size is not among them; a registered size is
    accepted by a full registry. *)
Theorem addDist_fails_when_full (M size : Z) (g : globals) :
  registry_ok g ->
  (addDist M size g = None <->
   M <= distsUsed g /\ ~ In size (registered g)).
Proof.
  intros Hok. split.
  - intros Hnone. split.
    + destruct (Z_lt_le_dec (distsUsed g) M) as [Hlt|]; [|assumption].
      exfalso. unfold addDist in Hnone.
      destruct (search _ _ _ _) as [[|d] tr1]; [discriminate|].
      destruct (Z.ltb_spec (distsUsed g) M); [|lia].
      destruct (shift _ _ _); discriminate.
    + intros Hin. apply In_registered in Hin.
      destruct (addDist_registered M size g Hok Hin) as [tr Hrun]. congruence.
  - intros [Hfull Hno]. unfold addDist.
    destruct (search (Z.to_nat (distsUsed g)) 0 size (distSize g)) as [r tr1] eqn:Hs.
    pose proof (search_spec _ _ _ _ _ _ Hs) as Hspec.
    destruct Hok as [Hn _]. rewrite Z2Nat.id in Hspec by lia.
    destruct r as [|d].
    + exfalso. apply Hno, In_registered.
      destruct Hspec as (i & Hi & E). exists i. split; [lia | exact E].
    + destruct (Z.ltb_spec (distsUsed g) M); [lia | reflexivity].
Qed.

Lemma addDist_fails_when_full_witness :
  addDist 2 2048 example_registry = None /\
  exists tr, addDist 2 4096 example_registry = Some (example_registry, tr).
Proof.
  assert (Hok : registry_ok example_registry).
  { split; [by_computation|]. intros i j Hi Hij.
    change (distsUsed example_registry) with 2. intros Hj.
    assert (i = 0) by lia. assert (j = 1) by lia. subst. by_computation. }
  split.
  - apply (proj2 (addDist_fails_when_full 2 2048 example_registry Hok)).
    split; [by_computation|].
    change (registered example_registry) with [4096; 1024].
    cbn [In]. intros [E | [E | []]]; discriminate.
  - eexists. by_computation.
Defined.

(** The registry never holds more than [MAXDISTCOUNT] distances. *)
Lemma addDists_within_capacity (M : Z) (sizes : list Z) :
  forall g g',
    0 <= distsUsed g <= M -> addDists M sizes g = Some g' ->
    0 <= distsUsed g' <= M.
Proof.
  induction sizes as [|s rest IH]; intros g g' Hc Hrun; cbn [addDists] in Hrun.
  - inversion Hrun; subst. exact Hc.
  - destruct (addDist M s g) as [[g1 tr]|] eqn:Ha; [|discriminate].
    apply (IH g1 g'); [|exact Hrun].
    destruct (addDist_cases _ _ _ _ _ (proj1 Hc) Ha) as [[-> _] | (? & ? & _)]; lia.
Qed.

(** X14 ([addDist]): after registering a non-empty sequence of sizes into
    an empty registry, [distsUsed] is between 1 and [MAXDISTCOUNT] and
    [distSize[0]], the distance [initBufs] sizes the buffer by, is the
    largest size registered. *)
Theorem largest_distance_first (M : Z) (sizes : list Z) (g0 g : globals) :
  distsUsed g0 = 0 -> 0 <= M ->
  addDists M sizes g0 = Some g ->
  sizes <> [] ->
  1 <= distsUsed g <= M /\
  In (distSize g 0) sizes /\
  forall x, In x sizes -> x <= distSize g 0.
Proof.
  intros Hempty HM Hrun Hne.
  pose proof (addDists_keeps_order M sizes g0 g (empty_registry_ok g0 Hempty) Hrun)
    as [Hn Hsorted].
  assert (Hmem : forall x, In x (registered g) <-> In x sizes).
  { intros x. rewrite (addDists_registered M sizes g0 g (empty_registry_ok g0 Hempty) Hrun).
    rewrite (empty_registered g0 Hempty). cbn [In]. tauto. }
  pose proof (addDists_within_capacity M sizes g0 g ltac:(lia) Hrun) as Hcap.
  assert (Hpos : 1 <= distsUsed g).
  { destruct sizes as [|s rest]; [contradiction|].
    assert (Hin : In s (registered g)) by (apply Hmem; left; reflexivity).
    apply In_registered in Hin. destruct Hin as (i & Hi & _). lia. }
  split; [lia|]. split.
  - apply Hmem, In_registered. exists 0. split; [lia | reflexivity].
  - intros x Hx. apply Hmem, In_registered in Hx. destruct Hx as (i & Hi & <-).
    destruct (Z.eq_dec i 0) as [->|]; [lia|].
    specialize (Hsorted 0 i ltac:(lia) ltac:(lia) ltac:(lia)). lia.
Qed.

Lemma largest_distance_first_witness :
  exists g, addDists 10 [1024; 4096; 2048] (globals0 false) = Some g /\
            distSize g 0 = 4096 /\
            forall x, In x [1024; 4096; 2048] -> x <= distSize g 0.
Proof.
  eexists. split; [vm_compute; reflexivity|]. split; [vm_compute; reflexivity|].
  eapply (largest_distance_first 10 [1024; 4096; 2048] (globals0 false));
    try (vm_compute; reflexivity).
  - lia.
  - discriminate.
Defined.

(* ================================================================== *)
(** * Further results on the dependency-chain builder *)

Section SizedIndices.
Variable g : globals.
Hypothesis Hsized : sized g.

Lemma sized_idxMax : idxMax g = 4 * blocks g.
Proof.
  destruct Hsized as (? & ? & Hov). unfold idxMax, sizeof_entry.
  unfold BLOCKLEN in *. rewrite wrap64_small by lia.
  replace (blocks g * 64) with (4 * blocks g * 16) by lia.
  apply Z.div_mul. lia.
Qed.

Lemma sized_idxIncr : idxIncr g = 4 * blockDiff g.
Proof.
  destruct Hsized as (? & ? & Hov). unfold idxIncr, sizeof_entry.
  unfold BLOCKLEN in *. rewrite wrap64_small by lia.
  replace (blockDiff g * 64) with (4 * blockDiff g * 16) by lia.
  apply Z.div_mul. lia.
Qed.

Lemma sized_next_idx (idx : Z) :
  0 <= idx < idxMax g ->
  next_idx g idx = (idx + idxIncr g) mod idxMax g.
Proof.
  intros Hi. unfold next_idx.
  pose proof sized_idxMax as HM. pose proof sized_idxIncr as HI.
  destruct Hsized as (? & ? & Hov). unfold BLOCKLEN in Hov.
  rewrite (wrap64_small (idx + idxIncr g)) by lia.
  destruct (Z.leb_spec (idxMax g) (idx + idxIncr g)).
  - rewrite wrap64_small by lia.
    apply Z.mod_unique_pos with (q := 1); lia.
  - symmetry. apply Z.mod_small. lia.
Qed.

Lemma sized_seq_idx (j : nat) :
  seq_idx g j = (idxIncr g * Z.of_nat j) mod idxMax g.
Proof.
  pose proof sized_idxMax as HM. destruct Hsized as (? & _).
  induction j as [|j IH].
  - simpl. rewrite Z.mul_0_r. symmetry. apply Z.mod_0_l. lia.
  - cbn [seq_idx]. rewrite sized_next_idx.
    + rewrite IH, Zplus_mod_idemp_l. f_equal. lia.
    + rewrite IH. apply Z.mod_pos_bound. lia.
Qed.

(** With a common divisor the sequence is back at 0 before [blocks] steps. *)
Lemma sized_early_return :
  gcd (blocks g) (blockDiff g) <> 1 ->
  exists k : nat, (0 < k < Z.to_nat (blocks g))%nat /\ seq_idx g k = 0.
Proof.
  intros Hg. destruct Hsized as (HB & HS & _).
  rewrite gcd_Zgcd in Hg by lia.
  set (d := Z.gcd (blocks g) (blockDiff g)) in *.
  assert (Hd : 1 < d).
  { pose proof (Z.gcd_nonneg (blocks g) (blockDiff g)).
    assert (d <> 0) by (intros E; apply Z.gcd_eq_0_l in E; lia).
    lia. }
  destruct (Z.gcd_divide_l (blocks g) (blockDiff g)) as [b' Hb'].
  destruct (Z.gcd_divide_r (blocks g) (blockDiff g)) as [s' Hs'].
  fold d in Hb', Hs'.
  assert (0 < b' < blocks g) by nia.
  exists (Z.to_nat b'). split; [lia|].
  rewrite sized_seq_idx, sized_idxMax, sized_idxIncr, Z2Nat.id by lia.
  replace (4 * blockDiff g * b') with (s' * (4 * blocks g)) by nia.
  apply Z.mod_mul. lia.
Qed.
End SizedIndices.

Section LinkLoop.
Context {F : Type} `{Payload F}.
Variable g : globals.

Lemma seq_idx_iter (j : nat) : seq_idx g j = Nat.iter j (next_idx g) 0.
Proof. induction j as [|j IH]; [reflexivity|]. cbn [seq_idx Nat.iter]. rewrite IH. reflexivity. Qed.

(** An entry that carries a link when the loop starts is not among the
    entries a completed loop assigns. *)
Lemma link_blocks_skips_linked (n : nat) :
  forall idx (b b' : gmap Z (entry F)) x,
    link_blocks g n idx b = Some b' ->
    (exists e q, b !! x = Some e /\ next e = Some q) ->
    forall k, (k < n)%nat -> x <> Nat.iter k (next_idx g) idx.
Proof.
  induction n as [|n IH]; intros idx b b' x Hrun (e & q & Hx & Hq) k Hk; [lia|].
  cbn [link_blocks] in Hrun.
  destruct (b !! idx) as [e0|] eqn:Hidx; [|discriminate].
  destruct (next e0) as [q0|] eqn:Hn0; [discriminate|].
  assert (Hne : x <> idx) by (intros ->; congruence).
  destruct k as [|k]; [exact Hne|].
  rewrite Nat.iter_succ_r.
  apply (IH _ _ _ x Hrun); [|lia].
  exists e, q. split; [|exact Hq]. rewrite lookup_insert_ne by congruence. exact Hx.
Qed.

(** A completed loop meets its first entry only once. *)
Lemma link_blocks_first_once (n : nat) (idx : Z) (b b' : gmap Z (entry F)) :
  link_blocks g (S n) idx b = Some b' ->
  forall k, (0 < k <= n)%nat -> idx <> Nat.iter k (next_idx g) idx.
Proof.
  intros Hrun k Hk. cbn [link_blocks] in Hrun.
  destruct (b !! idx) as [e0|] eqn:Hidx; [|discriminate].
  destruct (next e0) as [q0|] eqn:Hn0; [discriminate|].
  destruct k as [|k]; [lia|]. rewrite Nat.iter_succ_r.
  apply (link_blocks_skips_linked _ _ _ _ idx Hrun); [|lia].
  eexists _, _. split; [apply lookup_insert_eq | reflexivity].
Qed.
End LinkLoop.

(** X15 ([init_memory_per_thread]): for [1 <= blocks], [blockDiff <= blocks]
    and a buffer size that fits in 64 bits, the builder (allocation taken
    to succeed) passes every [assert(buf[idx].next == 0)] exactly when
    [blocks] and [blockDiff] are coprime: with a common divisor the link
    loop comes back to entry 0 before [blocks] steps. *)
Theorem builder_succeeds_iff_coprime {F : Type} `{Payload F} (g : globals) :
  sized g ->
  ((exists b : gmap Z (entry F), init_memory_per_thread g = Some b) <->
   gcd (blocks g) (blockDiff g) = 1).
Proof.
  intros Hsized. split.
  - intros [b Hb].
    destruct (Z.eq_dec (gcd (blocks g) (blockDiff g)) 1) as [E|Hne]; [exact E|].
    exfalso.
    destruct (sized_early_return g Hsized Hne) as (k & Hk & Hzero).
    unfold init_memory_per_thread in Hb.
    replace (Z.to_nat (blocks g)) with (S (Z.to_nat (blocks g) - 1)) in Hb by lia.
    apply (link_blocks_first_once g _ _ _ _ Hb k); [lia|].
    rewrite <- seq_idx_iter. symmetry. exact Hzero.
  - intros Hco.
    assert (Hnorm : normalized g).
    { destruct Hsized as (? & ? & ?). repeat split; assumption || lia. }
    destruct (init_memory_succeeds g Hnorm) as (b & Hb & _).
    exists b. exact Hb.
Qed.

Lemma builder_succeeds_iff_coprime_witness :
  (exists b : gmap Z (entry Z),
     init_memory_per_thread (set_sizes (globals0 false) 17 7) = Some b) /\
  ~ (exists b : gmap Z (entry Z),
       init_memory_per_thread (set_sizes (globals0 false) 6 4) = Some b).
Proof.
  split.
  - apply (@builder_succeeds_iff_coprime Z int_payload (set_sizes (globals0 false) 17 7)).
    + repeat split; by_computation.
    + by_computation.
  - intros Hb.
    apply (@builder_succeeds_iff_coprime Z int_payload (set_sizes (globals0 false) 6 4))
      in Hb.
    + revert Hb. by_computation.
    + repeat split; by_computation.
Defined.

Lemma next_idx_block_start (g : globals) (k : Z) :
  normalized g -> 0 <= k < blocks g ->
  next_idx g (block_start k) = block_start ((k + blockDiff g) mod blocks g).
Proof.
  intros Hnorm Hk. pose proof (idxMax_eq g Hnorm) as HM.
  unfold block_start. change (BLOCKLEN / sizeof_entry) with 4.
  rewrite (next_idx_eq g Hnorm) by lia.
  rewrite HM, (idxIncr_eq g Hnorm).
  replace (k * 4 + 4 * blockDiff g) with (4 * (k + blockDiff g)) by lia.
  rewrite Z.mul_mod_distr_l by lia. lia.
Qed.

(** X16 ([init_memory_per_thread]): the buffer built for a normalized
    pair has exactly the entries [0 .. idxMax - 1] with
    [idxMax = blocks * BLOCKLEN / sizeof(entry)]; entry [i] holds the
    payload [(double) i]; and the first entry of block [k] is linked to
    the first entry of block [(k + blockDiff) mod blocks]. *)
Theorem built_buffer_contents {F : Type} `{Payload F}
    (g : globals) (b : gmap Z (entry F)) :
  normalized g ->
  init_memory_per_thread g = Some b ->
  idxMax g = blocks g * (BLOCKLEN / sizeof_entry) /\
  (forall i, b !! i = None <-> ~ 0 <= i < idxMax g) /\
  (forall i e, b !! i = Some e -> v e = of_u64 i) /\
  (forall k, 0 <= k < blocks g ->
     exists e, b !! block_start k = Some e /\
               next e = Some (block_start ((k + blockDiff g) mod blocks g))).
Proof.
  intros Hnorm Hb.
  destruct (built_upto g Hnorm b Hb) as [Hdone Hrest].
  assert (Hcell : forall i e,
             b !! i = Some e -> v e = of_u64 i /\ 0 <= i < idxMax g).
  { intros i e He.
    destruct (seq_idx_among g i (Z.to_nat (blocks g))) as [(j & Hj & E) | Hno].
    - pose proof (seq_idx_range g Hnorm j) as Hr. rewrite <- E in Hr.
      subst i. rewrite (Hdone j Hj) in He. inversion He; subst.
      split; [reflexivity | lia].
    - rewrite (Hrest i Hno) in He. unfold fresh_buffer in He.
      rewrite init_entries_lookup in He.
      rewrite Z.add_0_l, Z2Nat.id in He
        by (rewrite (idxMax_eq g Hnorm); destruct Hnorm; lia).
      destruct (Z.leb_spec 0 i), (Z.ltb_spec i (idxMax g)); cbn [andb] in He;
        try (rewrite lookup_empty in He; discriminate).
      inversion He; subst. split; [reflexivity | lia]. }
  split; [rewrite (idxMax_eq g Hnorm); change (BLOCKLEN / sizeof_entry) with 4; lia|].
  split; [|split].
  - intros i. split.
    + intros Hnone [Hlo Hhi].
      destruct (seq_idx_among g i (Z.to_nat (blocks g))) as [(j & Hj & E) | Hno].
      * subst i. rewrite (Hdone j Hj) in Hnone. discriminate.
      * rewrite (Hrest i Hno), (fresh_buffer_lookup g i) in Hnone by lia.
        discriminate.
    + intros Hout. destruct (b !! i) as [e|] eqn:He; [|reflexivity].
      destruct (Hcell i e He) as [_ Hin]. contradiction.
  - intros i e He. apply (Hcell i e He).
  - intros k Hk.
    destruct (seq_idx_onto g Hnorm k Hk) as (j & Hj & E).
    eexists. rewrite <- E. split; [apply Hdone; lia|]. cbn [next seq_idx].
    rewrite E, (next_idx_block_start g k Hnorm Hk). reflexivity.
Qed.

Lemma built_buffer_contents_witness :
  idxMax example_random_sized = 68 /\
  example_random_buffer !! 68 = None /\
  exists e, example_random_buffer !! block_start 12 = Some e /\
            next e = Some (block_start 2).
Proof.
  destruct (@built_buffer_contents Z int_payload example_random_sized
              example_random_buffer example_random_normalized)
    as (Hmax & Hdom & _ & Hlink); [by_computation|].
  split; [rewrite Hmax; reflexivity|]. split.
  - apply Hdom. rewrite Hmax. vm_compute. intros [_ Hlt]. discriminate.
  - destruct (Hlink 12) as (e & He & Hn); [split; by_computation|].
    exists e. split; [exact He|]. rewrite Hn. reflexivity.
Defined.

(* ================================================================== *)
(** * Further results on the benchmark executor *)

Section BenchMore.
Context {F : Type} `{Payload F}.
Variable g : globals.

(** ** Links and allocation *)

Lemma same_links_store (b : gmap Z (entry F)) (i : Z) (e : entry F) (x : F) :
  b !! i = Some e -> same_links (<[i := Entry x (next e)]> b) b.
Proof.
  intros Hi j. rewrite lookup_insert.
  destruct (decide (i = j)) as [<-|]; [rewrite Hi|]; reflexivity.
Qed.

Lemma same_links_trans (b1 b2 b3 : gmap Z (entry F)) :
  same_links b1 b2 -> same_links b2 b3 -> same_links b1 b3.
Proof. intros H12 H23 i. rewrite H12. apply H23. Qed.

Lemma seq_write_links (n : nat) :
  forall idx st st', seq_write g n idx st = Some st' -> same_links (buf st') (buf st).
Proof.
  induction n as [|n IH]; intros idx st st' Hrun; cbn [seq_write] in Hrun.
  - inversion Hrun; subst. intros i. reflexivity.
  - destruct (buf st !! idx) as [e|] eqn:He; [|discriminate].
    eapply same_links_trans; [apply (IH _ _ _ Hrun)|].
    cbn [accum store buf next]. apply same_links_store, He.
Qed.

Lemma chain_write_links (n : nat) :
  forall p st st', chain_write n p st = Some st' -> same_links (buf st') (buf st).
Proof.
  induction n as [|n IH]; intros p st st' Hrun; cbn [chain_write] in Hrun.
  - inversion Hrun; subst. intros i. reflexivity.
  - destruct p as [i|]; [|discriminate].
    destruct (buf st !! i) as [e|] eqn:He; [|discriminate].
    eapply same_links_trans; [apply (IH _ _ _ Hrun)|].
    cbn [accum store buf].
    eapply same_links_trans; [|apply (same_links_store _ i e (fadd (v e) f_one) He)].
    apply (same_links_store _ i (Entry (fadd (v e) f_one) (next e)) f_const).
    apply lookup_insert_eq.
Qed.

Lemma traverse_links (benchType max : Z) (st st' : bench F) :
  traverse g benchType max st = Some st' -> same_links (buf st') (buf st).
Proof.
  intros Hrun.
  destruct (traverse_defined g _ _ _ _ Hrun) as [-> | [-> | [-> | ->]]];
    cbn [traverse] in Hrun.
  - rewrite (seq_read_keeps g (fun s => buf s = buf st) (fun _ _ _ E => E)
               _ _ _ _ Hrun eq_refl). intros i. reflexivity.
  - rewrite (chain_read_keeps (fun s => buf s = buf st) (fun _ _ _ E => E)
               _ _ _ _ Hrun eq_refl). intros i. reflexivity.
  - apply (seq_write_links _ _ _ _ Hrun).
  - apply (chain_write_links _ _ _ _ Hrun).
Qed.
End BenchMore.

(** X17 ([runBench]): every completed run, in any of the four modes and
    on any buffer, leaves every [next] pointer as it was and neither adds
    nor removes an entry: the write modes change payloads only. *)
Theorem runBench_keeps_links {F : Type} `{Payload F} (g : globals)
    (buffer : gmap Z (entry F)) (iter depChain doWrite : Z) (sum : F)
    (count0 : Z) (st : bench F) :
  runBench g buffer iter depChain doWrite sum count0 = Some st ->
  (forall i, option_map next (buf st !! i) = option_map next (buffer !! i)) /\
  (forall i, buf st !! i = None <-> buffer !! i = None).
Proof.
  intros Hrun.
  assert (Hl : same_links (buf st) buffer).
  { unfold runBench in Hrun.
    apply (iterations_keeps g (fun s => same_links (buf s) buffer)
             (fun _ _ _ P => P) (fun _ _ P => P) _
             (fun max s s' Ht P => same_links_trans _ _ _ (traverse_links g _ max s s' Ht) P)
             _ _ _ Hrun).
    intros i. reflexivity. }
  split; [exact Hl|].
  intros i. specialize (Hl i).
  destruct (buf st !! i), (buffer !! i); cbn in Hl; split; congruence.
Qed.

Lemma runBench_keeps_links_witness :
  exists st,
    @runBench Z int_payload example_random_sized example_random_buffer 2 1 1 0 0
    = Some st /\
    forall i, option_map next (buf st !! i)
              = option_map next (example_random_buffer !! i).
Proof.
  destruct (@runBench Z int_payload example_random_sized example_random_buffer 2 1 1 0 0)
    as [st|] eqn:Hrun; [|revert Hrun; by_computation].
  exists st. split; [reflexivity|].
  apply (@runBench_keeps_links Z int_payload _ _ _ _ _ _ _ _ Hrun).
Defined.

Section BenchEdges.
Context {F : Type} `{Payload F}.
Variable g : globals.

Lemma iterations_no_distances (benchType : Z) (e : entry F) (n : nat) :
  distsUsed g <= 0 ->
  forall st, buf st !! 0 = Some e ->
    iterations g benchType n st
    = Some (Bench (buf st) (Nat.iter n (fun s => fadd s (v e)) (lsum st))
              (aCount st) (reads st ++ repeat (0, v e) n)).
Proof.
  intros Hnone. induction n as [|n IH]; intros st H0; cbn [iterations].
  - cbn [Nat.iter repeat]. rewrite app_nil_r. destruct st; reflexivity.
  - rewrite H0. replace (Z.to_nat (distsUsed g)) with 0%nat by lia.
    cbn [distances]. rewrite (IH (accum 0 (v e) st) H0).
    cbn [accum buf lsum aCount reads].
    rewrite Nat.iter_succ_r, <- app_assoc. reflexivity.
Qed.

Lemma traverse_undefined (benchType max : Z) (st : bench F) :
  ~ 0 <= benchType <= 3 -> traverse g benchType max st = None.
Proof.
  intros Hbt. destruct (traverse g benchType max st) as [st'|] eqn:Hrun; [|reflexivity].
  apply traverse_defined in Hrun. lia.
Qed.

Lemma iterations_undefined (benchType : Z) (n : nat) (st : bench F) :
  ~ 0 <= benchType <= 3 ->
  1 <= distsUsed g -> 1 <= distIter g 0 ->
  iterations g benchType (S n) st = None.
Proof.
  intros Hbt Hused Hit. cbn [iterations].
  destruct (buf st !! 0) as [e|] eqn:H0; [|reflexivity].
  replace (Z.to_nat (distsUsed g)) with (S (Z.to_nat (distsUsed g) - 1)) by lia.
  cbn [distances accum buf]. rewrite H0.
  destruct (INT_MAX <? distIter g 0); [reflexivity|].
  replace (Z.to_nat (distIter g 0)) with (S (Z.to_nat (distIter g 0) - 1)) by lia.
  cbn [sweeps]. rewrite traverse_undefined by exact Hbt. reflexivity.
Qed.
End BenchEdges.

(** X18 ([runBench], no distance registered): the run adds [buffer[0].v]
    to the sum once per iteration and does nothing else: buffer and access
    counter are returned as supplied, whatever [depChain] and [doWrite]
    are (the [switch] is never reached). *)
Theorem runBench_without_distances {F : Type} `{Payload F} (g : globals)
    (buffer : gmap Z (entry F)) (e : entry F)
    (iter depChain doWrite : Z) (sum : F) (count0 : Z) :
  distsUsed g <= 0 ->
  buffer !! 0 = Some e ->
  runBench g buffer iter depChain doWrite sum count0
  = Some (Bench buffer
            (Nat.iter (Z.to_nat iter) (fun s => fadd s (v e)) sum)
            count0
            (repeat (0, v e) (Z.to_nat iter))).
Proof.
  intros Hnone H0. unfold runBench.
  rewrite (iterations_no_distances g _ e _ Hnone); [reflexivity | exact H0].
Qed.

Lemma runBench_without_distances_witness :
  @runBench Z int_payload (set_sizes (globals0 false) 17 7) example_random_buffer
    3 5 5 100 7
  = Some (Bench example_random_buffer (Nat.iter 3 (fun s => s + 0) 100) 7
            (repeat (0, 0) 3)).
Proof.
  apply (@runBench_without_distances Z int_payload (set_sizes (globals0 false) 17 7)
           example_random_buffer (Entry 0 (Some 28))); by_computation.
Defined.

(** X19 ([runBench], [default: assert(0)]): when [depChain + 2 * doWrite]
    is none of 0, 1, 2, 3 and a traversal is reached (at least one
    iteration, one distance, one sweep of it), the run fails. *)
Theorem runBench_rejects_unknown_mode {F : Type} `{Payload F} (g : globals)
    (buffer : gmap Z (entry F)) (iter depChain doWrite : Z) (sum : F) (count0 : Z) :
  ~ 0 <= depChain + 2 * doWrite <= 3 ->
  1 <= iter -> 1 <= distsUsed g -> 1 <= distIter g 0 ->
  runBench g buffer iter depChain doWrite sum count0 = None.
Proof.
  intros Hbt Hiter Hused Hit. unfold runBench.
  replace (Z.to_nat iter) with (S (Z.to_nat iter - 1)) by lia.
  apply iterations_undefined; assumption.
Qed.

Lemma runBench_rejects_unknown_mode_witness :
  @runBench Z int_payload example_sized example_buffer 1 2 1 0 0 = None.
Proof.
  apply (@runBench_rejects_unknown_mode Z int_payload); try by_computation.
  lia.
Defined.

(** X20 ([runBench], [lsum += buffer[0].v]): a run of at least one
    iteration reads entry 0 before anything else, so it has no defined
    result on a buffer without that entry.  This is the case after
    [initBufs] on the empty registry: it returns when the thread count is
    below [DISTGEN_MAXTHREADS], the block count it leaves is 0, and
    whatever buffer the builder returns for it holds no entry. *)
Theorem runBench_needs_first_entry {F : Type} `{Payload F}
    (T : Z) (g : globals) (iter depChain doWrite : Z) (sum : F) (count0 : Z) :
  1 <= iter ->
  (forall buffer : gmap Z (entry F),
     buffer !! 0 = None ->
     runBench g buffer iter depChain doWrite sum count0 = None) /\
  (distsUsed g = 0 -> distSize g 0 = 0 ->
   (tcount g < T -> exists g', initBufs T 1 g = Some g') /\
   (forall fuel g',
      initBufs T fuel g = Some g' ->
      blocks g' = 0 /\
      forall b : gmap Z (entry F),
        init_memory_per_thread g' = Some b ->
        runBench g' b iter depChain doWrite sum count0 = None)).
Proof.
  intros Hiter.
  assert (Hnone : forall g0 (buffer : gmap Z (entry F)),
             buffer !! 0 = None ->
             runBench g0 buffer iter depChain doWrite sum count0 = None).
  { intros g0 buffer H0. unfold runBench.
    replace (Z.to_nat iter) with (S (Z.to_nat iter - 1)) by lia.
    cbn [iterations buf]. rewrite H0. reflexivity. }
  split; [apply Hnone|].
  intros Hused Hzero.
  assert (Hfill : fill_metrics (Z.to_nat (distsUsed g)) 0 g = Some g)
    by (rewrite Hused; reflexivity).
  assert (Hone : adjustSize 1 (raw_blocks 0) (stride_policy (pseudoRandom g) (raw_blocks 0))
                 = Some 0).
  { change (raw_blocks 0) with 0.
    destruct (pseudoRandom g); cbn [stride_policy];
      [change (wrap64 (0 * 7) / 17) with 0|]; reflexivity. }
  split.
  - intros Hcount.
    rewrite (initBufs_unfold T 1 g g Hcount Hfill), Hzero, Hone.
    eexists. reflexivity.
  - intros fuel g' Hrun.
    rewrite (initBufs_unfold T fuel g g (initBufs_thread_count _ _ _ _ Hrun) Hfill),
      Hzero in Hrun.
    destruct (adjustSize fuel _ _) as [r|] eqn:Hr; [|discriminate].
    rewrite (adjustSize_deterministic _ _ _ _ _ _ Hr Hone) in Hrun.
    inversion Hrun; subst g'. cbn [set_sizes blocks].
    split; [reflexivity|].
    intros b Hbuild. apply Hnone.
    assert (Hempty : @init_memory_per_thread F _
                       (set_sizes g 0 (stride_policy (pseudoRandom g) (raw_blocks 0)))
                     = Some ∅) by reflexivity.
    rewrite Hempty in Hbuild. injection Hbuild as <-. apply lookup_empty.
Qed.

Lemma runBench_needs_first_entry_witness :
  exists g',
    initBufs 2 1 (globals0 true) = Some g' /\ blocks g' = 0 /\
    forall b : gmap Z (entry Z),
      @init_memory_per_thread Z int_payload g' = Some b ->
      @runBench Z int_payload g' b 1 0 0 0 0 = None.
Proof.
  destruct (proj2 (@runBench_needs_first_entry Z int_payload 2 (globals0 true)
                     1 0 0 0 0 ltac:(lia)) eq_refl eq_refl) as [Hex Hall].
  destruct (Hex ltac:(vm_compute; reflexivity)) as [g' Hg'].
  exists g'. split; [exact Hg'|]. apply (Hall 1%nat g' Hg').
Defined.

(** ** Properties kept by the steps a run on a linked buffer makes *)

Section Guarded.
Context {F : Type} `{Payload F}.
Variable g : globals.
Variable P : bench F -> Prop.
Hypothesis P_accum :
  forall j e st, P st -> buf st !! seq_idx g j = Some e ->
                 P (accum (seq_idx g j) (v e) st).
Hypothesis P_count : forall n st, P st -> P (count n st).

Lemma seq_read_guarded (n : nat) :
  forall j st st',
    P st -> seq_read g n (seq_idx g j) st = Some st' -> P st'.
Proof.
  induction n as [|n IH]; intros j st st' HP Hrun; cbn [seq_read] in Hrun.
  - inversion Hrun; subst. exact HP.
  - destruct (buf st !! seq_idx g j) as [e|] eqn:He; [|discriminate].
    apply (IH (S j) _ _ (P_accum j e st HP He) Hrun).
Qed.

Lemma traverse_read_guarded (benchType max : Z) (st st' : bench F) :
  benchType = 0 \/ benchType = 1 ->
  linked g (buf st) -> P st ->
  traverse g benchType max st = Some st' -> P st'.
Proof.
  intros Hbt Hl HP Hrun.
  assert (Hseq : traverse g 0 max st = Some st').
  { destruct Hbt as [-> | ->]; [exact Hrun|].
    rewrite <- (traverse_modes_agree g max st Hl). exact Hrun. }
  cbn [traverse] in Hseq. apply (seq_read_guarded _ 0%nat _ _ HP Hseq).
Qed.

Section GuardedStores.
Hypothesis P_store :
  forall j e x st, P st -> buf st !! seq_idx g j = Some e ->
                   P (store (seq_idx g j) (Entry x (next e)) st).

Lemma seq_write_guarded (n : nat) :
  forall j st st',
    P st -> seq_write g n (seq_idx g j) st = Some st' -> P st'.
Proof.
  induction n as [|n IH]; intros j st st' HP Hrun; cbn [seq_write] in Hrun.
  - inversion Hrun; subst. exact HP.
  - destruct (buf st !! seq_idx g j) as [e|] eqn:He; [|discriminate].
    apply (IH (S j) _ _) in Hrun; [exact Hrun|].
    apply (P_accum j (Entry (fadd (v e) f_one) (next e))).
    + apply (P_store j e _ st HP He).
    + cbn [store buf]. apply lookup_insert_eq.
Qed.

Lemma chain_write_guarded (n : nat) :
  forall j st st',
    linked g (buf st) -> P st ->
    chain_write n (Some (seq_idx g j)) st = Some st' -> P st'.
Proof.
  induction n as [|n IH]; intros j st st' Hl HP Hrun; cbn [chain_write] in Hrun.
  - inversion Hrun; subst. exact HP.
  - destruct (Hl j) as [x Hx]. rewrite Hx in Hrun. cbn [next v] in Hrun.
    set (e := Entry x (Some (seq_idx g (S j)))) in *.
    set (e1 := Entry (fadd x f_one) (Some (seq_idx g (S j)))) in *.
    apply (IH (S j) _ _) in Hrun; [exact Hrun | |].
    + cbn [store accum buf].
      apply (linked_store g _ _ e1); [|apply lookup_insert_eq].
      apply (linked_store g _ _ e); assumption.
    + apply (P_store j e1 f_const).
      * apply (P_accum j e1); [apply (P_store j e _ st HP Hx)|].
        cbn [store buf]. apply lookup_insert_eq.
      * cbn [accum store buf]. apply lookup_insert_eq.
Qed.

Lemma traverse_guarded (benchType max : Z) (st st' : bench F) :
  linked g (buf st) -> P st ->
  traverse g benchType max st = Some st' -> P st'.
Proof.
  intros Hl HP Hrun.
  destruct (traverse_defined g _ _ _ _ Hrun) as [-> | [-> | [-> | ->]]].
  - apply (traverse_read_guarded 0 max st st'); auto.
  - apply (traverse_read_guarded 1 max st st'); auto.
  - cbn [traverse] in Hrun. apply (seq_write_guarded _ 0%nat _ _ HP Hrun).
  - cbn [traverse] in Hrun. apply (chain_write_guarded _ 0%nat _ _ Hl HP Hrun).
Qed.
End GuardedStores.

Variable benchType : Z.
Hypothesis P_traverse :
  forall max st st', linked g (buf st) -> P st ->
                     traverse g benchType max st = Some st' -> P st'.

Lemma sweeps_guarded (n : nat) :
  forall d st st',
    linked g (buf st) -> P st ->
    sweeps g benchType n d st = Some st' -> linked g (buf st') /\ P st'.
Proof.
  induction n as [|n IH]; intros d st st' Hl HP Hrun; cbn [sweeps] in Hrun.
  - inversion Hrun; subst. split; assumption.
  - destruct (traverse g benchType (distBlocks g d) (count (distBlocks g d) st))
      as [st1|] eqn:Ht; [|discriminate].
    apply (IH d st1 st'); [| |exact Hrun].
    + apply (traverse_linked g _ _ _ _ Ht). exact Hl.
    + apply (P_traverse (distBlocks g d) (count (distBlocks g d) st) st1 Hl
               (P_count _ _ HP) Ht).
Qed.

Lemma distances_guarded (n : nat) :
  forall d st st',
    linked g (buf st) -> P st ->
    distances g benchType n d st = Some st' -> linked g (buf st') /\ P st'.
Proof.
  induction n as [|n IH]; intros d st st' Hl HP Hrun; cbn [distances] in Hrun.
  - inversion Hrun; subst. split; assumption.
  - destruct (buf st !! 0) as [e|] eqn:He; [|discriminate].
    destruct (INT_MAX <? distIter g d); [discriminate|].
    destruct (sweeps g benchType (Z.to_nat (distIter g d)) d (accum 0 (v e) st))
      as [st1|] eqn:Hs; [|discriminate].
    destruct (sweeps_guarded _ d (accum 0 (v e) st) st1 Hl
                (P_accum 0%nat e st HP He) Hs) as [Hl1 HP1].
    apply (IH (d + 1) st1 st' Hl1 HP1 Hrun).
Qed.

Lemma iterations_guarded (n : nat) :
  forall st st',
    linked g (buf st) -> P st ->
    iterations g benchType n st = Some st' -> linked g (buf st') /\ P st'.
Proof.
  induction n as [|n IH]; intros st st' Hl HP Hrun; cbn [iterations] in Hrun.
  - inversion Hrun; subst. split; assumption.
  - destruct (buf st !! 0) as [e|] eqn:He; [|discriminate].
    destruct (distances g benchType (Z.to_nat (distsUsed g)) 0 (accum 0 (v e) st))
      as [st1|] eqn:Hd; [|discriminate].
    destruct (distances_guarded _ 0 (accum 0 (v e) st) st1 Hl
                (P_accum 0%nat e st HP He) Hd) as [Hl1 HP1].
    apply (IH st1 st' Hl1 HP1 Hrun).
Qed.
End Guarded.

Lemma seq_idx_is_block_start (g : globals) (j : nat) :
  normalized g ->
  exists k, 0 <= k < blocks g /\ seq_idx g j = block_start k.
Proof.
  intros Hnorm. exists ((blockDiff g * Z.of_nat j) mod blocks g). split.
  - apply Z.mod_pos_bound. destruct Hnorm. lia.
  - apply (seq_idx_block g Hnorm).
Qed.

(** X21 ([runBench]): on an initialized buffer of a normalized pair a
    completed run, in any mode, reads only first entries of blocks
    (offsets [k * BLOCKLEN / sizeof(entry)] with [k < blocks]) and leaves
    every other entry exactly as it was. *)
Theorem runBench_touches_block_starts_only {F : Type} `{Payload F} (g : globals)
    (b : gmap Z (entry F)) (iter depChain doWrite : Z) (sum : F) (count0 : Z)
    (st : bench F) :
  normalized g -> initialized g b ->
  runBench g b iter depChain doWrite sum count0 = Some st ->
  (forall i x, In (i, x) (reads st) ->
     exists k, 0 <= k < blocks g /\ i = block_start k) /\
  (forall i, (forall k, 0 <= k < blocks g -> i <> block_start k) ->
     buf st !! i = b !! i).
Proof.
  intros Hnorm Hinit Hrun.
  pose proof (initialized_linked g Hnorm b Hinit) as Hl.
  set (P := fun s : bench F =>
              (forall i x, In (i, x) (reads s) -> exists j, i = seq_idx g j) /\
              (forall i, (forall j, i <> seq_idx g j) -> buf s !! i = b !! i)).
  assert (Hacc : forall j e s, P s -> buf s !! seq_idx g j = Some e ->
                               P (accum (seq_idx g j) (v e) s)).
  { intros j e s [Hr Hb] _. split; [|exact Hb].
    intros i x Hin. cbn [accum reads] in Hin. apply in_app_or in Hin.
    destruct Hin as [Hin | [Hin | []]]; [apply (Hr i x Hin)|].
    inversion Hin; subst. exists j. reflexivity. }
  assert (Hcnt : forall n s, P s -> P (count n s)) by (intros n s HP; exact HP).
  assert (Hsto : forall j e x s, P s -> buf s !! seq_idx g j = Some e ->
                                 P (store (seq_idx g j) (Entry x (next e)) s)).
  { intros j e x s [Hr Hb] _. split; [exact Hr|].
    intros i Hi. cbn [store buf]. rewrite lookup_insert_ne; [apply Hb, Hi|].
    intros E. apply (Hi j). congruence. }
  unfold runBench in Hrun.
  assert (Hstart : P (Bench b sum count0 [])).
  { split; [intros i x []|]. intros i _. reflexivity. }
  destruct (iterations_guarded g P Hacc Hcnt _
              (fun max s s' => traverse_guarded g P Hacc Hsto _ max s s')
              _ (Bench b sum count0 []) st Hl Hstart Hrun)
    as [_ [Hr Hb]].
  split.
  - intros i x Hin. destruct (Hr i x Hin) as [j ->].
    apply seq_idx_is_block_start, Hnorm.
  - intros i Hi. apply Hb. intros j E.
    destruct (seq_idx_is_block_start g j Hnorm) as (k & Hk & Ek).
    apply (Hi k Hk). congruence.
Qed.

Lemma runBench_touches_block_starts_only_witness :
  exists st,
    @runBench Z int_payload example_random_sized example_random_buffer 2 0 1 0 0
    = Some st /\
    buf st !! 1 = example_random_buffer !! 1.
Proof.
  destruct (@runBench Z int_payload example_random_sized example_random_buffer 2 0 1 0 0)
    as [st|] eqn:Hrun; [|revert Hrun; by_computation].
  exists st. split; [reflexivity|].
  destruct (@runBench_touches_block_starts_only Z int_payload _ _ _ _ _ _ _ _
              example_random_normalized example_random_initialized Hrun)
    as [_ Hb].
  apply Hb. intros k Hk. unfold block_start.
  change (BLOCKLEN / sizeof_entry) with 4. lia.
Defined.




(** ** The constant the chain write mode leaves behind *)

Section ChainWrite.
Context {F : Type} `{Payload F}.
Variable g : globals.

Lemma chain_write_keeps_const (T : Z -> Prop) (n : nat) :
  forall p st st',
    holds_const T (buf st) -> chain_write n p st = Some st' ->
    holds_const T (buf st').
Proof.
  induction n as [|n IH]; intros p st st' HT Hrun; cbn [chain_write] in Hrun.
  - inversion Hrun; subst. exact HT.
  - destruct p as [i|]; [|discriminate].
    destruct (buf st !! i) as [e|] eqn:He; [|discriminate].
    apply (IH _ _ _) in Hrun; [exact Hrun|].
    intros t Ht. cbn [store accum buf]. rewrite lookup_insert.
    destruct (decide (i = t)) as [_|Hne]; [eexists; split; reflexivity|].
    rewrite lookup_insert_ne by exact Hne. apply (HT t Ht).
Qed.

Lemma traverse_keeps_const (T : Z -> Prop) (max : Z) (st st' : bench F) :
  holds_const T (buf st) -> traverse g 3 max st = Some st' ->
  holds_const T (buf st').
Proof. cbn [traverse]. apply chain_write_keeps_const. Qed.

Lemma chain_write_sets_const (n : nat) :
  forall j st st',
    linked g (buf st) ->
    chain_write n (Some (seq_idx g j)) st = Some st' ->
    holds_const (fun i => exists k, (j <= k < j + n)%nat /\ i = seq_idx g k) (buf st').
Proof.
  induction n as [|n IH]; intros j st st' Hl Hrun.
  - intros i (k & Hk & _). lia.
  - cbn [chain_write] in Hrun.
    destruct (Hl j) as [x Hx]. rewrite Hx in Hrun. cbn [next v] in Hrun.
    set (e := Entry x (Some (seq_idx g (S j)))) in *.
    set (e1 := Entry (fadd x f_one) (Some (seq_idx g (S j)))) in *.
    set (st1 := store (seq_idx g j) (Entry f_const (Some (seq_idx g (S j))))
                  (accum (seq_idx g j) (fadd x f_one)
                     (store (seq_idx g j) e1 st))) in *.
    assert (Hl1 : linked g (buf st1)).
    { cbn [st1 store accum buf].
      apply (linked_store g _ _ e1); [|apply lookup_insert_eq].
      apply (linked_store g _ _ e); assumption. }
    intros i (k & Hk & ->).
    destruct (Nat.eq_dec k j) as [->|Hne].
    + apply (chain_write_keeps_const (fun i => i = seq_idx g j) n
               (Some (seq_idx g (S j))) st1 st');
        [|exact Hrun | reflexivity].
      intros t ->. cbn [st1 store buf]. rewrite lookup_insert_eq.
      eexists; split; reflexivity.
    + apply (IH (S j) st1 st' Hl1 Hrun). exists k. split; [lia | reflexivity].
Qed.

Lemma linked_after_sweeps (benchType : Z) (n : nat) (d : Z) (st st' : bench F) :
  sweeps g benchType n d st = Some st' -> linked g (buf st) -> linked g (buf st').
Proof.
  apply (sweeps_keeps g (fun s => linked g (buf s)) (fun _ _ P => P) benchType
           (fun max s s' => traverse_linked g benchType max s s')).
Qed.

Lemma sweeps_sets_const (n : nat) (d : Z) (st st' : bench F) :
  linked g (buf st) ->
  sweeps g 3 (S n) d st = Some st' ->
  holds_const (fun i => exists k, (k < Z.to_nat (distBlocks g d))%nat /\ i = seq_idx g k)
    (buf st').
Proof.
  intros Hl Hrun. cbn [sweeps] in Hrun.
  destruct (traverse g 3 (distBlocks g d) (count (distBlocks g d) st))
    as [st1|] eqn:Ht; [|discriminate].
  apply (sweeps_keeps g (fun s => holds_const _ (buf s)) (fun _ _ P => P) 3
           (fun max s s' Hr P => traverse_keeps_const _ max s s' P Hr)
           _ _ _ _ Hrun).
  cbn [traverse] in Ht.
  intros i (k & Hk & ->).
  apply (chain_write_sets_const (Z.to_nat (distBlocks g d)) 0%nat
           (count (distBlocks g d) st) st1 Hl Ht).
  exists k. split; [lia | reflexivity].
Qed.

Lemma distances_keeps_const (T : Z -> Prop) (n : nat) (d : Z) (st st' : bench F) :
  distances g 3 n d st = Some st' ->
  holds_const T (buf st) -> holds_const T (buf st').
Proof.
  apply (distances_keeps g (fun s => holds_const T (buf s))
           (fun _ _ _ P => P) (fun _ _ P => P) 3
           (fun max s s' Hr P => traverse_keeps_const T max s s' P Hr)).
Qed.

Lemma distances_sets_const (n : nat) :
  forall d st st',
    linked g (buf st) ->
    distances g 3 n d st = Some st' ->
    linked g (buf st') /\
    holds_const (fun i => exists d' k,
                   d <= d' < d + Z.of_nat n /\ 1 <= distIter g d' /\
                   (k < Z.to_nat (distBlocks g d'))%nat /\ i = seq_idx g k)
      (buf st').
Proof.
  induction n as [|n IH]; intros d st st' Hl Hrun.
  - cbn [distances] in Hrun. inversion Hrun; subst. split; [exact Hl|].
    intros i (d' & k & Hd' & _). lia.
  - cbn [distances] in Hrun.
    destruct (buf st !! 0) as [e|] eqn:He; [|discriminate].
    destruct (INT_MAX <? distIter g d); [discriminate|].
    destruct (sweeps g 3 (Z.to_nat (distIter g d)) d (accum 0 (v e) st))
      as [st1|] eqn:Hs; [|discriminate].
    assert (Hl1 : linked g (buf st1)) by (apply (linked_after_sweeps _ _ _ _ _ Hs Hl)).
    destruct (IH (d + 1) st1 st' Hl1 Hrun) as [Hl' Hrest].
    split; [exact Hl'|].
    intros i (d' & k & Hd' & Hit & Hk & ->).
    destruct (Z.eq_dec d' d) as [->|Hne].
    + apply (distances_keeps_const (fun i => exists k, (k < Z.to_nat (distBlocks g d))%nat
                                                       /\ i = seq_idx g k)
               _ _ _ _ Hrun).
      * replace (Z.to_nat (distIter g d)) with (S (Z.to_nat (distIter g d) - 1)) in Hs
          by lia.
        apply (sweeps_sets_const _ d (accum 0 (v e) st) st1 Hl Hs).
      * exists k. split; [exact Hk | reflexivity].
    + apply Hrest. exists d', k. repeat split; try assumption; lia.
Qed.

Lemma iterations_keeps_const (T : Z -> Prop) (n : nat) (st st' : bench F) :
  iterations g 3 n st = Some st' ->
  holds_const T (buf st) -> holds_const T (buf st').
Proof.
  apply (iterations_keeps g (fun s => holds_const T (buf s))
           (fun _ _ _ P => P) (fun _ _ P => P) 3
           (fun max s s' Hr P => traverse_keeps_const T max s s' P Hr)).
Qed.
End ChainWrite.

(** X23 ([runBench], case 3): after a completed run of at least one
    iteration in chain-write mode ([depChain = 1], [doWrite = 1]) on an
    initialized buffer, every entry a sweep visits (the [k]-th access of
    a distance [d] with [distIter[d] >= 1], [k < distBlocks[d]]) holds the
    constant 1.23 the mode stores. *)
Theorem chain_write_leaves_constant {F : Type} `{Payload F} (g : globals)
    (b : gmap Z (entry F)) (iter : Z) (sum : F) (count0 : Z) (st : bench F)
    (d k : Z) :
  normalized g -> initialized g b ->
  1 <= iter ->
  runBench g b iter 1 1 sum count0 = Some st ->
  0 <= d < distsUsed g -> 1 <= distIter g d -> 0 <= k < distBlocks g d ->
  exists e,
    buf st !! block_start ((blockDiff g * k) mod blocks g) = Some e /\
    v e = f_const.
Proof.
  intros Hnorm Hinit Hiter Hrun Hd Hit Hk.
  pose proof (initialized_linked g Hnorm b Hinit) as Hl.
  unfold runBench in Hrun. change (1 + 2 * 1) with 3 in Hrun.
  replace (Z.to_nat iter) with (S (Z.to_nat iter - 1)) in Hrun by lia.
  cbn [iterations buf] in Hrun.
  destruct (b !! 0) as [e0|] eqn:H0; [|discriminate].
  destruct (distances g 3 (Z.to_nat (distsUsed g)) 0
              (accum 0 (v e0) (Bench b sum count0 []))) as [st1|] eqn:Hdist;
    [|discriminate].
  destruct (distances_sets_const g _ 0 (accum 0 (v e0) (Bench b sum count0 [])) st1
              Hl Hdist) as [_ Hset].
  replace (block_start ((blockDiff g * k) mod blocks g))
    with (seq_idx g (Z.to_nat k))
    by (rewrite (seq_idx_block g Hnorm), Z2Nat.id by lia; reflexivity).
  apply (iterations_keeps_const g _ _ _ _ Hrun Hset).
  exists d, (Z.to_nat k). repeat split; try lia.
Qed.

Lemma chain_write_leaves_constant_witness :
  exists st e,
    @runBench Z int_payload example_random_sized example_random_buffer 1 1 1 0 0
    = Some st /\
    buf st !! block_start ((blockDiff example_random_sized * 5) mod
                             blocks example_random_sized) = Some e /\
    v e = 123.
Proof.
  destruct (@runBench Z int_payload example_random_sized example_random_buffer 1 1 1 0 0)
    as [st|] eqn:Hrun; [|revert Hrun; by_computation].
  destruct (@chain_write_leaves_constant Z int_payload example_random_sized
              example_random_buffer 1 0 0 st 0 5
              example_random_normalized example_random_initialized
              ltac:(lia) Hrun)
    as (e & He & Hv); [split; by_computation | by_computation | split; by_computation |].
  exists st, e. split; [reflexivity|]. split; [exact He | exact Hv].
Defined.

(** ** The number of accumulations of a run *)

Section ReadCount.
Context {F : Type} `{Payload F}.
Variable g : globals.

Lemma nreads_accum (i : Z) (x : F) (st : bench F) :
  nreads (accum i x st) = nreads st + 1.
Proof. unfold nreads, accum. cbn [reads]. rewrite length_app. cbn [length]. lia. Qed.

Lemma seq_read_nreads (n : nat) :
  forall idx st st', seq_read g n idx st = Some st' ->
                     nreads st' = nreads st + Z.of_nat n.
Proof.
  induction n as [|n IH]; intros idx st st' Hrun; cbn [seq_read] in Hrun.
  - inversion Hrun; subst. lia.
  - destruct (buf st !! idx) as [e|]; [|discriminate].
    rewrite (IH _ _ _ Hrun), nreads_accum. lia.
Qed.

Lemma chain_read_nreads (n : nat) :
  forall p st st', chain_read n p st = Some st' ->
                   nreads st' = nreads st + Z.of_nat n.
Proof.
  induction n as [|n IH]; intros p st st' Hrun; cbn [chain_read] in Hrun.
  - inversion Hrun; subst. lia.
  - destruct p as [i|]; [|discriminate].
    destruct (buf st !! i) as [e|]; [|discriminate].
    rewrite (IH _ _ _ Hrun), nreads_accum. lia.
Qed.

Lemma seq_write_nreads (n : nat) :
  forall idx st st', seq_write g n idx st = Some st' ->
                     nreads st' = nreads st + Z.of_nat n.
Proof.
  induction n as [|n IH]; intros idx st st' Hrun; cbn [seq_write] in Hrun.
  - inversion Hrun; subst. lia.
  - destruct (buf st !! idx) as [e|]; [|discriminate].
    rewrite (IH _ _ _ Hrun), nreads_accum. unfold nreads, store. cbn [reads]. lia.
Qed.

Lemma chain_write_nreads (n : nat) :
  forall p st st', chain_write n p st = Some st' ->
                   nreads st' = nreads st + Z.of_nat n.
Proof.
  induction n as [|n IH]; intros p st st' Hrun; cbn [chain_write] in Hrun.
  - inversion Hrun; subst. lia.
  - destruct p as [i|]; [|discriminate].
    destruct (buf st !! i) as [e|]; [|discriminate].
    rewrite (IH _ _ _ Hrun). unfold nreads, store, accum. cbn [reads v].
    rewrite length_app. cbn [length]. lia.
Qed.

Lemma traverse_nreads (benchType max : Z) (st st' : bench F) :
  0 <= max ->
  traverse g benchType max st = Some st' -> nreads st' = nreads st + max.
Proof.
  intros Hmax Hrun.
  destruct (traverse_defined g _ _ _ _ Hrun) as [-> | [-> | [-> | ->]]];
    cbn [traverse] in Hrun.
  - rewrite (seq_read_nreads _ _ _ _ Hrun). lia.
  - rewrite (chain_read_nreads _ _ _ _ Hrun). lia.
  - rewrite (seq_write_nreads _ _ _ _ Hrun). lia.
  - rewrite (chain_write_nreads _ _ _ _ Hrun). lia.
Qed.

Lemma sweeps_nreads (benchType : Z) (n : nat) (d : Z) :
  0 <= distBlocks g d ->
  forall st st', sweeps g benchType n d st = Some st' ->
                 nreads st' = nreads st + Z.of_nat n * distBlocks g d.
Proof.
  intros Hb. induction n as [|n IH]; intros st st' Hrun; cbn [sweeps] in Hrun.
  - inversion Hrun; subst. lia.
  - destruct (traverse g benchType (distBlocks g d) (count (distBlocks g d) st))
      as [st1|] eqn:Ht; [|discriminate].
    rewrite (IH _ _ Hrun), (traverse_nreads _ _ _ _ Hb Ht).
    unfold nreads, count. cbn [reads]. lia.
Qed.

Lemma distances_nreads (benchType : Z) (n : nat) :
  forall d st st',
    (forall d', d <= d' < d + Z.of_nat n ->
                0 <= distIter g d' /\ 0 <= distBlocks g d') ->
    distances g benchType n d st = Some st' ->
    nreads st' = nreads st + Z.of_nat n + accesses_from g n d.
Proof.
  induction n as [|n IH]; intros d st st' Hnn Hrun;
    cbn [distances accesses_from] in *.
  - inversion Hrun; subst. lia.
  - destruct (buf st !! 0) as [e|]; [|discriminate].
    destruct (INT_MAX <? distIter g d); [discriminate|].
    destruct (sweeps g benchType (Z.to_nat (distIter g d)) d (accum 0 (v e) st))
      as [st1|] eqn:Hs; [|discriminate].
    destruct (Hnn d ltac:(lia)) as [Hi Hb].
    rewrite (IH (d + 1) st1 st'); [|intros d' Hd'; apply Hnn; lia | exact Hrun].
    rewrite (sweeps_nreads _ _ _ Hb _ _ Hs), nreads_accum, Z2Nat.id by lia. lia.
Qed.

Lemma iterations_nreads (benchType : Z) (n : nat) :
  (forall d, 0 <= d < distsUsed g -> 0 <= distIter g d /\ 0 <= distBlocks g d) ->
  0 <= distsUsed g ->
  forall st st',
    iterations g benchType n st = Some st' ->
    nreads st' = nreads st
                 + Z.of_nat n * (1 + distsUsed g + accesses_per_iteration g).
Proof.
  intros Hnn Hused. induction n as [|n IH]; intros st st' Hrun;
    cbn [iterations] in Hrun.
  - inversion Hrun; subst. lia.
  - destruct (buf st !! 0) as [e|]; [|discriminate].
    destruct (distances g benchType (Z.to_nat (distsUsed g)) 0 (accum 0 (v e) st))
      as [st1|] eqn:Hd; [|discriminate].
    rewrite (IH _ _ Hrun).
    assert (Hall : forall d', 0 <= d' < 0 + Z.of_nat (Z.to_nat (distsUsed g)) ->
                          0 <= distIter g d' /\ 0 <= distBlocks g d').
    { intros d' Hd'. apply Hnn. lia. }
    rewrite (distances_nreads _ _ _ _ _ Hall Hd).
    rewrite nreads_accum, Z2Nat.id by lia. unfold accesses_per_iteration. lia.
Qed.
End ReadCount.

(** X24 ([runBench]): a completed run executes [lsum += ...]
    [iter * (1 + distsUsed + sum over d of distIter[d] * distBlocks[d])]
    times: per iteration one read of [buffer[0]], one more per distance,
    and one per traversal access.  When the counter does not wrap, the
    reads exceed the accesses added to [*aCount] by
    [iter * (1 + distsUsed)]: the reads of [buffer[0]] are not counted. *)
Theorem runBench_read_count {F : Type} `{Payload F} (g : globals)
    (buffer : gmap Z (entry F)) (iter depChain doWrite : Z) (sum : F)
    (count0 : Z) (st : bench F) :
  (forall d, 0 <= d < distsUsed g -> 0 <= distIter g d /\ 0 <= distBlocks g d) ->
  0 <= distsUsed g -> 0 <= iter -> 0 <= count0 ->
  count0 + iter * accesses_per_iteration g < 2 ^ 64 ->
  runBench g buffer iter depChain doWrite sum count0 = Some st ->
  Z.of_nat (length (reads st))
  = iter * (1 + distsUsed g + accesses_per_iteration g) /\
  Z.of_nat (length (reads st)) - (aCount st - count0) = iter * (1 + distsUsed g).
Proof.
  intros Hnn Hused Hiter Hc Hsmall Hrun.
  assert (Hacc : 0 <= accesses_per_iteration g).
  { unfold accesses_per_iteration.
    assert (Hfrom : forall n d, (forall d', d <= d' < d + Z.of_nat n ->
                                  0 <= distIter g d' /\ 0 <= distBlocks g d') ->
                                0 <= accesses_from g n d).
    { induction n as [|n IH]; intros d Hd; cbn [accesses_from]; [lia|].
      destruct (Hd d ltac:(lia)). specialize (IH (d + 1) ltac:(intros; apply Hd; lia)).
      nia. }
    apply Hfrom. intros d' Hd'. apply Hnn. lia. }
  assert (Hcount : aCount st = count0 + iter * accesses_per_iteration g).
  { rewrite (runBench_count g buffer iter depChain doWrite sum count0 st);
      [apply wrap64_small; nia | intros d Hd; apply Hnn, Hd | lia | nia | exact Hrun]. }
  unfold runBench in Hrun.
  pose proof (iterations_nreads g _ _ Hnn Hused _ _ Hrun) as Hn.
  unfold nreads in Hn. cbn [reads length] in Hn.
  rewrite Z2Nat.id in Hn by lia. split; [lia|]. rewrite Hcount. lia.
Qed.

Lemma runBench_read_count_witness :
  exists st,
    @runBench Z int_payload example_sized example_buffer 3 1 0 0 0 = Some st /\
    Z.of_nat (length (reads st)) = 3 * (1 + 2 + 128) /\
    aCount st = 3 * 128.
Proof.
  destruct (@runBench Z int_payload example_sized example_buffer 3 1 0 0 0)
    as [st|] eqn:Hrun; [|revert Hrun; by_computation].
  exists st. split; [reflexivity|].
  assert (Hnn : forall d, 0 <= d < distsUsed example_sized ->
                          0 <= distIter example_sized d /\
                          0 <= distBlocks example_sized d).
  { change (distsUsed example_sized) with 2. intros d Hd.
    assert (Hc : d = 0 \/ d = 1) by lia.
    destruct Hc as [-> | ->]; split; by_computation. }
  destruct (@runBench_read_count Z int_payload example_sized example_buffer
              3 1 0 0 0 st Hnn) as [Hn Hdiff];
    [by_computation | lia | lia | by_computation | exact Hrun |].
  split; [exact Hn|].
  change (distsUsed example_sized) with 2 in Hdiff, Hn.
  change (accesses_per_iteration example_sized) with 128 in Hn. lia.
Defined.

(* ================================================================== *)
(** * Size normalizer: the stride 0 *)

Lemma adjustSize_none_zero_stride (n : nat) :
  forall size, 2 <= size -> Z.of_nat n <= 2 ^ 64 - size ->
               adjustSize n size 0 = None.
Proof.
  induction n as [|n IH]; intros size Hs Hn; cbn [adjustSize]; [reflexivity|].
  assert (Hg : gcd size 0 = size) by (rewrite gcd_Zgcd, Z.gcd_0_r by lia; lia).
  rewrite Hg. destruct (Z.ltb_spec 1 size); [|lia].
  destruct n as [|n]; [reflexivity|].
  rewrite wrap64_small by lia. apply IH; lia.
Qed.

(** C2: with stride 0 the loop does not do what its comment says ("make
    sure that gcd(size,diff) is 1 by increasing size").  For every size
    from 2 on it increments [size] until it wraps around, which takes
    [2^64 - size] increments, and returns 0: a result below the size
    requested and not coprime with the stride, since [gcd(0, 0) = 0].
    Size 0 is returned at once, with the same [gcd].  [initBufs] makes
    this call: under the pseudo-random policy a largest distance of 65 to
    128 bytes gives 2 blocks and the stride [2 * 7 / 17 = 0], and a
    completed [initBufs] then leaves 0 blocks. *)
Theorem adjustSize_stride_zero_not_coprime (size : Z) :
  2 <= size < 2 ^ 64 ->
  (exists fuel, adjustSize fuel size 0 = Some 0) /\
  (forall fuel B, adjustSize fuel size 0 = Some B ->
     B = 0 /\ gcd B 0 <> 1 /\ B < size /\ 2 ^ 64 - size < Z.of_nat fuel) /\
  (adjustSize 1 0 0 = Some 0 /\ gcd 0 0 <> 1) /\
  (forall size0, 64 < size0 <= 128 ->
     raw_blocks size0 = 2 /\ stride_policy true (raw_blocks size0) = 0) /\
  (forall T fuel g g',
     pseudoRandom g = true -> 64 < distSize g 0 <= 128 ->
     initBufs T fuel g = Some g' ->
     blocks g' = 0 /\ blockDiff g' = 0 /\ 2 ^ 64 - 2 < Z.of_nat fuel).
Proof.
  intros Hs.
  assert (Hg : gcd 0 0 <> 1) by (rewrite gcd_Zgcd by lia; discriminate).
  pose proof (adjustSize_zero_stride size Hs) as Hzero.
  split; [eexists; exact Hzero|]. split; [|split].
  - intros fuel B HB.
    rewrite (adjustSize_deterministic _ _ _ _ _ _ HB Hzero).
    split; [reflexivity|]. split; [exact Hg|]. split; [lia|].
    destruct (Z_lt_le_dec (2 ^ 64 - size) (Z.of_nat fuel)) as [|Hle]; [assumption|].
    rewrite (adjustSize_none_zero_stride fuel size) in HB by lia. discriminate HB.
  - split; [reflexivity | exact Hg].
  - assert (Hraw : forall size0, 64 < size0 <= 128 -> raw_blocks size0 = 2).
    { intros size0 Hsize. unfold raw_blocks, BLOCKLEN.
      rewrite wrap64_small by lia.
      symmetry. apply (Z.div_unique _ 64 2 (size0 - 65)); lia. }
    split.
    + intros size0 Hsize. rewrite (Hraw size0 Hsize).
      split; [reflexivity | by_computation].
    + intros T fuel g g' Hpr Hsize Hrun.
      destruct (initBufs_sizes _ _ _ _ Hrun) as [Hdiff Hadj].
      rewrite Hpr, (Hraw _ Hsize) in Hdiff.
      change (stride_policy true 2) with 0 in Hdiff.
      rewrite (Hraw _ Hsize), Hdiff in Hadj.
      pose proof (adjustSize_zero_stride 2 ltac:(lia)) as Htwo.
      pose proof (adjustSize_deterministic _ _ _ _ _ _ Hadj Htwo) as Hb.
      split; [exact Hb|]. split; [exact Hdiff|].
      destruct (Z_lt_le_dec (2 ^ 64 - 2) (Z.of_nat fuel)) as [|Hle]; [assumption|].
      rewrite (adjustSize_none_zero_stride fuel 2) in Hadj by lia.
      discriminate Hadj.
Qed.

Lemma adjustSize_stride_zero_not_coprime_witness :
  (exists fuel, adjustSize fuel 2 0 = Some 0) /\
  (forall fuel B, adjustSize fuel 2 0 = Some B ->
     B = 0 /\ gcd B 0 <> 1 /\ B < 2 /\ 2 ^ 64 - 2 < Z.of_nat fuel) /\
  raw_blocks 100 = 2 /\ stride_policy true (raw_blocks 100) = 0.
Proof.
  destruct (adjustSize_stride_zero_not_coprime 2 ltac:(lia))
    as (Hex & Hall & _ & Hreach & _).
  split; [exact Hex|]. split; [exact Hall|]. apply Hreach. lia.
Defined.

(* ================================================================== *)
(** * Dependency-chain builder: a buffer size that wraps around *)

(** The link loop stops at its second entry when that entry lies outside
    the buffer. *)
Lemma link_blocks_leaves_buffer {F : Type} `{Payload F} (g : globals) (n : nat)
    (b : gmap Z (entry F)) (e : entry F) :
  b !! 0 = Some e -> next e = None ->
  next_idx g 0 <> 0 -> b !! next_idx g 0 = None ->
  link_blocks g (S (S n)) 0 b = None.
Proof.
  intros H0 Hn Hne Hout. cbn [link_blocks]. rewrite H0, Hn.
  rewrite lookup_insert_ne by (intros E; apply Hne; symmetry; exact E).
  rewrite Hout. reflexivity.
Qed.

(** The pair [initBufs] computes for a largest distance of
    [2^64 - 128] bytes under the pseudo-random policy. *)
Lemma wrapped_size_pair :
  raw_blocks (2 ^ 64 - 128) = 2 ^ 58 - 2 /\
  stride_policy true (2 ^ 58 - 2) = 118683096062469540 /\
  Z.gcd (2 ^ 58 + 3) 118683096062469540 = 1 /\
  wrap64 ((2 ^ 58 + 3) * BLOCKLEN) = 192 /\
  wrap64 (118683096062469540 * BLOCKLEN) / sizeof_entry = 474732384249878160.
Proof. repeat split; by_computation. Qed.

(** C1: for a largest distance of [2^64 - 128] bytes under the
    pseudo-random policy [initBufs] hands the builder the coprime pair of
    [2^58 + 3] blocks and a stride below it.  The buffer size
    [blocks * BLOCKLEN] wraps around to 192 bytes, 12 entries; the first
    link the loop assigns points to an entry far outside them, and the
    second iteration of the loop reads [buf[idx].next] there: the builder
    has no defined result, and no cycle over the block starts is built. *)
Theorem chain_builder_leaves_wrapped_buffer {F : Type} `{Payload F}
    (T : Z) (g : globals) :
  tcount g < T -> pseudoRandom g = true -> distsUsed g = 1 ->
  distSize g 0 = 2 ^ 64 - 128 ->
  exists g',
    initBufs T 6 g = Some g' /\
    blocks g' = 2 ^ 58 + 3 /\
    0 <= blockDiff g' <= blocks g' /\
    gcd (blocks g') (blockDiff g') = 1 /\
    wrap64 (blocks g' * BLOCKLEN) = 192 /\ idxMax g' = 12 /\
    idxMax g' <= next_idx g' 0 /\
    @init_memory_per_thread F _ g' = None.
Proof.
  intros Hcount Hpr Hused Hsize.
  destruct wrapped_size_pair as (Hraw & Hdiff & Hco & Hwrap & Hincr).
  destruct (fill_metrics_cells (Z.to_nat (distsUsed g)) 0 g) as (g1 & Hfill & _).
  { rewrite Hused. intros i Hi. assert (i = 0) by lia. subst i. rewrite Hsize. lia. }
  pose proof (initBufs_unfold T 6 g g1 Hcount Hfill) as Hrun.
  rewrite Hpr, Hsize, Hraw in Hrun.
  rewrite (proj1 sizes_near_the_limit), Hdiff in Hrun.
  set (g' := set_sizes g1 (2 ^ 58 + 3) 118683096062469540) in *.
  assert (Hb : blocks g' = 2 ^ 58 + 3) by reflexivity.
  assert (Hd : blockDiff g' = 118683096062469540) by reflexivity.
  assert (Hmax : idxMax g' = 12).
  { unfold idxMax. rewrite Hb, Hwrap. reflexivity. }
  assert (Hnext : next_idx g' 0 = 474732384249878148).
  { unfold next_idx, idxIncr. rewrite Hmax, Hd, Hincr. reflexivity. }
  exists g'. split; [exact Hrun|]. split; [exact Hb|].
  split; [rewrite Hb, Hd; lia|].
  split; [rewrite Hb, Hd, gcd_Zgcd by lia; exact Hco|].
  split; [rewrite Hb; exact Hwrap|].
  split; [exact Hmax|].
  split; [rewrite Hmax, Hnext; lia|].
  unfold init_memory_per_thread. rewrite Hb.
  replace (Z.to_nat (2 ^ 58 + 3)) with (S (S (Z.to_nat (2 ^ 58 + 1))))
    by (rewrite <- !Z2Nat.inj_succ by lia; f_equal; lia).
  apply (link_blocks_leaves_buffer _ _ _ (Entry (of_u64 0) None)).
  - apply fresh_buffer_lookup. rewrite Hmax. lia.
  - reflexivity.
  - rewrite Hnext. lia.
  - unfold fresh_buffer. rewrite init_entries_lookup, Hmax, Hnext. reflexivity.
Qed.

Lemma chain_builder_leaves_wrapped_buffer_witness :
  exists g',
    initBufs 2 6 (set_dists (globals0 true) (upd (fun _ => 0) 0 (2 ^ 64 - 128)) 1)
    = Some g' /\
    blocks g' = 2 ^ 58 + 3 /\
    gcd (blocks g') (blockDiff g') = 1 /\
    idxMax g' = 12 /\
    @init_memory_per_thread Z int_payload g' = None.
Proof.
  destruct (@chain_builder_leaves_wrapped_buffer Z int_payload 2
              (set_dists (globals0 true) (upd (fun _ => 0) 0 (2 ^ 64 - 128)) 1))
    as (g' & Hrun & Hb & _ & Hco & _ & Hmax & _ & Hnone);
    [by_computation | reflexivity | reflexivity | reflexivity |].
  exists g'. repeat split; assumption.
Defined.

(* ================================================================== *)
(** * Benchmark executor: the [int] traversal counter *)

Section CounterOverflow.
Context {F : Type} `{Payload F}.
Variable g : globals.

(** The loop over the distances has no defined result when one of the
    distances it is to handle asks for more than [INT_MAX] traversals:
    the [int] counter [k] would have to pass [INT_MAX]. *)
Lemma distances_overflow (benchType : Z) (d : Z) (n : nat) :
  INT_MAX < distIter g d ->
  forall d0 (st : bench F),
    d0 <= d < d0 + Z.of_nat n ->
    distances g benchType n d0 st = None.
Proof.
  intros Hbig. induction n as [|n IH]; intros d0 st Hd; [lia|].
  cbn [distances].
  destruct (buf st !! 0) as [e|]; [|reflexivity].
  destruct (Z.eq_dec d0 d) as [->|Hne].
  - destruct (Z.ltb_spec INT_MAX (distIter g d)); [reflexivity | lia].
  - destruct (INT_MAX <? distIter g d0); [reflexivity|].
    destruct (sweeps g benchType _ d0 _) as [st'|]; [|reflexivity].
    apply IH. lia.
Qed.

Lemma runBench_overflow (buffer : gmap Z (entry F))
    (iter depChain doWrite : Z) (sum : F) (count0 : Z) (d : Z) :
  1 <= iter -> 0 <= d < distsUsed g -> INT_MAX < distIter g d ->
  runBench g buffer iter depChain doWrite sum count0 = None.
Proof.
  intros Hiter Hd Hbig. unfold runBench.
  replace (Z.to_nat iter) with (S (Z.to_nat iter - 1)) by lia.
  cbn [iterations].
  destruct (buf _ !! 0) as [e|]; [|reflexivity].
  rewrite (distances_overflow _ d _ Hbig) by lia. reflexivity.
Qed.
End CounterOverflow.

Lemma initBufs_registry (T : Z) (fuel : nat) (g g' : globals) :
  initBufs T fuel g = Some g' ->
  distSize g' = distSize g /\ distsUsed g' = distsUsed g /\
  forall i, 0 <= i < distsUsed g -> distSize g i <> 0.
Proof.
  intros Hrun.
  pose proof (initBufs_thread_count _ _ _ _ Hrun) as Hcount.
  rewrite (initBufs_past_asserts T fuel g Hcount) in Hrun.
  destruct (fill_metrics (Z.to_nat (distsUsed g)) 0 g) as [g1|] eqn:Hfill;
    [|discriminate].
  destruct (fill_metrics_frame _ _ _ _ Hfill) as (Hsize & Hused & _).
  cbv zeta in Hrun.
  destruct (adjustSize fuel _ _) as [b|]; [|discriminate].
  inversion Hrun; subst g'. cbn [set_sizes distSize distsUsed].
  split; [exact Hsize|]. split; [exact Hused|].
  intros i Hi. apply (fill_metrics_defined _ _ _ _ Hfill). lia.
Qed.

(** C9: for a registered distance [d] with
    [distSize[0] / distSize[d] >= 2^31], [initBufs] sets [distIter[d]]
    to that quotient, above [INT_MAX].  The loop
    [for (k = 0; k < distIter[d]; k++)] counts with the [int] [k], which
    cannot reach such a bound: a run of at least one iteration has no
    defined result, on any buffer and in any mode, so the counter is not
    increased by the sum of [distIter[d] * distBlocks[d]]. *)
Theorem runBench_traversal_counter_overflows {F : Type} `{Payload F}
    (T : Z) (fuel : nat) (g g' : globals) (d : Z)
    (buffer : gmap Z (entry F)) (iter depChain doWrite : Z) (sum : F)
    (count0 : Z) :
  initBufs T fuel g = Some g' ->
  0 <= d < distsUsed g ->
  2 ^ 31 <= distSize g 0 / distSize g d ->
  1 <= iter ->
  distIter g' d = distSize g 0 / distSize g d /\
  INT_MAX < distIter g' d /\
  runBench g' buffer iter depChain doWrite sum count0 = None.
Proof.
  intros Hrun Hd Hratio Hiter.
  destruct (initBufs_registry _ _ _ _ Hrun) as (_ & Hused & Hnz).
  destruct (initBufs_metrics_values T fuel g g' d Hnz Hrun Hd) as [Hit _].
  assert (Hbig : INT_MAX < distIter g' d) by (rewrite Hit; unfold INT_MAX; lia).
  split; [exact Hit|]. split; [exact Hbig|].
  apply (runBench_overflow g' buffer iter depChain doWrite sum count0 d);
    [exact Hiter | rewrite Hused; exact Hd | exact Hbig].
Qed.

Lemma runBench_traversal_counter_overflows_witness :
  initBufs 2 1 example_wide = Some example_wide_sized /\
  distIter example_wide_sized 1 = 2 ^ 31 /\
  @runBench Z int_payload example_wide_sized {[ 0 := Entry 0 (Some 0) ]} 1 0 0 0 0
  = None.
Proof.
  assert (Hrun : initBufs 2 1 example_wide = Some example_wide_sized)
    by by_computation.
  split; [exact Hrun|].
  destruct (@runBench_traversal_counter_overflows Z int_payload 2 1 example_wide
              example_wide_sized 1 {[ 0 := Entry 0 (Some 0) ]} 1 0 0 0 0 Hrun)
    as (Hit & _ & Hnone); [split; by_computation | by_computation | lia |].
  split; [rewrite Hit; by_computation | exact Hnone].
Defined.

(* ================================================================== *)
(** * Benchmark executor: the sum, value by value *)

Section Replay.
Context {F : Type} `{Payload F}.
Variable g : globals.













End Replay.



